(** * Tactics: the combat engine of [GameBoard.tsx]

    A shallow embedding of the combat engine of the Tactics game
    (src/components/GameBoard.tsx, src/types/game.ts, src/data/levels.ts):
    line of sight, the movement planner, the shield bash resolver, the enemy
    phase and the tile-click handler, with the properties of the
    specification stated and settled against them.

    Numbers are JavaScript numbers holding small integers; they are modelled
    by [Z].  Arrays are lists, indexed with stdpp's lookup, insert and
    delete.  React state setters become explicit state passing. *)

From Stdlib Require Import ZArith Lia.
From stdpp Require Import base tactics option list gmap strings sorting.

Open Scope Z_scope.

#[local] Set Warnings "-clear-no-such-hyp".

(** ** Data model (src/types/game.ts) *)

Record Position := mkPosition { x : Z; y : Z }.

Inductive Turn := player | enemy.

Inductive TerrainType := plains | mountain | water | forest.

(** [sprite] and [sizeMultiplier] only feed the renderer and are left out.
    [stunned?: boolean] is optional: [None] is the absent property. *)
Record Unit := mkUnit {
  id : string;
  name : string;
  position : Position;
  hp : Z;
  maxHp : Z;
  moveRange : Z;
  attackRange : Z;
  damage : Z;
  team : Turn;
  emoji : string;
  stunned : option bool
}.

(** [LevelData] of src/data/levels.ts, without the texts. *)
Record LevelData := mkLevel {
  levelId : Z;
  gridSize : Z;
  levelUnits : list Unit;
  mapSetup : Z → Z → TerrainType
}.

Global Instance Position_eq_dec : EqDecision Position.
Proof. solve_decision. Defined.
Global Instance Turn_eq_dec : EqDecision Turn.
Proof. solve_decision. Defined.
Global Instance TerrainType_eq_dec : EqDecision TerrainType.
Proof. solve_decision. Defined.
Global Instance Unit_eq_dec : EqDecision Unit.
Proof. solve_decision. Defined.

(** The two emoji the engine matches on: the shield (hero and
    shieldbearers) and the bow (archers). *)
Definition SHIELD : string := "🛡️".
Definition BOW : string := "🏹".

(** Object spreads [{ ...u, field: v }]. *)
Definition with_position (u : Unit) (p : Position) : Unit :=
  mkUnit (id u) (name u) p (hp u) (maxHp u) (moveRange u) (attackRange u)
         (damage u) (team u) (emoji u) (stunned u).

Definition with_hp (u : Unit) (h : Z) : Unit :=
  mkUnit (id u) (name u) (position u) h (maxHp u) (moveRange u) (attackRange u)
         (damage u) (team u) (emoji u) (stunned u).

Definition with_stunned (u : Unit) (b : bool) : Unit :=
  mkUnit (id u) (name u) (position u) (hp u) (maxHp u) (moveRange u)
         (attackRange u) (damage u) (team u) (emoji u) (Some b).

(** Truthiness of [unit.stunned]. *)
Definition isStunned (u : Unit) : bool :=
  match stunned u with Some true => true | _ => false end.

(** [u.position.x === p.x && u.position.y === p.y] *)
Definition at_cell (p : Position) (u : Unit) : Prop :=
  x (position u) = x p ∧ y (position u) = y p.

Global Instance at_cell_dec p u : Decision (at_cell p u).
Proof. unfold at_cell. apply _. Defined.

(** [.filter(u => u.hp > 0)] *)
Definition alive (l : list Unit) : list Unit := filter (λ u, 0 < hp u) l.

(** ** Levels (src/data/levels.ts) *)

Definition hero (p : Position) : Unit :=
  mkUnit "hero" "Hero" p 1 1 3 1 5 player SHIELD None.

Definition archer (i : string) (p : Position) : Unit :=
  mkUnit i "Archer" p 4 4 2 2 4 enemy BOW None.

Definition shieldbearer (i nm : string) (h : Z) (p : Position) : Unit :=
  mkUnit i nm p h h 2 1 1 enemy SHIELD None.

Definition is_cell (cx cy a b : Z) : bool := (cx =? a) && (cy =? b).

Definition forestAmbushMap (cx cy : Z) : TerrainType :=
  if is_cell cx cy 4 5 then mountain else
  if is_cell cx cy 5 5 then mountain else
  if is_cell cx cy 4 6 then mountain else
  if is_cell cx cy 5 6 then mountain else
  if is_cell cx cy 2 6 then mountain else
  if is_cell cx cy 2 5 then forest else
  if is_cell cx cy 7 6 then mountain else
  if is_cell cx cy 7 5 then forest else
  if is_cell cx cy 1 3 then forest else
  if is_cell cx cy 8 3 then forest else
  if is_cell cx cy 5 1 then forest else
  if cy =? 0 then water else plains.

Definition forestAmbush : LevelData :=
  mkLevel 1 10
    [ hero (mkPosition 4 9);
      archer "skel1" (mkPosition 1 3);
      archer "skel2" (mkPosition 8 3);
      archer "skel3" (mkPosition 5 1) ]
    forestAmbushMap.

Definition mountainPassMap (cx cy : Z) : TerrainType :=
  if (cx =? 0) || (cx =? 9) || (cy =? 0) || (cy =? 9) then water else
  if is_cell cx cy 4 4 || is_cell cx cy 5 4 ||
     is_cell cx cy 4 5 || is_cell cx cy 5 5 then mountain else
  if is_cell cx cy 2 3 || is_cell cx cy 7 3 ||
     is_cell cx cy 3 6 || is_cell cx cy 6 6 then mountain else
  if is_cell cx cy 1 1 || is_cell cx cy 8 1 ||
     is_cell cx cy 1 8 || is_cell cx cy 8 8 then mountain else
  if is_cell cx cy 3 3 || is_cell cx cy 6 3 ||
     is_cell cx cy 4 3 || is_cell cx cy 5 3 ||
     is_cell cx cy 2 4 || is_cell cx cy 7 4 then mountain else
  plains.

Definition mountainPass : LevelData :=
  mkLevel 2 10
    [ hero (mkPosition 4 8);
      shieldbearer "sb1" "Undead Shieldbearer" 50 (mkPosition 2 2);
      shieldbearer "sb2" "Undead Shieldbearer" 50 (mkPosition 7 2);
      shieldbearer "sb3" "Undead Shieldbearer" 50 (mkPosition 4 6);
      shieldbearer "sb4" "Undead Shieldbearer" 50 (mkPosition 5 6) ]
    mountainPassMap.

Definition crossfireMap (cx cy : Z) : TerrainType :=
  if (cx =? 0) || (cx =? 10) || (cy =? 0) || (cy =? 10) then water else
  if is_cell cx cy 4 4 || is_cell cx cy 6 4 then mountain else
  if is_cell cx cy 1 2 || is_cell cx cy 9 2 then mountain else
  if is_cell cx cy 3 7 || is_cell cx cy 7 7 then mountain else
  if is_cell cx cy 2 6 || is_cell cx cy 8 6 then mountain else
  if is_cell cx cy 5 7 || is_cell cx cy 4 8 || is_cell cx cy 6 8 then forest else
  if is_cell cx cy 3 6 || is_cell cx cy 7 6 ||
     is_cell cx cy 2 7 || is_cell cx cy 8 7 then forest else
  if is_cell cx cy 3 3 || is_cell cx cy 7 3 then forest else
  if is_cell cx cy 4 5 || is_cell cx cy 6 5 then forest else
  plains.

Definition crossfire : LevelData :=
  mkLevel 3 11
    [ hero (mkPosition 5 9);
      archer "archer1" (mkPosition 2 1);
      archer "archer2" (mkPosition 8 1);
      shieldbearer "sb1" "Shieldbearer" 8 (mkPosition 3 5);
      shieldbearer "sb2" "Shieldbearer" 8 (mkPosition 5 6);
      shieldbearer "sb3" "Shieldbearer" 8 (mkPosition 7 5) ]
    crossfireMap.

(** ** Combat resolver: the shield bash *)

(** [p.x < 0 || p.x >= GRID_SIZE || p.y < 0 || p.y >= GRID_SIZE] *)
Definition outOfBounds (GRID_SIZE : Z) (p : Position) : bool :=
  (x p <? 0) || (GRID_SIZE <=? x p) || (y p <? 0) || (GRID_SIZE <=? y p).

Definition getKnockbackPath (start end_ : Position) : list Position :=
  let dx := Z.sgn (x end_ - x start) in
  let dy := Z.sgn (y end_ - y start) in
  (λ i, mkPosition (x start + dx * i) (y start + dy * i)) <$> [1; 2].

Definition getPositionBeforeCollision
    (_start collisionPoint : Position) (dx dy : Z) : Position :=
  mkPosition (x collisionPoint - dx) (y collisionPoint - dy).

(** The predicate of [knockbackPath.find]: another unit on the cell, or a
    mountain. *)
Definition collides (level : LevelData) (target : Unit)
    (updatedUnits : list Unit) (pos : Position) : Prop :=
  Exists (λ u, id u ≠ id target ∧ at_cell pos u) updatedUnits
  ∨ mapSetup level (x pos) (y pos) = mountain.

Global Instance collides_dec level target us pos :
  Decision (collides level target us pos).
Proof. unfold collides. apply _. Defined.

(** The unit found by [findIndex] in the unit-collision branch. *)
Definition is_hit (target : Unit) (cp : Position) (u : Unit) : Prop :=
  at_cell cp u ∧ id u ≠ id target.

Global Instance is_hit_dec target cp u : Decision (is_hit target cp u).
Proof. unfold is_hit. apply _. Defined.

(** The target after a collision that stuns it. *)
Definition stunned_at (targetUnit : Unit) (p : Position) : Unit :=
  with_stunned (with_position (with_hp targetUnit (hp targetUnit - 1)) p) true.

(** The target pushed without a stun. *)
Definition pushed_to (u : Unit) (p : Position) : Unit :=
  with_position (with_hp u (hp u - 1)) p.

(** The body of [if (collisionPoint) { ... }].  The boolean is
    [setCurrentTurn('enemy')]. *)
Definition resolveCollision (level : LevelData) (target : Unit)
    (dx dy : Z) (targetIndex : nat) (targetUnit : Unit)
    (collisionPoint : Position) (updatedUnits : list Unit) : list Unit * bool :=
  let GRID_SIZE := gridSize level in
  let stopPosition :=
    getPositionBeforeCollision (position target) collisionPoint dx dy in
  if decide (mapSetup level (x collisionPoint) (y collisionPoint) = mountain)
  then (<[targetIndex := stunned_at targetUnit collisionPoint]> updatedUnits, true)
  else
    match list_find (is_hit target collisionPoint) updatedUnits with
    | Some (hitUnitIndex, hitUnit) =>
        if decide (emoji target = SHIELD ∧ emoji hitUnit = BOW) then
          (delete hitUnitIndex
             (<[targetIndex := stunned_at targetUnit (position hitUnit)]> updatedUnits),
           true)
        else if decide (emoji hitUnit = SHIELD ∧ emoji target = BOW) then
          (delete hitUnitIndex
             (<[targetIndex := stunned_at targetUnit (position hitUnit)]> updatedUnits),
           true)
        else
          let hitUnitKnockbackPos :=
            mkPosition (x collisionPoint + dx * 2) (y collisionPoint + dy * 2) in
          let isHitUnitOutOfBounds := outOfBounds GRID_SIZE hitUnitKnockbackPos in
          let isHitUnitWater :=
            negb isHitUnitOutOfBounds &&
            bool_decide (mapSetup level (x hitUnitKnockbackPos)
                                        (y hitUnitKnockbackPos) = water) in
          let updatedUnits1 :=
            <[targetIndex := stunned_at targetUnit (position hitUnit)]> updatedUnits in
          if isHitUnitOutOfBounds || isHitUnitWater
          then (delete hitUnitIndex updatedUnits1, true)
          else (<[hitUnitIndex := pushed_to hitUnit hitUnitKnockbackPos]> updatedUnits1,
                true)
    | None =>
        (<[targetIndex := pushed_to targetUnit stopPosition]> updatedUnits, false)
    end.

(** The body of the [else] of [if (collisionPoint)]: the terrain of the
    destination decides. *)
Definition resolveFreePath (level : LevelData) (targetIndex : nat)
    (targetUnit : Unit) (pushPos : Position) (updatedUnits : list Unit)
    : list Unit * bool :=
  let terrain := mapSetup level (x pushPos) (y pushPos) in
  match terrain with
  | water => (delete targetIndex updatedUnits, false)
  | mountain =>
      (<[targetIndex := stunned_at targetUnit pushPos]> updatedUnits, true)
  | _ => (<[targetIndex := pushed_to targetUnit pushPos]> updatedUnits, false)
  end.

(** The updater passed to [setUnits] by [executeShieldBash attacker target],
    applied to the roster [prev]; the boolean tells whether the updater
    called [setCurrentTurn('enemy')]. *)
Definition executeShieldBash (level : LevelData) (attacker target : Unit)
    (prev : list Unit) : list Unit * bool :=
  let GRID_SIZE := gridSize level in
  let dx := x (position target) - x (position attacker) in
  let dy := y (position target) - y (position attacker) in
  let pushPos :=
    mkPosition (x (position target) + dx * 2) (y (position target) + dy * 2) in
  let updatedUnits := prev in
  match list_find (λ u, id u = id target) updatedUnits with
  | None => (alive updatedUnits, false)
  | Some (targetIndex, targetUnit) =>
      if decide (hp targetUnit ≤ 0) then (alive updatedUnits, false)
      else if outOfBounds GRID_SIZE pushPos
      then (alive (delete targetIndex updatedUnits), false)
      else
        let knockbackPath := getKnockbackPath (position target) pushPos in
        let collisionPoint :=
          snd <$> list_find (collides level target updatedUnits) knockbackPath in
        let r :=
          match collisionPoint with
          | Some cp =>
              resolveCollision level target dx dy targetIndex targetUnit cp
                               updatedUnits
          | None => resolveFreePath level targetIndex targetUnit pushPos updatedUnits
          end in
        (alive r.1, r.2)
  end.

(** ** The grid

    [TileData] of src/types/game.ts and the grid built by the
    "Initialize the grid and place units" effect: row [y], column [x]. *)

Record TileData := mkTile {
  tile_position : Position;
  terrain : TerrainType;
  tile_unit : option Unit
}.

Definition initGrid (level : LevelData) (units : list Unit) : list (list TileData) :=
  (λ cy,
     (λ cx,
        let unitOnTile := snd <$> list_find (at_cell (mkPosition cx cy)) units in
        mkTile (mkPosition cx cy) (mapSetup level cx cy) unitOnTile)
     <$> seqZ 0 (gridSize level))
  <$> seqZ 0 (gridSize level).

(** [a[i]] for a number [i]: [undefined] outside the array. *)
Definition index {A} (a : list A) (i : Z) : option A :=
  if decide (0 ≤ i) then a !! Z.to_nat i else None.

(** [currentGrid[cy][cx]]; [None] is the TypeError of reading a property of
    [undefined]. *)
Definition tileAt (currentGrid : list (list TileData)) (cx cy : Z) : option TileData :=
  row ← index currentGrid cy; index row cx.

(** ** Line of sight *)

(** One round of [while (true)]; [None] when a tile read throws or the fuel
    runs out. *)
Fixpoint losLoop (fuel : nat) (currentGrid : list (list TileData))
    (start end_ : Position) (dx dy sx sy : Z) (x0 y0 err : Z) : option bool :=
  match fuel with
  | O => None
  | S fuel' =>
      if decide (x0 = x end_ ∧ y0 = y end_) then Some true
      else
        blocked ←
          (if decide (¬ (x0 = x start ∧ y0 = y start))
           then t ← tileAt currentGrid x0 y0;
                Some (bool_decide (terrain t = mountain))
           else Some false);
        if (blocked : bool) then Some false
        else
          let e2 := 2 * err in
          let '(err1, x0') :=
            if decide (e2 > - dy) then (err - dy, x0 + sx) else (err, x0) in
          let '(err2, y0') :=
            if decide (e2 < dx) then (err1 + dx, y0 + sy) else (err1, y0) in
          losLoop fuel' currentGrid start end_ dx dy sx sy x0' y0' err2
  end.

Definition hasLineOfSight (start end_ : Position)
    (currentGrid : list (list TileData)) : option bool :=
  let x0 := x start in
  let y0 := y start in
  let x1 := x end_ in
  let y1 := y end_ in
  let dx := Z.abs (x1 - x0) in
  let dy := Z.abs (y1 - y0) in
  let sx := if decide (x0 < x1) then 1 else -1 in
  let sy := if decide (y0 < y1) then 1 else -1 in
  let err := dx - dy in
  losLoop (S (Z.to_nat (dx + dy))) currentGrid start end_ dx dy sx sy x0 y0 err.

(** ** Movement planner *)

Record Node := mkNode { node_position : Position; curCost : Z }.

(** The key [`${x}-${y}`] of the [visited] set; on integer coordinates the
    string determines the pair. *)
Definition key (p : Position) : Z * Z := (x p, y p).

Definition neighbors (p : Position) : list Position :=
  [ mkPosition (x p + 1) (y p); mkPosition (x p - 1) (y p);
    mkPosition (x p) (y p + 1); mkPosition (x p) (y p - 1) ].

(** [if (current.curCost + cost <= unit.moveRange) { if (!visited.has(k))
    { visited.add(k); queue.push({ ...neighbor, curCost: ... }) } }] *)
Definition enqueue (unit : Unit) (current : Node) (neighbor : Position)
    (cost : Z) (qv : list Node * gset (Z * Z)) : list Node * gset (Z * Z) :=
  if decide (curCost current + cost ≤ moveRange unit) then
    if decide (key neighbor ∈ qv.2) then qv
    else (qv.1 ++ [mkNode neighbor (curCost current + cost)], {[key neighbor]} ∪ (qv.2))
  else qv.

(** The body of the [forEach] over the four neighbours. *)
Definition visitNeighbor (GRID_SIZE : Z) (units : list Unit) (unit : Unit)
    (currentGrid : list (list TileData)) (startsOnForest : bool)
    (current : Node) (qv : list Node * gset (Z * Z)) (neighbor : Position)
    : option (list Node * gset (Z * Z)) :=
  if outOfBounds GRID_SIZE neighbor then Some qv
  else
    tile ← tileAt currentGrid (x neighbor) (y neighbor);
    let isBlocked := bool_decide (Exists (at_cell neighbor) units) in
    if bool_decide (terrain tile = water) || bool_decide (terrain tile = mountain)
       || isBlocked
    then Some qv
    else
      let cost := if decide (terrain tile = forest) then 2 else 1 in
      if bool_decide (curCost current = 0) && startsOnForest then
        let cost := 2 in
        if decide (moveRange unit = 2)
        then Some (enqueue unit current neighbor cost qv)
        else Some (enqueue unit current neighbor cost qv)
      else Some (enqueue unit current neighbor cost qv).

Fixpoint forEachM {A S : Type} (f : S → A → option S) (l : list A) (s : S)
    : option S :=
  match l with
  | [] => Some s
  | a :: l' => s' ← f s a; forEachM f l' s'
  end.

(** [while (queue.length > 0)]; every round shifts one node. *)
Fixpoint bfsLoop (fuel : nat) (GRID_SIZE : Z) (units : list Unit) (unit : Unit)
    (currentGrid : list (list TileData)) (startsOnForest : bool)
    (queue : list Node) (visited : gset (Z * Z)) (valid : list Position)
    : option (list Position) :=
  match queue with
  | [] => Some valid
  | current :: rest =>
      match fuel with
      | O => None
      | S fuel' =>
          let valid' :=
            if decide (curCost current > 0)
            then valid ++ [node_position current] else valid in
          qv ← forEachM
                 (visitNeighbor GRID_SIZE units unit currentGrid startsOnForest current)
                 (neighbors (node_position current)) (rest, visited);
          bfsLoop fuel' GRID_SIZE units unit currentGrid startsOnForest
                  qv.1 qv.2 valid'
      end
  end.

(** [getValidMoves] closes over the component's [units] and [GRID_SIZE].
    The tile of the unit is read only when the unit is no archer ([&&] cuts
    short).  At most one node is ever queued per cell besides the start, so
    the fuel is the number of cells plus one. *)
Definition getValidMoves (GRID_SIZE : Z) (units : list Unit) (unit : Unit)
    (currentGrid : list (list TileData)) : option (list Position) :=
  if isStunned unit then Some []
  else
    startsOnForest ←
      (if decide (emoji unit ≠ BOW)
       then startTile ← tileAt currentGrid (x (position unit)) (y (position unit));
            Some (bool_decide (terrain startTile = forest))
       else Some false);
    let startNode := mkNode (position unit) 0 in
    bfsLoop (S (Z.to_nat (GRID_SIZE * GRID_SIZE))) GRID_SIZE units unit
            currentGrid startsOnForest [startNode] {[key (position unit)]} [].

(** ** Targeting and the direct attack *)

Definition manhattan (p q : Position) : Z :=
  Z.abs (x p - x q) + Z.abs (y p - y q).

Definition getValidTargets (attacker : Unit)
    (currentGrid : list (list TileData)) (allUnits : list Unit)
    : option (list Position) :=
  forEachM
    (λ targets target,
       if decide (team target = team attacker) then Some targets
       else
         let dist := manhattan (position attacker) (position target) in
         if decide (dist ≤ attackRange attacker) then
           los ← hasLineOfSight (position attacker) (position target) currentGrid;
           if (los : bool) then Some (targets ++ [position target])
           else Some targets
         else Some targets)
    allUnits [].

(** The updater passed to [setUnits] by [executeAttack]. *)
Definition executeAttack (attacker target : Unit) (prev : list Unit) : list Unit :=
  let dmg := damage attacker in
  alive ((λ u, if decide (id u = id target) then with_hp u (hp u - dmg) else u)
           <$> prev).

(** ** Enemy phase *)

(** [Array.prototype.sort] with the comparator [f(a) - f(b)]: a stable
    sort, written as insertion. *)
Fixpoint insertBy {A} (f : A → Z) (a : A) (l : list A) : list A :=
  match l with
  | [] => [a]
  | b :: l' => if decide (f a ≤ f b) then a :: b :: l' else b :: insertBy f a l'
  end.

Definition sortBy {A} (f : A → Z) (l : list A) : list A :=
  foldr (insertBy f) [] l.

(** The body of [moves.forEach]; [minDistance] starts at [Infinity],
    modelled by [None]. *)
Definition considerMove (playerUnit foe : Unit) (newUnits : list Unit)
    (best : Position * option Z) (pos : Position) : Position * option Z :=
  let isBlocked :=
    bool_decide (Exists (λ u, at_cell pos u ∧ id u ≠ id foe) newUnits) in
  if isBlocked then best
  else
    let dist := manhattan pos (position playerUnit) in
    let diff := Z.abs (dist - attackRange foe) in
    match best.2 with
    | Some minDistance =>
        if decide (diff < minDistance) then (pos, Some diff) else best
    | None => (pos, Some diff)
    end.

(** The body of the first [enemies.forEach]: movement. *)
Definition moveEnemy (GRID_SIZE : Z) (units : list Unit)
    (grid : list (list TileData)) (playerUnit : Unit)
    (newUnits : list Unit) (foe : Unit) : option (list Unit) :=
  if isStunned foe then Some newUnits
  else
    let distToPlayer := manhattan (position foe) (position playerUnit) in
    mustMove ←
      (if decide (distToPlayer > attackRange foe) then Some true
       else negb <$> hasLineOfSight (position foe) (position playerUnit) grid);
    if (mustMove : bool) then
      moves ← getValidMoves GRID_SIZE units foe grid;
      let bestMove :=
        (foldl (considerMove playerUnit foe newUnits) (position foe, None) moves).1 in
      Some ((λ u, if decide (id u = id foe) then with_position u bestMove else u)
              <$> newUnits)
    else Some newUnits.

(** The body of the second [enemies.forEach]: attacks.  The state is
    [playerHp]. *)
Definition attackPlayer (grid : list (list TileData)) (playerUnit : Unit)
    (newUnits : list Unit) (playerHp : Z) (foe : Unit) : option Z :=
  if isStunned foe then Some playerHp
  else
    updated ← snd <$> list_find (λ u, id u = id foe) newUnits;
    let dist := manhattan (position updated) (position playerUnit) in
    if decide (dist ≤ attackRange updated) then
      los ← hasLineOfSight (position updated) (position playerUnit) grid;
      if (los : bool) then Some (playerHp - damage updated) else Some playerHp
    else Some playerHp.

(** The timer callback of the "Enemy AI" effect, up to [setUnits]: the new
    roster. *)
Definition enemyBatch (GRID_SIZE : Z) (units : list Unit)
    (grid : list (list TileData)) : option (list Unit) :=
  let enemies := filter (λ u, team u = enemy) units in
  match snd <$> list_find (λ u, team u = player) units with
  | Some playerUnit =>
      if decide (0 < length enemies)%nat then
        let enemies :=
          sortBy (λ a, manhattan (position a) (position playerUnit)) enemies in
        newUnits ← forEachM (moveEnemy GRID_SIZE units grid playerUnit) enemies units;
        playerHp ← forEachM (attackPlayer grid playerUnit newUnits) enemies
                            (hp playerUnit);
        Some (alive ((λ u, if decide (team u = player) then with_hp u playerHp else u)
                       <$> newUnits))
      else Some units
  | None => Some units
  end.

(** ** The board: the component's state *)

Inductive Action := attack | shield_bash.
Inductive GameState := playing | won | lost.

Global Instance Action_eq_dec : EqDecision Action.
Proof. solve_decision. Defined.
Global Instance GameState_eq_dec : EqDecision GameState.
Proof. solve_decision. Defined.

(** The [useState] cells that the engine reads and writes; [grid] is
    rebuilt from [units] by its effect after every change of the roster. *)
Record Board := mkBoard {
  units : list Unit;
  selectedUnitId : option string;
  validMoves : list Position;
  currentTurn : Turn;
  hasMoved : bool;
  validTargets : list Position;
  selectedAction : Action;
  gameState : GameState
}.

Definition grid (level : LevelData) (s : Board) : list (list TileData) :=
  initGrid level (units s).

Definition initialAction (level : LevelData) : Action :=
  if decide (levelId level = 2) then shield_bash else attack.

Definition initialBoard (level : LevelData) : Board :=
  mkBoard (levelUnits level) None [] player false [] (initialAction level) playing.

(** The "Check Win/Loss Condition" effect. *)
Definition checkOutcome (s : Board) : Board :=
  if decide (gameState s ≠ playing) then s
  else
    match list_find (λ u, team u = player) (units s) with
    | None =>
        mkBoard (units s) (selectedUnitId s) (validMoves s) (currentTurn s)
                (hasMoved s) (validTargets s) (selectedAction s) lost
    | Some _ =>
        if decide (length (filter (λ u, team u = enemy) (units s)) = 0%nat) then
          mkBoard (units s) (selectedUnitId s) (validMoves s) (currentTurn s)
                  (hasMoved s) (validTargets s) (selectedAction s) won
        else s
    end.

(** The "Remove stun status" effect. *)
Definition clearStun (s : Board) : Board :=
  if decide (currentTurn s = player ∧ gameState s = playing) then
    mkBoard ((λ u, with_stunned u false) <$> units s) (selectedUnitId s)
            (validMoves s) (currentTurn s) (hasMoved s) (validTargets s)
            (selectedAction s) (gameState s)
  else s.

(** The "Enemy AI" effect, with its one-second timer run to the end. *)
Definition enemyPhase (level : LevelData) (s : Board) : option Board :=
  if decide (currentTurn s = enemy ∧ gameState s = playing) then
    newUnits ← enemyBatch (gridSize level) (units s) (grid level s);
    Some (mkBoard newUnits (selectedUnitId s) (validMoves s) player
                  (hasMoved s) (validTargets s) (selectedAction s) (gameState s))
  else Some s.

(** [t.x === tile.position.x && t.y === tile.position.y] *)
Definition isAt (tile : TileData) (p : Position) : Prop :=
  x p = x (tile_position tile) ∧ y p = y (tile_position tile).

Global Instance isAt_dec tile p : Decision (isAt tile p).
Proof. unfold isAt. apply _. Defined.

(** The body of [if (selectedUnit && hasMoved)]: the click on a target.  It
    is given with the timers of the click (the bash after 300 ms, the end of
    the action after 800 ms) run to the end. *)
Definition handleAttackClick (level : LevelData) (s : Board) (tile : TileData)
    (selectedUnit : Unit) : Board :=
  let isTarget := bool_decide (Exists (isAt tile) (validTargets s)) in
  match tile_unit tile with
  | Some targetUnit =>
      if isTarget && bool_decide (team targetUnit = enemy) then
        let units' :=
          match selectedAction s with
          | shield_bash =>
              (executeShieldBash level selectedUnit targetUnit (units s)).1
          | attack => executeAttack selectedUnit targetUnit (units s)
          end in
        mkBoard units' None (validMoves s) enemy false [] (initialAction level)
                (gameState s)
      else s
  | None => s
  end.

(** The body of [if (selectedUnitId && !hasMoved)]: the click on a valid
    move.  [Some None] when the click is no move and the handler goes on;
    [None] when [getValidTargets] throws. *)
Definition handleMoveClick (level : LevelData) (s : Board) (tile : TileData)
    : option (option Board) :=
  match selectedUnitId s with
  | Some sel =>
      if bool_decide (sel ≠ EmptyString) && negb (hasMoved s)
         && bool_decide (Exists (isAt tile) (validMoves s)) then
        let newUnits :=
          (λ u, if decide (id u = sel)
                then with_position u (tile_position tile) else u)
          <$> units s in
        let movedUnit := snd <$> list_find (λ u, id u = sel) newUnits in
        targets ←
          match movedUnit, newUnits with
          | Some movedUnit, _ => getValidTargets movedUnit (grid level s) newUnits
          | None, [] => Some []
          | None, _ :: _ => None
          end;
        if decide (0 < length targets)%nat then
          Some (Some (mkBoard newUnits (selectedUnitId s) [] (currentTurn s) true
                              targets (selectedAction s) (gameState s)))
        else
          Some (Some (mkBoard newUnits None [] enemy (hasMoved s)
                              (validTargets s) (selectedAction s) (gameState s)))
      else Some None
  | None => Some None
  end.

(** The end of the handler: the click that selects or deselects. *)
Definition handleSelectClick (level : LevelData) (s : Board) (tile : TileData)
    : option Board :=
  let deselected :=
    mkBoard (units s) None [] (currentTurn s) (hasMoved s) (validTargets s)
            (selectedAction s) (gameState s) in
  match tile_unit tile with
  | Some u =>
      if negb (hasMoved s) && bool_decide (team u = player) then
        if isStunned u then Some deselected
        else
          moves ← getValidMoves (gridSize level) (units s) u (grid level s);
          Some (mkBoard (units s) (Some (id u)) moves (currentTurn s)
                        (hasMoved s) (validTargets s) (selectedAction s)
                        (gameState s))
      else if negb (hasMoved s) then Some deselected
      else Some s
  | None => if negb (hasMoved s) then Some deselected else Some s
  end.

(** [handleTileClick tile]; [None] when the handler throws. *)
Definition handleTileClick (level : LevelData) (s : Board) (tile : TileData)
    : option Board :=
  if decide (currentTurn s ≠ player) then Some s
  else
    let selectedUnit :=
      snd <$> list_find (λ u, Some (id u) = selectedUnitId s) (units s) in
    match selectedUnit, hasMoved s with
    | Some selectedUnit, true => Some (handleAttackClick level s tile selectedUnit)
    | _, _ =>
        moved ← handleMoveClick level s tile;
        match moved with
        | Some s' => Some s'
        | None => handleSelectClick level s tile
        end
    end.

(** A click on the cell [(cx, cy)] of the grid. *)
Definition click (level : LevelData) (s : Board) (cx cy : Z) : option Board :=
  tile ← tileAt (grid level s) cx cy; handleTileClick level s tile.

(** ** Notions used by the properties *)

(** Ids are the identity of a unit: a roster has no two units of one id. *)
Definition unique_ids (l : list Unit) : Prop := NoDup (id <$> l).

(** Names for the constants of [executeShieldBash]. *)
Definition pushPosition (attacker target : Unit) : Position :=
  mkPosition
    (x (position target) + (x (position target) - x (position attacker)) * 2)
    (y (position target) + (y (position target) - y (position attacker)) * 2).

(** [knockbackPath.find(...)]. *)
Definition firstCollision (level : LevelData) (attacker target : Unit)
    (prev : list Unit) : option Position :=
  snd <$> list_find (collides level target prev)
            (getKnockbackPath (position target) (pushPosition attacker target)).

(** ** Test rosters *)

(** A row of the Mountain Pass: the hero bashes [sb3] into [sb4]. *)
Definition passRow7 : list Unit :=
  [ hero (mkPosition 2 7);
    shieldbearer "sb3" "Undead Shieldbearer" 50 (mkPosition 3 7);
    shieldbearer "sb4" "Undead Shieldbearer" 50 (mkPosition 4 7) ].

(** The Crossfire: the hero bashes [archer1] into [sb1]. *)
Definition crossfireRow1 : list Unit :=
  [ hero (mkPosition 1 1);
    archer "archer1" (mkPosition 2 1);
    shieldbearer "sb1" "Shieldbearer" 8 (mkPosition 3 1);
    archer "archer2" (mkPosition 8 1) ].

(** The Crossfire: the hero bashes [sb1] into [archer1]. *)
Definition crossfireRow2 : list Unit :=
  [ hero (mkPosition 1 3);
    shieldbearer "sb1" "Shieldbearer" 8 (mkPosition 2 3);
    archer "archer1" (mkPosition 3 3) ].

(** A row of the Mountain Pass with a fourth unit two cells behind the
    struck one. *)
Definition passRow7Crowded : list Unit :=
  [ hero (mkPosition 2 7);
    shieldbearer "sb3" "Undead Shieldbearer" 50 (mkPosition 3 7);
    shieldbearer "sb4" "Undead Shieldbearer" 50 (mkPosition 4 7);
    shieldbearer "sb1" "Undead Shieldbearer" 50 (mkPosition 6 7) ].

(** The Mountain Pass after [sb3] was bashed from (4,6) onto the mountain
    of (4,5): the hero stands on (4,7) and [sb4] has come to (4,6). *)
Definition passStacked : list Unit :=
  [ hero (mkPosition 4 7);
    mkUnit "sb3" "Undead Shieldbearer" (mkPosition 4 5) 49 50 2 1 1 enemy SHIELD
           (Some false);
    shieldbearer "sb4" "Undead Shieldbearer" 50 (mkPosition 4 6) ].

(** The Mountain Pass at its start, the hero having walked to (2,1). *)
Definition passHeroNorth : list Unit :=
  [ hero (mkPosition 2 1);
    shieldbearer "sb1" "Undead Shieldbearer" 50 (mkPosition 2 2);
    shieldbearer "sb2" "Undead Shieldbearer" 50 (mkPosition 7 2);
    shieldbearer "sb3" "Undead Shieldbearer" 50 (mkPosition 4 6);
    shieldbearer "sb4" "Undead Shieldbearer" 50 (mkPosition 5 6) ].

(** A level whose border is not water: the terrain of the Forest Ambush,
    whose bottom row is plains, with the bash available. *)
Definition borderLevel : LevelData :=
  mkLevel 4 10
    [ hero (mkPosition 4 7);
      shieldbearer "sb1" "Shieldbearer" 8 (mkPosition 4 8);
      shieldbearer "sb2" "Shieldbearer" 8 (mkPosition 4 9) ]
    forestAmbushMap.

(** ** Notions of the movement planner *)

(** Cost to enter a cell: 2 for forest, 1 otherwise. *)
Definition entryCost (level : LevelData) (q : Position) : Z :=
  if decide (mapSetup level (x q) (y q) = forest) then 2 else 1.

(** A cell a unit may step on: in bounds, neither water nor mountain, and
    held by no unit of the roster. *)
Definition enterable (level : LevelData) (units : list Unit) (q : Position) : Prop :=
  outOfBounds (gridSize level) q = false
  ∧ mapSetup level (x q) (y q) ≠ water
  ∧ mapSetup level (x q) (y q) ≠ mountain
  ∧ ¬ Exists (at_cell q) units.

(** The cost the planner charges for the step from [current] into [q]: the
    entry cost of [q], or 2 for the first step of a unit that starts on
    forest. *)
Definition stepCost (level : LevelData) (startsOnForest : bool)
    (current : Node) (q : Position) : Z :=
  if bool_decide (curCost current = 0) && startsOnForest then 2
  else entryCost level q.

(** [reachable level units startsOnForest start c e m]: a walk of
    4-neighbour steps through enterable cells leads from [start] to [c]; the
    entry costs of the cells it enters add up to [e], and the planner
    charges [m] movement points for it. *)
Inductive reachable (level : LevelData) (units : list Unit)
    (startsOnForest : bool) (start : Position) : Position → Z → Z → Prop :=
  | reach_start : reachable level units startsOnForest start start 0 0
  | reach_step p q e m :
      reachable level units startsOnForest start p e m →
      q ∈ neighbors p →
      enterable level units q →
      reachable level units startsOnForest start q
        (e + entryCost level q)
        (m + stepCost level startsOnForest (mkNode p m) q).

(** [trail level units q c e]: a walk of 4-neighbour steps through
    enterable cells leads from [q] to [c]; the entry costs of the cells it
    enters after [q] add up to [e]. *)
Inductive trail (level : LevelData) (units : list Unit) (q : Position)
    : Position → Z → Prop :=
  | trail_start : trail level units q q 0
  | trail_step p c e :
      trail level units q p e →
      c ∈ neighbors p →
      enterable level units c →
      trail level units q c (e + entryCost level c).

(** The keys of the cells of the grid. *)
Definition cellKeys (GRID_SIZE : Z) : gset (Z * Z) :=
  list_to_set (list_prod (seqZ 0 GRID_SIZE) (seqZ 0 GRID_SIZE)).

(** The keys the planner can ever mark visited: the start and the cells of
    the grid. *)
Definition plannerKeys (GRID_SIZE : Z) (start : Position) : gset (Z * Z) :=
  {[key start]} ∪ cellKeys GRID_SIZE.

(** No cell is charged less than this on any walk of the planner: a unit
    that starts on forest pays 2 for its first step. *)
Definition lowerBound (level : LevelData) (startsOnForest : bool)
    (q : Position) : Z :=
  if startsOnForest then 2 else entryCost level q.

(** What holds of every node of the queue. *)
Definition node_ok (level : LevelData) (units : list Unit) (unit : Unit)
    (startsOnForest : bool) (node : Node) : Prop :=
  0 ≤ curCost node
  ∧ (∃ e, reachable level units startsOnForest (position unit)
                      (node_position node) e (curCost node)
          ∧ e ≤ curCost node)
  ∧ (curCost node > 0 →
       enterable level units (node_position node)
       ∧ node_position node ≠ position unit
       ∧ lowerBound level startsOnForest (node_position node) ≤ curCost node
       ∧ curCost node ≤ moveRange unit).

(** What holds of every cell of [valid]. *)
Definition cell_ok (level : LevelData) (units : list Unit) (unit : Unit)
    (startsOnForest : bool) (c : Position) : Prop :=
  enterable level units c
  ∧ c ≠ position unit
  ∧ (∃ e m, reachable level units startsOnForest (position unit) c e m
            ∧ e ≤ m ∧ m ≤ moveRange unit)
  ∧ lowerBound level startsOnForest c ≤ moveRange unit.

(** [startsOnForest] of [getValidMoves]. *)
Definition startsOnForest (level : LevelData) (unit : Unit) : bool :=
  bool_decide (emoji unit ≠ BOW)
  && bool_decide (mapSetup level (x (position unit)) (y (position unit)) = forest).

Global Instance enterable_dec level units q : Decision (enterable level units q).
Proof. unfold enterable. apply _. Defined.

(** The Crossfire with [sb1] standing on the forest of (3,6). *)
Definition crossfireForest : list Unit :=
  [ hero (mkPosition 5 9);
    shieldbearer "sb1" "Shieldbearer" 8 (mkPosition 3 6) ].

(** ** Notions of the line of sight *)

(** The two cells share a row, a column or a diagonal. *)
Definition aligned (a b : Position) : Prop :=
  x a = x b ∨ y a = y b ∨ Z.abs (x b - x a) = Z.abs (y b - y a).

(** No mountain strictly between [a] and [b], walking from [a] one cell at a
    time along the direction of [b]. *)
Definition clear_between (level : LevelData) (a b : Position) : Prop :=
  ∀ i, 0 < i < Z.max (Z.abs (x b - x a)) (Z.abs (y b - y a)) →
       mapSetup level (x a + i * Z.sgn (x b - x a))
                      (y a + i * Z.sgn (y b - y a)) ≠ mountain.

(** ** Notions of the enemy phase *)

(** A unit stands inside the grid. *)
Definition inGrid (level : LevelData) (u : Unit) : Prop :=
  outOfBounds (gridSize level) (position u) = false.

(** The distance key of the sort. *)
Definition distanceTo (playerUnit : Unit) (a : Unit) : Z :=
  manhattan (position a) (position playerUnit).

(** [foe] strikes in the attack pass run on the roster [newUnits]: it is not
    stunned and, where [newUnits] has it, it is within its range of the
    player with a clear line of sight. *)
Definition attacks (grid : list (list TileData)) (playerUnit : Unit)
    (newUnits : list Unit) (foe : Unit) : Prop :=
  isStunned foe = false
  ∧ match snd <$> list_find (λ u, id u = id foe) newUnits with
    | Some updated =>
        manhattan (position updated) (position playerUnit) ≤ attackRange updated
        ∧ hasLineOfSight (position updated) (position playerUnit) grid = Some true
    | None => False
    end.

Global Instance attacks_dec grid playerUnit newUnits foe :
  Decision (attacks grid playerUnit newUnits foe).
Proof.
  unfold attacks.
  destruct (snd <$> list_find (λ u, id u = id foe) newUnits); apply _.
Defined.

(** The damage of [foe] as [newUnits] has it. *)
Definition damageOf (newUnits : list Unit) (foe : Unit) : Z :=
  match snd <$> list_find (λ u, id u = id foe) newUnits with
  | Some updated => damage updated
  | None => 0
  end.

(** The damage of all the enemies of [order] that strike. *)
Definition totalDamage (grid : list (list TileData)) (playerUnit : Unit)
    (newUnits : list Unit) (order : list Unit) : Z :=
  foldr Z.add 0
    (damageOf newUnits <$> filter (attacks grid playerUnit newUnits) order).

Global Instance inGrid_dec level u : Decision (inGrid level u).
Proof. unfold inGrid. apply _. Defined.

(** The Forest Ambush after the hero's first move, to (4,7). *)
Definition ambushHeroAdvanced : list Unit :=
  [ hero (mkPosition 4 7);
    archer "skel1" (mkPosition 1 3);
    archer "skel2" (mkPosition 8 3);
    archer "skel3" (mkPosition 5 1) ].

(** ** Rosters at rest *)

(** A cell inside the grid that is not water. *)
Definition dry (level : LevelData) (c : Position) : Prop :=
  outOfBounds (gridSize level) c = false
  ∧ mapSetup level (x c) (y c) ≠ water.

(** A unit at rest: inside the grid and not on water. *)
Definition settled (level : LevelData) (u : Unit) : Prop :=
  dry level (position u).

Global Instance dry_dec level c : Decision (dry level c).
Proof. unfold dry. apply _. Defined.

Global Instance settled_dec level u : Decision (settled level u).
Proof. unfold settled. apply _. Defined.

(** A board whose roster is at rest, whose cached moves are cells at rest,
    whose selection names a unit of the roster, and that holds no selection
    during the enemy's turn. *)
Definition board_ok (level : LevelData) (s : Board) : Prop :=
  Forall (settled level) (units s)
  ∧ Forall (dry level) (validMoves s)
  ∧ (∀ sel, selectedUnitId s = Some sel → sel ∈ id <$> units s)
  ∧ (currentTurn s = enemy → selectedUnitId s = None).

(** * The rest of the board (src/components/GameBoard.tsx) *)

(** ** The direction of a strike *)

(** The eight directions of the sword and shield animations. *)
Module Direction.
Inductive t :=
  | up | down | left | right | up_left | up_right | down_left | down_right.
End Direction.

Global Instance Direction_eq_dec : EqDecision Direction.t.
Proof. solve_decision. Defined.

Definition calculateAttackDirection (attacker target : Position) : Direction.t :=
  let dx := x target - x attacker in
  let dy := y target - y attacker in
  if decide (dx > 0 ∧ dy = 0) then Direction.right
  else if decide (dx < 0 ∧ dy = 0) then Direction.left
  else if decide (dy > 0 ∧ dx = 0) then Direction.down
  else if decide (dy < 0 ∧ dx = 0) then Direction.up
  else if decide (dx > 0 ∧ dy < 0) then Direction.up_right
  else if decide (dx < 0 ∧ dy < 0) then Direction.up_left
  else if decide (dx > 0 ∧ dy > 0) then Direction.down_right
  else if decide (dx < 0 ∧ dy > 0) then Direction.down_left
  else Direction.right.

(** ** The highlighted range of a hovered enemy *)

(** [for x] outside, [for y] inside; [None] when a tile read of
    [hasLineOfSight] throws. *)
Definition getAttackRangePositions (GRID_SIZE : Z) (unit : Unit)
    (currentGrid : list (list TileData)) : option (list Position) :=
  forEachM
    (λ positions cell,
       let cx := cell.1 in
       let cy := cell.2 in
       let dist :=
         Z.abs (x (position unit) - cx) + Z.abs (y (position unit) - cy) in
       if decide (dist ≤ attackRange unit ∧ dist > 0) then
         los ← hasLineOfSight (position unit) (mkPosition cx cy) currentGrid;
         if (los : bool) then Some (positions ++ [mkPosition cx cy])
         else Some positions
       else Some positions)
    (list_prod (seqZ 0 GRID_SIZE) (seqZ 0 GRID_SIZE)) [].

(** ** Notions used by the properties of the board *)

(** The two cells touch, diagonals included. *)
Definition touching (a b : Position) : Prop :=
  Z.abs (x b - x a) ≤ 1 ∧ Z.abs (y b - y a) ≤ 1.

(** [target] may be struck by [attacker]: the other team, within range, in
    sight. *)
Definition targetable (attacker : Unit) (currentGrid : list (list TileData))
    (target : Unit) : Prop :=
  team target ≠ team attacker
  ∧ manhattan (position attacker) (position target) ≤ attackRange attacker
  ∧ hasLineOfSight (position attacker) (position target) currentGrid = Some true.

Global Instance targetable_dec attacker currentGrid target :
  Decision (targetable attacker currentGrid target).
Proof. unfold targetable. apply _. Defined.

(** A level without forest, as the Mountain Pass. *)
Definition forestFree (level : LevelData) : Prop :=
  ∀ cx cy, mapSetup level cx cy ≠ forest.

(** [walk level units start c k]: [k] orthogonal steps through enterable
    cells lead from [start] to [c]. *)
Inductive walk (level : LevelData) (units : list Unit) (start : Position)
    : Position → Z → Prop :=
  | walk_start : walk level units start start 0
  | walk_step p q k :
      walk level units start p k →
      q ∈ neighbors p →
      enterable level units q →
      walk level units start q (k + 1).

(** The invariant of the loop on a level without forest, where every step
    costs 1: the queue holds nodes of cost [h] followed by nodes of cost
    [h + 1]; every cell within [h] steps is visited; no queued cell can be
    reached in fewer steps than its cost; a visited cell that has left the
    queue has all its affordable neighbours visited; a visited cell is the
    start, or listed, or queued. *)
Definition layered (level : LevelData) (units : list Unit) (unit : Unit)
    (h : Z) (queue : list Node) (visited : gset (Z * Z))
    (valid : list Position) : Prop :=
  0 ≤ h
  ∧ key (position unit) ∈ visited
  ∧ (∃ A B, queue = A ++ B
            ∧ Forall (λ n, curCost n = h) A
            ∧ Forall (λ n, curCost n = h + 1) B)
  ∧ (∀ c k, walk level units (position unit) c k →
            k ≤ h → k ≤ moveRange unit → key c ∈ visited)
  ∧ (∀ n k, n ∈ queue → walk level units (position unit) (node_position n) k →
            curCost n ≤ k)
  ∧ (∀ p k nb, key p ∈ visited → p ∉ node_position <$> queue →
               walk level units (position unit) p k →
               k + 1 ≤ moveRange unit →
               nb ∈ neighbors p → enterable level units nb →
               key nb ∈ visited)
  ∧ (∀ p, key p ∈ visited →
          p = position unit ∨ p ∈ valid ∨ p ∈ node_position <$> queue)
  ∧ (∀ n, n ∈ queue →
          curCost n = 0 → node_position n = position unit).

(** The unit that the pushed target runs into, if any: the first unit other
    than the target on the first cell of the knockback path that holds a
    unit or a mountain. *)
Definition struckUnit (level : LevelData) (attacker target : Unit)
    (prev : list Unit) : option Unit :=
  cp ← firstCollision level attacker target prev;
  snd <$> list_find (is_hit target cp) prev.

(** [u] comes from [u0] through a bash of [target]: the same id and team,
    no more HP, and stunned only when [u0] was stunned or [u] is the
    target. *)
Definition bashedFrom (target u0 u : Unit) : Prop :=
  id u0 = id u ∧ team u0 = team u ∧ hp u ≤ hp u0
  ∧ (isStunned u = true → isStunned u0 = true ∨ id u = id target).

(** A well-formed roster: no two units of one id, every unit alive, no
    player unit stunned. *)
Definition roster_ok (us : list Unit) : Prop :=
  unique_ids us
  ∧ Forall (λ u, 0 < hp u) us
  ∧ Forall (λ u, team u = player → isStunned u = false) us.

(** The cell is held by another unit than [foe]: [isBlocked] of the enemy's
    choice of a move. *)
Definition heldByOther (foe : Unit) (newUnits : list Unit) (pos : Position) : Prop :=
  Exists (λ u, at_cell pos u ∧ id u ≠ id foe) newUnits.

Global Instance heldByOther_dec foe newUnits pos :
  Decision (heldByOther foe newUnits pos).
Proof. unfold heldByOther. apply _. Defined.

(** How far a cell is from the distance a foe likes to keep: its attack
    range. *)
Definition offRange (playerUnit foe : Unit) (pos : Position) : Z :=
  Z.abs (manhattan pos (position playerUnit) - attackRange foe).

(** The Forest Ambush with a single archer left, the hero next to it and
    about to strike. *)
Definition ambushLastArcher : Board :=
  mkBoard [ hero (mkPosition 5 2); archer "skel3" (mkPosition 5 1) ]
          (Some "hero") [] player true [mkPosition 5 1] attack playing.

(** The Mountain Pass with two shieldbearers stunned next to the hero. *)
Definition passStunned : list Unit :=
  [ hero (mkPosition 4 8);
    with_stunned (shieldbearer "sb3" "Undead Shieldbearer" 50 (mkPosition 4 7)) true;
    with_stunned (shieldbearer "sb4" "Undead Shieldbearer" 50 (mkPosition 5 8)) true ].

(** ** A game on the board *)

(** The roster holds a unit of the team. *)
Definition hasTeam (t : Turn) (us : list Unit) : Prop :=
  Exists (λ u, team u = t) us.

Global Instance hasTeam_dec t us : Decision (hasTeam t us).
Proof. unfold hasTeam. apply _. Defined.







(** * The application shell (src/App.tsx) *)

Definition GAME_VERSION : string := "1.2.0".

Definition SAFE_SPAWN_DISTANCE : Z := 5.

(** The fields of [LevelData] that the overworld reads, beside the level. *)
Record LevelEntry := mkLevelEntry {
  entryLevel : LevelData;
  unlocksId : option Z;
  overworldPosition : Position
}.

Definition LEVELS : list LevelEntry :=
  [ mkLevelEntry forestAmbush (Some 2) (mkPosition 13 18);
    mkLevelEntry mountainPass (Some 3) (mkPosition 15 11);
    mkLevelEntry crossfire None (mkPosition 11 4) ].

Definition calculateDistance (pos1 pos2 : Position) : Z :=
  Z.abs (x pos1 - x pos2) + Z.abs (y pos1 - y pos2).

Definition isPositionSafe (pos : Position) (levels : list LevelEntry) : bool :=
  forallb
    (λ level,
       let distance := calculateDistance pos (overworldPosition level) in
       SAFE_SPAWN_DISTANCE <=? distance)
    levels.

(** The positions pushed for one radius, in the order of the two inner
    loops. *)
Definition ringPositions (currentPos : Position) (radius : Z) : list Position :=
  flat_map
    (λ dx, [ mkPosition (x currentPos + dx) (y currentPos - radius);
             mkPosition (x currentPos + dx) (y currentPos + radius) ])
    (seqZ (- radius) (2 * radius + 1))
  ++ flat_map
       (λ dy, [ mkPosition (x currentPos - radius) (y currentPos + dy);
                mkPosition (x currentPos + radius) (y currentPos + dy) ])
       (seqZ (- radius + 1) (2 * radius - 1)).

(** The loop over the radii, leaving at the first safe position. *)
Fixpoint searchRings (currentPos : Position) (levels : list LevelEntry)
    (radii : list Z) : option Position :=
  match radii with
  | [] => None
  | radius :: radii' =>
      match list_find (λ pos, isPositionSafe pos levels = true)
                      (ringPositions currentPos radius) with
      | Some (_, pos) => Some pos
      | None => searchRings currentPos levels radii'
      end
  end.

Definition findSafePosition (currentPos : Position) (levels : list LevelEntry)
    : Position :=
  let maxRadius := 10 in
  default (mkPosition 5 5) (searchRings currentPos levels (seqZ 1 maxRadius)).

(** ** The save in [localStorage] *)

Record SaveData := mkSaveData {
  saved_unlockedLevels : list Z;
  saved_overworldPos : Position;
  saved_currentLevelId : Z
}.

(** The text under the save key: the JSON text of a save, modelled by the
    save that [JSON.parse] gives back, or a text that is empty or that
    [JSON.parse] rejects. *)
Inductive SaveText := jsonOf (data : SaveData) | unparsable.

(** The two items of [localStorage] that the game keeps: the version and the
    save. *)
Record LocalStorage := mkLocalStorage {
  versionItem : option string;
  saveItem : option SaveText
}.

(** Truthiness of the result of [getItem]. *)
Definition present (item : option string) : bool :=
  match item with
  | Some text => bool_decide (text ≠ EmptyString)
  | None => false
  end.

Definition saveGame (data : SaveData) (store : LocalStorage) : LocalStorage :=
  let store1 :=
    if negb (present (versionItem store))
    then mkLocalStorage (Some GAME_VERSION) (saveItem store) else store in
  mkLocalStorage (versionItem store1) (Some (jsonOf data)).

(** [loadGame]: what it returns ([None] is [null]) and the storage it
    leaves. *)
Definition loadGame (store : LocalStorage) : option SaveData * LocalStorage :=
  let savedVersion := versionItem store in
  if present savedVersion && bool_decide (savedVersion ≠ Some GAME_VERSION)
  then (None, mkLocalStorage (Some GAME_VERSION) None)
  else
    match saveItem store with
    | Some (jsonOf data) =>
        if decide (3 ≤ length (saved_unlockedLevels data))%nat
        then (None, mkLocalStorage (Some GAME_VERSION) None)
        else (Some data, store)
    | Some unparsable => (None, store)
    | None => (None, store)
    end.

(** ** The state of [App] and its handlers *)

Inductive View := overworld | game.

Global Instance View_eq_dec : EqDecision View.
Proof. solve_decision. Defined.

(** The [useState] cells of [App] that the progression reads and writes,
    and the storage. *)
Record App := mkApp {
  currentView : View;
  unlockedLevels : list Z;
  currentLevelId : Z;
  overworldPos : Position;
  retryKey : Z;
  localStorage : LocalStorage
}.

Definition initialApp (store : LocalStorage) : App :=
  mkApp overworld [1] 1 (mkPosition 11 20) 0 store.

(** The "Load saved game state on component mount" effect, without the
    volume. *)
Definition loadOnMount (app : App) : App :=
  let loaded := loadGame (localStorage app) in
  match loaded.1 with
  | Some savedGame =>
      let loadedPos := saved_overworldPos savedGame in
      if negb (isPositionSafe loadedPos LEVELS) then
        let safePos := findSafePosition loadedPos LEVELS in
        mkApp (currentView app) (saved_unlockedLevels savedGame)
              (saved_currentLevelId savedGame) safePos (retryKey app)
              (saveGame (mkSaveData (saved_unlockedLevels savedGame) safePos
                                    (saved_currentLevelId savedGame))
                        loaded.2)
      else
        mkApp (currentView app) (saved_unlockedLevels savedGame)
              (saved_currentLevelId savedGame) loadedPos (retryKey app)
              loaded.2
  | None =>
      mkApp (currentView app) (unlockedLevels app) (currentLevelId app)
            (overworldPos app) (retryKey app) loaded.2
  end.

(** The updater that [handleWin], [handleLose] and [handleExit] pass to
    [setOverworldPos] (three copies of one text): the new position, and the
    storage after the save it makes.  The save takes [unlockedLevels] and
    [currentLevelId] from the render that made the handler. *)
Definition offsetHero (app : App) (prev : Position) (store : LocalStorage)
    : Position * LocalStorage :=
  let newPos := mkPosition (x prev) (y prev + 1) in
  if negb (isPositionSafe newPos LEVELS) then
    let safePos := findSafePosition newPos LEVELS in
    (safePos,
     saveGame (mkSaveData (unlockedLevels app) safePos (currentLevelId app)) store)
  else
    (newPos,
     saveGame (mkSaveData (unlockedLevels app) newPos (currentLevelId app)) store).

(** [currentLevel?.unlocksId] as a condition: a number other than 0. *)
Definition unlockedBy (currentLevel : option LevelEntry) : option Z :=
  match currentLevel ≫= unlocksId with
  | Some n => if decide (n = 0) then None else Some n
  | None => None
  end.

(** [handleWin]: the updaters run in the order the handler queues them, the
    one of [setUnlockedLevels] before the one of [setOverworldPos]. *)
Definition handleWin (app : App) : App :=
  let currentLevel :=
    snd <$> list_find (λ l, levelId (entryLevel l) = currentLevelId app) LEVELS in
  let unlocked :=
    match unlockedBy currentLevel with
    | Some n =>
        if decide (n ∉ unlockedLevels app) then
          let newUnlocked := unlockedLevels app ++ [n] in
          (newUnlocked,
           saveGame (mkSaveData newUnlocked (overworldPos app) (currentLevelId app))
                    (localStorage app))
        else (unlockedLevels app, localStorage app)
    | None => (unlockedLevels app, localStorage app)
    end in
  let moved := offsetHero app (overworldPos app) unlocked.2 in
  let levelId' :=
    match unlockedBy currentLevel with
    | Some n => n
    | None => currentLevelId app
    end in
  mkApp overworld unlocked.1 levelId' moved.1 (retryKey app) moved.2.

Definition handleLose (app : App) : App :=
  let moved := offsetHero app (overworldPos app) (localStorage app) in
  mkApp overworld (unlockedLevels app) (currentLevelId app) moved.1
        (retryKey app) moved.2.

Definition handleExit (app : App) : App :=
  let moved := offsetHero app (overworldPos app) (localStorage app) in
  mkApp overworld (unlockedLevels app) (currentLevelId app) moved.1
        (retryKey app) moved.2.

Definition handleRetry (app : App) : App :=
  mkApp game (unlockedLevels app) (currentLevelId app) (overworldPos app)
        (retryKey app + 1) (localStorage app).

Definition handleSelectLevel (app : App) (chosen : Z) : App :=
  mkApp game (unlockedLevels app) chosen (overworldPos app) (retryKey app)
        (localStorage app).

(** The [onMove] that [App] hands to [Overworld]. *)
Definition onMove (app : App) (newPos : Position) : App :=
  mkApp (currentView app) (unlockedLevels app) (currentLevelId app) newPos
        (retryKey app)
        (saveGame (mkSaveData (unlockedLevels app) newPos (currentLevelId app))
                  (localStorage app)).

(** * The overworld (src/components/Overworld.tsx) *)

Definition WORLD_SIZE : Z := 22.

(** [handleKeyDown]: the position handed to [onMove], [None] when the
    handler returns before the call. *)
Definition handleKeyDown (heroPos : Position) (repeated : bool)
    (keyName : string) : option Position :=
  if repeated then None
  else if decide (keyName = "ArrowUp" ∨ keyName = "w")
  then Some (mkPosition (x heroPos) (Z.max 0 (y heroPos - 1)))
  else if decide (keyName = "ArrowDown" ∨ keyName = "s")
  then Some (mkPosition (x heroPos) (Z.min (WORLD_SIZE - 1) (y heroPos + 1)))
  else if decide (keyName = "ArrowLeft" ∨ keyName = "a")
  then Some (mkPosition (Z.max 0 (x heroPos - 1)) (y heroPos))
  else if decide (keyName = "ArrowRight" ∨ keyName = "d")
  then Some (mkPosition (Z.min (WORLD_SIZE - 1) (x heroPos + 1)) (y heroPos))
  else None.

(** [levelAtPos] of the "Check for level entry" effect. *)
Definition levelAtPos (levels : list LevelEntry) (unlocked : list Z)
    (heroPos : Position) : option LevelEntry :=
  snd <$> list_find
            (λ l, x (overworldPosition l) = x heroPos
                  ∧ y (overworldPosition l) = y heroPos
                  ∧ levelId (entryLevel l) ∈ unlocked)
            levels.

(** ** A session: [App] with the component it shows *)

(** A key press while the overworld is shown. *)
Definition keyDown (app : App) (repeated : bool) (keyName : string) : App :=
  match handleKeyDown (overworldPos app) repeated keyName with
  | Some next => onMove app next
  | None => app
  end.

(** The level-entry effect of the overworld, its timer run to the end. *)
Definition enterLevel (app : App) : App :=
  match levelAtPos LEVELS (unlockedLevels app) (overworldPos app) with
  | Some l => handleSelectLevel app (levelId (entryLevel l))
  | None => app
  end.

(** What a session can do next: the overworld is mounted in the overworld
    view, the board and its four callbacks in the game view. *)
Inductive appStep : App → App → Prop :=
  | step_key app repeated keyName :
      currentView app = overworld → appStep app (keyDown app repeated keyName)
  | step_enter app :
      currentView app = overworld → appStep app (enterLevel app)
  | step_win app : currentView app = game → appStep app (handleWin app)
  | step_lose app : currentView app = game → appStep app (handleLose app)
  | step_exit app : currentView app = game → appStep app (handleExit app)
  | step_retry app : currentView app = game → appStep app (handleRetry app).

(** Notions used by the properties of the shell. *)

Definition inWorld (pos : Position) : Prop :=
  0 ≤ x pos < WORLD_SIZE ∧ 0 ≤ y pos < WORLD_SIZE.

(** The radius of the square ring around [a] on which [b] lies. *)
Definition ringOf (a b : Position) : Z :=
  Z.max (Z.abs (x b - x a)) (Z.abs (y b - y a)).

(** The version item lets [loadGame] read the save: it is absent, empty or
    the version of the game. *)
Definition versionAccepted (store : LocalStorage) : Prop :=
  present (versionItem store) = false ∨ versionItem store = Some GAME_VERSION.

(** Levels unlock in order. *)
Definition unlockedInOrder (unlocked : list Z) : Prop :=
  unlocked = [1] ∨ unlocked = [1; 2] ∨ unlocked = [1; 2; 3].

(** The progression is sound: the levels are unlocked in order, and the
    board is shown for an unlocked level only. *)
Definition progress_ok (app : App) : Prop :=
  unlockedInOrder (unlockedLevels app)
  ∧ (currentView app = game → currentLevelId app ∈ unlockedLevels app).

(** The save, when the storage holds one, lists levels unlocked in order. *)
Definition saveInOrder (store : LocalStorage) : Prop :=
  match saveItem store with
  | Some (jsonOf data) => unlockedInOrder (saved_unlockedLevels data)
  | _ => True
  end.

(** A storage with no item. *)
Definition emptyStorage : LocalStorage := mkLocalStorage None None.

(** Key presses, none of them a repeat, from left to right. *)
Definition pressKeys (app : App) (keys : list string) : App :=
  foldl (λ a k, keyDown a false k) app keys.

(** * Properties *)

(** ** Rosters with unique ids *)


Lemma unique_ids_lookup_inj (l : list Unit) (i j : nat) (u v : Unit) :
  unique_ids l → l !! i = Some u → l !! j = Some v → id u = id v → i = j.
Proof.
  intros Hnd Hi Hj Heq.
  eapply NoDup_lookup; [exact Hnd | |].
  - rewrite list_lookup_fmap, Hi. reflexivity.
  - rewrite list_lookup_fmap, Hj. simpl. by rewrite Heq.
Qed.

Lemma unique_ids_elem_inj (l : list Unit) (u v : Unit) :
  unique_ids l → u ∈ l → v ∈ l → id u = id v → u = v.
Proof.
  intros Hnd [i Hi]%list_elem_of_lookup [j Hj]%list_elem_of_lookup Heq.
  assert (i = j) by eauto using unique_ids_lookup_inj. congruence.
Qed.

(** [updatedUnits[i] = u'] rewrites the entry of that id. *)
Lemma insert_by_id (l : list Unit) (i : nat) (t t' : Unit) :
  unique_ids l → l !! i = Some t →
  <[i := t']> l = (λ u, if decide (id u = id t) then t' else u) <$> l.
Proof.
  intros Hnd Hi. apply list_eq. intros j.
  rewrite list_lookup_fmap.
  destruct (decide (i = j)) as [<- | Hne].
  - rewrite list_lookup_insert_eq by eauto using lookup_lt_Some.
    rewrite Hi. simpl. by rewrite decide_True.
  - rewrite list_lookup_insert_ne by done.
    destruct (l !! j) as [v|] eqn:Hj; simpl; [|done].
    rewrite decide_False; [done|].
    intros Heq. apply Hne. eauto using unique_ids_lookup_inj.
Qed.

(** [updatedUnits.splice(i, 1)] drops the entry of that id. *)
Lemma elem_of_delete_by_id (l : list Unit) (i : nat) (t u : Unit) :
  unique_ids l → l !! i = Some t →
  u ∈ delete i l ↔ u ∈ l ∧ id u ≠ id t.
Proof.
  intros Hnd Hi. rewrite !list_elem_of_lookup. split.
  - intros [j Hj]. destruct (decide (j < i)%nat) as [Hlt|Hge].
    + rewrite list_lookup_delete_lt in Hj by done. split; [eauto|].
      intros Heq. assert (j = i) by eauto using unique_ids_lookup_inj. lia.
    + rewrite list_lookup_delete_ge in Hj by lia. split; [eauto|].
      intros Heq. assert (S j = i) by eauto using unique_ids_lookup_inj. lia.
  - intros [[j Hj] Hne].
    assert (j ≠ i) by (intros ->; congruence).
    destruct (decide (j < i)%nat) as [Hlt|Hge].
    + exists j. by rewrite list_lookup_delete_lt.
    + exists (pred j). rewrite list_lookup_delete_ge by lia.
      by replace (S (pred j)) with j by lia.
Qed.

Lemma elem_of_insert_by_id (l : list Unit) (i : nat) (t t' u : Unit) :
  unique_ids l → l !! i = Some t →
  u ∈ <[i := t']> l ↔ u = t' ∨ (u ∈ l ∧ id u ≠ id t).
Proof.
  intros Hnd Hi. rewrite (insert_by_id l i t t') by done.
  rewrite list_elem_of_fmap. split.
  - intros (v & -> & Hv). case_decide; [by left | by right].
  - intros [-> | [Hu Hne]].
    + exists t. rewrite decide_True by done.
      eauto using list_elem_of_lookup_2.
    + exists u. by rewrite decide_False.
Qed.

Lemma unique_ids_insert (l : list Unit) (i : nat) (t t' : Unit) :
  unique_ids l → l !! i = Some t → id t' = id t → unique_ids (<[i := t']> l).
Proof.
  intros Hnd Hi Hid. unfold unique_ids.
  rewrite list_fmap_insert, Hid. rewrite list_insert_id; [done|].
  by rewrite list_lookup_fmap, Hi.
Qed.

Lemma unique_ids_delete (l : list Unit) (i : nat) :
  unique_ids l → unique_ids (delete i l).
Proof.
  unfold unique_ids. intros Hnd.
  eapply sublist_NoDup; [exact Hnd|]. apply fmap_sublist, sublist_delete.
Qed.

Lemma unique_ids_alive (l : list Unit) : unique_ids l → unique_ids (alive l).
Proof.
  unfold unique_ids, alive. intros Hnd.
  eapply sublist_NoDup; [exact Hnd|]. apply fmap_sublist, sublist_filter.
Qed.

Lemma elem_of_alive (l : list Unit) (u : Unit) : u ∈ alive l ↔ 0 < hp u ∧ u ∈ l.
Proof. unfold alive. apply (list_elem_of_filter (λ v, 0 < hp v)). Qed.

(** [findIndex(u => u.id === target.id)] finds the target itself in a
    roster with unique ids. *)
Lemma find_target (l : list Unit) (target : Unit) :
  unique_ids l → target ∈ l →
  ∃ ti, list_find (λ u, id u = id target) l = Some (ti, target)
        ∧ l !! ti = Some target.
Proof.
  intros Hnd Hin.
  destruct (list_find_elem_of (λ u, id u = id target) l target Hin eq_refl)
    as [[ti tu] Hf].
  pose proof Hf as (Hl & Hid & _)%list_find_Some.
  assert (tu = target) as ->
    by eauto using unique_ids_elem_inj, list_elem_of_lookup_2.
  eauto.
Qed.

(** ** The shield bash *)


Lemma position_eta (p q : Position) : x p = x q → y p = y q → p = q.
Proof. destruct p, q; simpl; congruence. Qed.

Lemma bash_collision_unfold (level : LevelData) (attacker target : Unit)
    (prev : list Unit) (ti : nat) (cp : Position) :
  list_find (λ u, id u = id target) prev = Some (ti, target) →
  0 < hp target →
  outOfBounds (gridSize level) (pushPosition attacker target) = false →
  firstCollision level attacker target prev = Some cp →
  executeShieldBash level attacker target prev =
    let r := resolveCollision level target
               (x (position target) - x (position attacker))
               (y (position target) - y (position attacker))
               ti target cp prev in
    (alive r.1, r.2).
Proof.
  intros Hfind Hhp Hin Hcp. unfold executeShieldBash.
  rewrite Hfind. rewrite decide_False by lia.
  fold (pushPosition attacker target). rewrite Hin.
  fold (firstCollision level attacker target prev). rewrite Hcp.
  simpl. by destruct (resolveCollision _ _ _ _ _ _ _ _).
Qed.

(** A collision cell without a mountain holds another unit. *)
Lemma unit_collision_hit (level : LevelData) (attacker target : Unit)
    (prev : list Unit) (cp : Position) :
  firstCollision level attacker target prev = Some cp →
  mapSetup level (x cp) (y cp) ≠ mountain →
  ∃ hi hu, list_find (is_hit target cp) prev = Some (hi, hu).
Proof.
  unfold firstCollision. intros Hcp Hnm.
  apply fmap_Some in Hcp as ([j q] & Hfind & ->).
  apply list_find_Some in Hfind as (_ & [Hex | Hm] & _); [|done].
  apply Exists_exists in Hex as (u & Hu & Hne & Hat).
  destruct (list_find_elem_of (is_hit target q) prev u Hu) as [[hi hu] Hf];
    [by split | eauto].
Qed.

Lemma stunned_at_id (u : Unit) (p : Position) : id (stunned_at u p) = id u.
Proof. done. Qed.

Lemma pushed_to_id (u : Unit) (p : Position) : id (pushed_to u p) = id u.
Proof. done. Qed.

(** The roster after the pushed unit took the struck cell and the struck
    unit was spliced out. *)
Lemma elem_of_swap_delete (prev : list Unit) (ti hi : nat)
    (target hu t' u : Unit) :
  unique_ids prev → prev !! ti = Some target → prev !! hi = Some hu →
  id hu ≠ id target → id t' = id target →
  u ∈ delete hi (<[ti := t']> prev) ↔
    u = t' ∨ (u ∈ prev ∧ id u ≠ id target ∧ id u ≠ id hu).
Proof.
  intros Hids Hti Hhi Hne Hid.
  assert (ti ≠ hi) by (intros ->; congruence).
  rewrite (elem_of_delete_by_id _ hi hu)
    by (eauto using unique_ids_insert; by rewrite list_lookup_insert_ne).
  rewrite (elem_of_insert_by_id prev ti target) by done.
  naive_solver congruence.
Qed.

(** The roster after the pushed unit took the struck cell and the struck
    unit was rewritten in place. *)
Lemma elem_of_swap_insert (prev : list Unit) (ti hi : nat)
    (target hu t' h' u : Unit) :
  unique_ids prev → prev !! ti = Some target → prev !! hi = Some hu →
  id hu ≠ id target → id t' = id target →
  u ∈ <[hi := h']> (<[ti := t']> prev) ↔
    u = t' ∨ u = h' ∨ (u ∈ prev ∧ id u ≠ id target ∧ id u ≠ id hu).
Proof.
  intros Hids Hti Hhi Hne Hid.
  assert (ti ≠ hi) by (intros ->; congruence).
  rewrite (elem_of_insert_by_id _ hi hu)
    by (eauto using unique_ids_insert; by rewrite list_lookup_insert_ne).
  rewrite (elem_of_insert_by_id prev ti target) by done.
  naive_solver congruence.
Qed.

Lemma knockback_path_steps (attacker target : Unit) :
  let dx := x (position target) - x (position attacker) in
  let dy := y (position target) - y (position attacker) in
  getKnockbackPath (position target) (pushPosition attacker target) =
    [ mkPosition (x (position target) + Z.sgn dx * 1)
                 (y (position target) + Z.sgn dy * 1);
      mkPosition (x (position target) + Z.sgn dx * 2)
                 (y (position target) + Z.sgn dy * 2) ].
Proof.
  intros dx dy. unfold getKnockbackPath, pushPosition. simpl.
  assert (∀ a d, Z.sgn (a + d * 2 - a) = Z.sgn d) as Hs by (intros; lia).
  by rewrite !Hs.
Qed.

(** C2, as stated, fails on the code: [sb1] at (4,8) is bashed downwards,
    step 1 of its path holds [sb2] and step 2 is out of bounds; [sb1] is
    removed as out of bounds, [sb2] is untouched and the turn is not ended
    by a stun. *)
Lemma bounds_checked_before_path :
  let target := shieldbearer "sb1" "Shieldbearer" 8 (mkPosition 4 8) in
  let attacker := hero (mkPosition 4 7) in
  getKnockbackPath (position target) (pushPosition attacker target)
    = [mkPosition 4 9; mkPosition 4 10]
  ∧ firstCollision borderLevel attacker target (levelUnits borderLevel)
    = Some (mkPosition 4 9)
  ∧ outOfBounds (gridSize borderLevel) (mkPosition 4 10) = true
  ∧ executeShieldBash borderLevel attacker target (levelUnits borderLevel)
    = ([ hero (mkPosition 4 7);
         shieldbearer "sb2" "Shieldbearer" 8 (mkPosition 4 9) ],
       false).
Proof. repeat split; vm_compute; reflexivity. Qed.

(** C2, amended.  The destination of the push is checked against the
    bounds first: out of bounds, the target is removed whatever the path
    holds.  Otherwise the outcome is that of the first cell of the path,
    step 1 then step 2, that holds a mountain or another unit, and that of
    the free path when neither does. *)
Theorem bash_scan_order (level : LevelData) (attacker target : Unit)
    (prev : list Unit) :
  unique_ids prev → target ∈ prev → 0 < hp target →
  let dx := x (position target) - x (position attacker) in
  let dy := y (position target) - y (position attacker) in
  let step i :=
    mkPosition (x (position target) + Z.sgn dx * i)
               (y (position target) + Z.sgn dy * i) in
  let pushPos := pushPosition attacker target in
  let result := executeShieldBash level attacker target prev in
  ∃ ti, prev !! ti = Some target ∧
    let collision cp :=
      let r := resolveCollision level target dx dy ti target cp prev in
      (alive r.1, r.2) in
    let free :=
      let r := resolveFreePath level ti target pushPos prev in
      (alive r.1, r.2) in
    (outOfBounds (gridSize level) pushPos = true →
       result = (alive (delete ti prev), false))
    ∧ (outOfBounds (gridSize level) pushPos = false →
         (collides level target prev (step 1) → result = collision (step 1))
         ∧ (¬ collides level target prev (step 1) →
            collides level target prev (step 2) → result = collision (step 2))
         ∧ (¬ collides level target prev (step 1) →
            ¬ collides level target prev (step 2) → result = free)).
Proof.
  intros Hids Htgt Hhp dx dy step pushPos result.
  destruct (find_target prev target Hids Htgt) as (ti & Hfind & Hti).
  exists ti. split; [done|]. intros collision free.
  subst result. unfold executeShieldBash.
  rewrite Hfind. rewrite decide_False by lia.
  fold (pushPosition attacker target). fold pushPos.
  split; intros Hoob; rewrite Hoob; [done|].
  unfold pushPos. rewrite knockback_path_steps. fold dx dy.
  change (mkPosition (x (position target) + Z.sgn dx * 1) _) with (step 1).
  change (mkPosition (x (position target) + Z.sgn dx * 2) _) with (step 2).
  cbn [list_find].
  split_and!.
  - intros H1. by rewrite decide_True.
  - intros H1 H2. rewrite decide_False by done. by rewrite decide_True.
  - intros H1 H2. by rewrite !decide_False.
Qed.

Lemma bash_scan_order_witness :
  let level := borderLevel in
  let attacker := hero (mkPosition 4 7) in
  let target := shieldbearer "sb1" "Shieldbearer" 8 (mkPosition 4 8) in
  let prev := levelUnits borderLevel in
  let dx := x (position target) - x (position attacker) in
  let dy := y (position target) - y (position attacker) in
  let step i :=
    mkPosition (x (position target) + Z.sgn dx * i)
               (y (position target) + Z.sgn dy * i) in
  let pushPos := pushPosition attacker target in
  let result := executeShieldBash level attacker target prev in
  ∃ ti, prev !! ti = Some target ∧
    let collision cp :=
      let r := resolveCollision level target dx dy ti target cp prev in
      (alive r.1, r.2) in
    let free :=
      let r := resolveFreePath level ti target pushPos prev in
      (alive r.1, r.2) in
    (outOfBounds (gridSize level) pushPos = true →
       result = (alive (delete ti prev), false))
    ∧ (outOfBounds (gridSize level) pushPos = false →
         (collides level target prev (step 1) → result = collision (step 1))
         ∧ (¬ collides level target prev (step 1) →
            collides level target prev (step 2) → result = collision (step 2))
         ∧ (¬ collides level target prev (step 1) →
            ¬ collides level target prev (step 2) → result = free)).
Proof.
  intros level attacker target prev.
  apply (bash_scan_order level attacker target prev).
  - apply (bool_decide_unpack _). vm_compute. exact I.
  - apply (bool_decide_unpack _). vm_compute. exact I.
  - reflexivity.
Defined.

(** C1, as stated, fails on the code: an archer pushed into a shieldbearer
    stays in the roster, on the struck cell, with 3 of its 4 HP and the stun;
    the shieldbearer is the one that is removed. *)
Lemma archer_into_shieldbearer_keeps_archer :
  firstCollision crossfire (hero (mkPosition 1 1))
    (archer "archer1" (mkPosition 2 1)) crossfireRow1 = Some (mkPosition 3 1)
  ∧ executeShieldBash crossfire (hero (mkPosition 1 1))
      (archer "archer1" (mkPosition 2 1)) crossfireRow1
    = ([ hero (mkPosition 1 1);
         mkUnit "archer1" "Archer" (mkPosition 3 1) 3 4 2 2 4 enemy BOW (Some true);
         archer "archer2" (mkPosition 8 1) ],
       true).
Proof. split; vm_compute; reflexivity. Qed.

(** C1, amended.  When the first obstacle on the knockback path is a cell
    that holds another unit, and the pushed unit and the struck unit are a
    shieldbearer and an archer, in either order, the pushed unit takes the
    struck cell with one HP less and the stun, and the turn ends.  The
    struck unit leaves the roster with no knockback, unless the struck cell
    is a mountain: then the struck unit is left as it is.  Everybody else is
    untouched; as everywhere, the roster keeps the units with positive HP
    only. *)
Theorem special_pair_collision (level : LevelData) (attacker target : Unit)
    (prev : list Unit) (cp : Position) (hi : nat) (hu : Unit) :
  unique_ids prev → target ∈ prev → 0 < hp target →
  outOfBounds (gridSize level) (pushPosition attacker target) = false →
  firstCollision level attacker target prev = Some cp →
  list_find (is_hit target cp) prev = Some (hi, hu) →
  (emoji target = SHIELD ∧ emoji hu = BOW)
  ∨ (emoji hu = SHIELD ∧ emoji target = BOW) →
  let result := executeShieldBash level attacker target prev in
  let pushed :=
    mkUnit (id target) (name target) cp (hp target - 1) (maxHp target)
           (moveRange target) (attackRange target) (damage target)
           (team target) (emoji target) (Some true) in
  let onMountain := mapSetup level (x cp) (y cp) = mountain in
  result.2 = true ∧ position hu = cp ∧
  ∀ u, u ∈ result.1 ↔
    0 < hp u ∧
    (u = pushed
     ∨ (u ∈ prev ∧ id u ≠ id target ∧ (id u ≠ id hu ∨ onMountain))).
Proof.
  intros Hids Htgt Hhp Hin Hcp Hhit Hpair result pushed onMountain.
  destruct (find_target prev target Hids Htgt) as (ti & Hfind & Hti).
  pose proof Hhit as (Hhi & [[Hx Hy] Hne] & _)%list_find_Some.
  assert (position hu = cp) as Hpos by eauto using position_eta.
  subst result.
  rewrite (bash_collision_unfold level attacker target prev ti cp) by done.
  unfold resolveCollision.
  destruct (decide (mapSetup level (x cp) (y cp) = mountain)) as [Hm|Hnm].
  { simpl. split_and!; [done..|]. intros u.
    rewrite elem_of_alive, (elem_of_insert_by_id prev ti target) by done.
    unfold stunned_at, with_stunned, with_position, with_hp. simpl.
    fold pushed. unfold onMountain. naive_solver. }
  rewrite Hhit, Hpos.
  assert (stunned_at target cp = pushed) as Hpushed by done.
  destruct (decide (emoji target = SHIELD ∧ emoji hu = BOW)) as [?|Hn1].
  - simpl. split_and!; [done..|]. intros u.
    rewrite elem_of_alive, (elem_of_swap_delete prev ti hi target hu) by done.
    rewrite Hpushed. unfold onMountain. naive_solver.
  - rewrite decide_True by naive_solver.
    simpl. split_and!; [done..|]. intros u.
    rewrite elem_of_alive, (elem_of_swap_delete prev ti hi target hu) by done.
    rewrite Hpushed. unfold onMountain. naive_solver.
Qed.

Lemma special_pair_collision_witness :
  let level := crossfire in
  let attacker := hero (mkPosition 1 3) in
  let target := shieldbearer "sb1" "Shieldbearer" 8 (mkPosition 2 3) in
  let hu := archer "archer1" (mkPosition 3 3) in
  let cp := mkPosition 3 3 in
  let result := executeShieldBash level attacker target crossfireRow2 in
  let pushed :=
    mkUnit "sb1" "Shieldbearer" cp 7 8 2 1 1 enemy SHIELD (Some true) in
  let onMountain := mapSetup level (x cp) (y cp) = mountain in
  result.2 = true ∧ position hu = cp ∧
  ∀ u, u ∈ result.1 ↔
    0 < hp u ∧
    (u = pushed
     ∨ (u ∈ crossfireRow2 ∧ id u ≠ id target ∧ (id u ≠ id hu ∨ onMountain))).
Proof.
  intros level attacker target hu cp.
  apply (special_pair_collision level attacker target crossfireRow2 cp 2%nat hu).
  - apply (bool_decide_unpack _). vm_compute. exact I.
  - apply (bool_decide_unpack _). vm_compute. exact I.
  - reflexivity.
  - reflexivity.
  - vm_compute. reflexivity.
  - vm_compute. reflexivity.
  - left. split; reflexivity.
Defined.

(** C5, as stated, fails on the code: [sb3] rests on the mountain of (4,5)
    after an earlier bash, and the hero bashes [sb4] into it.  The mountain
    is tested before the unit: [sb4] stops on (4,5) with 49 HP and the stun,
    and the struck [sb3] is neither knocked back nor hurt.  Both now stand
    on (4,5). *)
Lemma struck_unit_on_mountain_stays :
  let attacker := hero (mkPosition 4 7) in
  let target := shieldbearer "sb4" "Undead Shieldbearer" 50 (mkPosition 4 6) in
  let struck :=
    mkUnit "sb3" "Undead Shieldbearer" (mkPosition 4 5) 49 50 2 1 1 enemy
           SHIELD (Some false) in
  mapSetup mountainPass 4 5 = mountain
  ∧ firstCollision mountainPass attacker target passStacked
    = Some (mkPosition 4 5)
  ∧ list_find (is_hit target (mkPosition 4 5)) passStacked
    = Some (1%nat, struck)
  ∧ executeShieldBash mountainPass attacker target passStacked
    = ([ attacker; struck;
         mkUnit "sb4" "Undead Shieldbearer" (mkPosition 4 5) 49 50 2 1 1 enemy
                SHIELD (Some true) ],
       true).
Proof. repeat split; vm_compute; reflexivity. Qed.

(** C5, amended.  When the first obstacle on the knockback path is a cell
    that holds another unit, the two units being no shieldbearer-and-archer
    pair: the turn ends and the pushed unit takes the struck cell with one
    HP less and the stun.  Unless the struck cell is a mountain, the struck
    unit goes from the collision point by twice the offset from the
    attacker to the target (two cells for an adjacent attacker) with one HP
    less and its stun flag untouched, or leaves the roster when that cell is
    out of bounds or water.  On a mountain the struck unit is left as it
    is.  Everybody else is untouched; as everywhere, the roster keeps the
    units with positive HP only. *)
Theorem generic_collision_swap (level : LevelData) (attacker target : Unit)
    (prev : list Unit) (cp : Position) (hi : nat) (hu : Unit) :
  unique_ids prev → target ∈ prev → 0 < hp target →
  outOfBounds (gridSize level) (pushPosition attacker target) = false →
  firstCollision level attacker target prev = Some cp →
  list_find (is_hit target cp) prev = Some (hi, hu) →
  ¬ (emoji target = SHIELD ∧ emoji hu = BOW) →
  ¬ (emoji hu = SHIELD ∧ emoji target = BOW) →
  let dx := x (position target) - x (position attacker) in
  let dy := y (position target) - y (position attacker) in
  let dest := mkPosition (x cp + dx * 2) (y cp + dy * 2) in
  let eliminated :=
    outOfBounds (gridSize level) dest = true
    ∨ mapSetup level (x dest) (y dest) = water in
  let onMountain := mapSetup level (x cp) (y cp) = mountain in
  let pushed :=
    mkUnit (id target) (name target) cp (hp target - 1) (maxHp target)
           (moveRange target) (attackRange target) (damage target)
           (team target) (emoji target) (Some true) in
  let knocked :=
    mkUnit (id hu) (name hu) dest (hp hu - 1) (maxHp hu) (moveRange hu)
           (attackRange hu) (damage hu) (team hu) (emoji hu) (stunned hu) in
  let result := executeShieldBash level attacker target prev in
  result.2 = true ∧ position hu = cp ∧
  ∀ u, u ∈ result.1 ↔
    0 < hp u ∧
    (u = pushed
     ∨ (¬ onMountain ∧ ¬ eliminated ∧ u = knocked)
     ∨ (u ∈ prev ∧ id u ≠ id target ∧ (id u ≠ id hu ∨ onMountain))).
Proof.
  intros Hids Htgt Hhp Hin Hcp Hhit Hg1 Hg2 dx dy dest eliminated onMountain
         pushed knocked result.
  destruct (find_target prev target Hids Htgt) as (ti & Hfind & Hti).
  pose proof Hhit as (Hhi & [[Hx Hy] Hne] & _)%list_find_Some.
  assert (position hu = cp) as Hpos by eauto using position_eta.
  subst result.
  rewrite (bash_collision_unfold level attacker target prev ti cp) by done.
  unfold resolveCollision. fold dx dy.
  assert (stunned_at target cp = pushed) as Hpushed by done.
  assert (pushed_to hu dest = knocked) as Hknocked by done.
  destruct (decide (mapSetup level (x cp) (y cp) = mountain)) as [Hm|Hnm].
  { simpl. split_and!; [done..|]. intros u.
    rewrite elem_of_alive, (elem_of_insert_by_id prev ti target) by done.
    rewrite Hpushed. unfold onMountain. naive_solver. }
  rewrite Hhit.
  rewrite (decide_False (P := emoji target = SHIELD ∧ emoji hu = BOW)) by done.
  rewrite decide_False by done. rewrite Hpos. fold dest.
  rewrite Hpushed, Hknocked.
  destruct (outOfBounds (gridSize level) dest) eqn:Hoob; simpl.
  - split_and!; [done..|]. intros u.
    rewrite elem_of_alive, (elem_of_swap_delete prev ti hi target hu) by done.
    unfold onMountain, eliminated. naive_solver.
  - destruct (decide (mapSetup level (x dest) (y dest) = water)) as [Hw|Hw].
    + rewrite bool_decide_true by done. simpl.
      split_and!; [done..|]. intros u.
      rewrite elem_of_alive, (elem_of_swap_delete prev ti hi target hu) by done.
      unfold onMountain, eliminated. naive_solver.
    + rewrite bool_decide_false by done. simpl.
      split_and!; [done..|]. intros u.
      rewrite elem_of_alive, (elem_of_swap_insert prev ti hi target hu) by done.
      unfold onMountain, eliminated. naive_solver.
Qed.

Lemma generic_collision_swap_witness :
  let level := mountainPass in
  let attacker := hero (mkPosition 2 7) in
  let target := shieldbearer "sb3" "Undead Shieldbearer" 50 (mkPosition 3 7) in
  let hu := shieldbearer "sb4" "Undead Shieldbearer" 50 (mkPosition 4 7) in
  let cp := mkPosition 4 7 in
  let dest := mkPosition 6 7 in
  let eliminated :=
    outOfBounds (gridSize level) dest = true
    ∨ mapSetup level (x dest) (y dest) = water in
  let onMountain := mapSetup level (x cp) (y cp) = mountain in
  let pushed :=
    mkUnit "sb3" "Undead Shieldbearer" cp 49 50 2 1 1 enemy SHIELD (Some true) in
  let knocked :=
    mkUnit "sb4" "Undead Shieldbearer" dest 49 50 2 1 1 enemy SHIELD None in
  let result := executeShieldBash level attacker target passRow7 in
  result.2 = true ∧ position hu = cp ∧
  ∀ u, u ∈ result.1 ↔
    0 < hp u ∧
    (u = pushed
     ∨ (¬ onMountain ∧ ¬ eliminated ∧ u = knocked)
     ∨ (u ∈ passRow7 ∧ id u ≠ id target ∧ (id u ≠ id hu ∨ onMountain))).
Proof.
  intros level attacker target hu cp dest.
  apply (generic_collision_swap level attacker target passRow7 cp 2%nat hu).
  - apply (bool_decide_unpack _). vm_compute. exact I.
  - apply (bool_decide_unpack _). vm_compute. exact I.
  - reflexivity.
  - reflexivity.
  - vm_compute. reflexivity.
  - vm_compute. reflexivity.
  - intros [_ H]. vm_compute in H. discriminate.
  - intros [_ H]. vm_compute in H. discriminate.
Defined.

(** C4 at its failing input: [sb3] is bashed into [sb4], which is knocked
    two cells on, onto the cell of [sb1]; two units end on (6,7). *)
Lemma secondary_knockback_stacks_units :
  position <$>
    (executeShieldBash mountainPass (hero (mkPosition 2 7))
       (shieldbearer "sb3" "Undead Shieldbearer" 50 (mkPosition 3 7))
       passRow7Crowded).1
  = [mkPosition 2 7; mkPosition 4 7; mkPosition 6 7; mkPosition 6 7].
Proof. vm_compute. reflexivity. Qed.

(** ** The grid *)

Lemma outOfBounds_false (n : Z) (p : Position) :
  outOfBounds n p = false ↔ 0 ≤ x p < n ∧ 0 ≤ y p < n.
Proof. unfold outOfBounds. lia. Qed.

Lemma index_fmap_seqZ {A} (f : Z → A) (n i : Z) :
  0 ≤ i < n → index (f <$> seqZ 0 n) i = Some (f i).
Proof.
  intros Hi. unfold index. rewrite decide_True by lia.
  rewrite list_lookup_fmap, lookup_seqZ_lt by lia.
  simpl. f_equal. f_equal. lia.
Qed.

(** Inside the grid a tile read succeeds and gives the terrain of
    [mapSetup]. *)
Lemma tileAt_initGrid (level : LevelData) (us : list Unit) (cx cy : Z) :
  outOfBounds (gridSize level) (mkPosition cx cy) = false →
  ∃ t, tileAt (initGrid level us) cx cy = Some t
       ∧ terrain t = mapSetup level cx cy.
Proof.
  intros [Hx Hy]%outOfBounds_false. simpl in *.
  unfold tileAt, initGrid.
  rewrite index_fmap_seqZ by done. simpl.
  rewrite index_fmap_seqZ by done. eauto.
Qed.

Lemma index_fmap_seqZ_inv {A} (f : Z → A) (n i : Z) (v : A) :
  index (f <$> seqZ 0 n) i = Some v → 0 ≤ i < n ∧ v = f i.
Proof.
  unfold index. case_decide; [|done].
  rewrite list_lookup_fmap. intros (k & [-> Hk]%lookup_seqZ & ->)%fmap_Some.
  split; [lia|]. f_equal. lia.
Qed.

(** A tile that is read lies inside the grid; it carries its own cell and
    the first unit of the roster that stands on it. *)
Lemma tileAt_initGrid_inv (level : LevelData) (us : list Unit) (cx cy : Z)
    (t : TileData) :
  tileAt (initGrid level us) cx cy = Some t →
  outOfBounds (gridSize level) (mkPosition cx cy) = false
  ∧ tile_position t = mkPosition cx cy
  ∧ tile_unit t = snd <$> list_find (at_cell (mkPosition cx cy)) us.
Proof.
  unfold tileAt, initGrid. intros (row & Hrow & Ht)%bind_Some.
  apply index_fmap_seqZ_inv in Hrow as [Hy ->].
  apply index_fmap_seqZ_inv in Ht as [Hx ->].
  split; [by apply outOfBounds_false|done].
Qed.

Lemma size_list_to_set_le (l : list (Z * Z)) :
  (size (list_to_set l : gset (Z * Z)) ≤ length l)%nat.
Proof.
  induction l as [|a l IH].
  - rewrite list_to_set_nil, size_empty. simpl. lia.
  - rewrite list_to_set_cons, size_union_alt, size_singleton. simpl.
    pose proof (subseteq_size (list_to_set l ∖ {[a]}) (list_to_set l : gset (Z * Z))
                  ltac:(set_solver)).
    lia.
Qed.

Lemma size_cellKeys (n : Z) : (size (cellKeys n) ≤ Z.to_nat (n * n))%nat.
Proof.
  unfold cellKeys. etrans; [apply size_list_to_set_le|].
  rewrite length_prod, !length_seqZ. lia.
Qed.

Lemma elem_of_cellKeys (n : Z) (p : Position) :
  outOfBounds n p = false → key p ∈ cellKeys n.
Proof.
  intros [Hx Hy]%outOfBounds_false. unfold cellKeys, key.
  rewrite elem_of_list_to_set, list_elem_of_In, in_prod_iff, <- !list_elem_of_In.
  rewrite !elem_of_seqZ. lia.
Qed.

Lemma size_plannerKeys (n : Z) (start : Position) :
  (size (plannerKeys n start) ≤ S (Z.to_nat (n * n)))%nat.
Proof.
  unfold plannerKeys. rewrite size_union_alt, size_singleton.
  pose proof (size_cellKeys n).
  pose proof (subseteq_size (cellKeys n ∖ {[key start]}) (cellKeys n)
                ltac:(set_solver)).
  lia.
Qed.

Lemma key_inj (p q : Position) : key p = key q → p = q.
Proof. destruct p, q. unfold key. simpl. congruence. Qed.

(** ** The movement planner *)

Lemma entryCost_range (level : LevelData) (q : Position) :
  1 ≤ entryCost level q ≤ 2.
Proof. unfold entryCost. case_decide; lia. Qed.

Lemma stepCost_range (level : LevelData) (sof : bool) (current : Node)
    (q : Position) :
  entryCost level q ≤ stepCost level sof current q ≤ 2.
Proof.
  pose proof (entryCost_range level q). unfold stepCost.
  destruct (bool_decide _ && sof); lia.
Qed.

(** One neighbour is appended to the queue and marked visited when it is
    enterable, not yet visited and affordable; it is skipped otherwise. *)
Lemma visitNeighbor_cases (level : LevelData) (units gunits : list Unit)
    (unit : Unit) (sof : bool) (current : Node)
    (qv : list Node * gset (Z * Z)) (nb : Position) :
  ∃ qv',
    visitNeighbor (gridSize level) units unit (initGrid level gunits) sof
                  current qv nb = Some qv'
    ∧ ((¬ (enterable level units nb
           ∧ (key nb ∉ qv.2)
           ∧ curCost current + stepCost level sof current nb ≤ moveRange unit)
        ∧ qv' = qv)
       ∨ (enterable level units nb
          ∧ (key nb ∉ qv.2)
          ∧ curCost current + stepCost level sof current nb ≤ moveRange unit
          ∧ qv' = (qv.1 ++ [mkNode nb (curCost current
                                        + stepCost level sof current nb)],
                   {[key nb]} ∪ (qv.2)))).
Proof.
  unfold visitNeighbor.
  destruct (outOfBounds (gridSize level) nb) eqn:Hoob.
  { eexists. split; [done|]. left. split; [|done].
    intros [[? _] _]. congruence. }
  destruct (tileAt_initGrid level gunits (x nb) (y nb)) as (t & -> & Ht);
    [by destruct nb|].
  simpl. rewrite Ht.
  destruct (decide (mapSetup level (x nb) (y nb) = water)) as [Hw|Hw].
  { rewrite bool_decide_true by done. simpl.
    eexists. split; [done|]. left. split; [|done]. by intros [(_ & ? & _) _]. }
  rewrite (bool_decide_false _ Hw).
  destruct (decide (mapSetup level (x nb) (y nb) = mountain)) as [Hm|Hm].
  { rewrite bool_decide_true by done. simpl.
    eexists. split; [done|]. left. split; [|done].
    by intros [(_ & _ & ? & _) _]. }
  rewrite (bool_decide_false _ Hm).
  destruct (decide (Exists (at_cell nb) units)) as [Hb|Hb].
  { rewrite bool_decide_true by done. simpl.
    eexists. split; [done|]. left. split; [|done].
    by intros [(_ & _ & _ & ?) _]. }
  rewrite (bool_decide_false _ Hb). simpl.
  assert (enterable level units nb) as Hent by done.
  assert (∀ c, c = stepCost level sof current nb →
               ∃ qv', Some (enqueue unit current nb c qv) = Some qv'
                 ∧ ((¬ (enterable level units nb
                        ∧ (key nb ∉ qv.2)
                        ∧ curCost current + stepCost level sof current nb
                          ≤ moveRange unit)
                     ∧ qv' = qv)
                    ∨ (enterable level units nb
                       ∧ (key nb ∉ qv.2)
                       ∧ curCost current + stepCost level sof current nb
                         ≤ moveRange unit
                       ∧ qv' = (qv.1 ++ [mkNode nb
                                  (curCost current
                                   + stepCost level sof current nb)],
                                {[key nb]} ∪ (qv.2))))) as Henq.
  { intros c ->. eexists. split; [done|]. unfold enqueue.
    repeat case_decide; [left | right | left]; naive_solver. }
  unfold stepCost, entryCost in Henq |- *.
  destruct (bool_decide (curCost current = 0) && sof).
  - destruct (decide (moveRange unit = 2)); by apply Henq.
  - by apply Henq.
Qed.

Lemma new_node_ok (level : LevelData) (units : list Unit) (unit : Unit)
    (sof : bool) (current : Node) (nb : Position) (visited : gset (Z * Z)) :
  node_ok level units unit sof current →
  nb ∈ neighbors (node_position current) →
  enterable level units nb →
  key (position unit) ∈ visited → key nb ∉ visited →
  curCost current + stepCost level sof current nb ≤ moveRange unit →
  node_ok level units unit sof
    (mkNode nb (curCost current + stepCost level sof current nb)).
Proof.
  intros (Hnn & (e & Hreach & He) & Hpos) Hnb Hent Hstart Hfresh Hle.
  pose proof (stepCost_range level sof current nb) as Hsc.
  pose proof (entryCost_range level nb) as Hec.
  split_and!; simpl.
  - lia.
  - exists (e + entryCost level nb). split; [|lia].
    replace (stepCost level sof current nb)
      with (stepCost level sof (mkNode (node_position current) (curCost current))
                     nb) by by destruct current.
    by apply reach_step.
  - intros _. split_and!; [done | congruence | | done].
    unfold lowerBound, stepCost in *.
    destruct sof; [|rewrite andb_false_r; lia].
    case_bool_decide; simpl; [lia|].
    destruct Hpos as (_ & _ & ? & _); lia.
Qed.

(** The [forEach] over the neighbours of [current]. *)
Lemma expand_spec (level : LevelData) (units gunits : list Unit) (unit : Unit)
    (sof : bool) (current : Node) (ns : list Position)
    (qv : list Node * gset (Z * Z)) :
  node_ok level units unit sof current →
  (∀ nb, nb ∈ ns → nb ∈ neighbors (node_position current)) →
  Forall (node_ok level units unit sof) qv.1 →
  key (position unit) ∈ qv.2 →
  qv.2 ⊆ plannerKeys (gridSize level) (position unit) →
  ∃ qv',
    forEachM (visitNeighbor (gridSize level) units unit (initGrid level gunits)
                            sof current) ns qv = Some qv'
    ∧ Forall (node_ok level units unit sof) qv'.1
    ∧ key (position unit) ∈ qv'.2
    ∧ qv'.2 ⊆ plannerKeys (gridSize level) (position unit)
    ∧ (length qv'.1 + size qv.2 = length qv.1 + size qv'.2)%nat
    ∧ (∃ extra, qv'.1 = qv.1 ++ extra).
Proof.
  intros Hcur. revert qv.
  induction ns as [|nb ns IH]; intros qv Hns Hq Hs Hsub; simpl.
  { exists qv. split_and!; try done. exists []. by rewrite app_nil_r. }
  destruct (visitNeighbor_cases level units gunits unit sof current qv nb)
    as (qv1 & -> & Hcases). simpl.
  assert (∀ nb', nb' ∈ ns → nb' ∈ neighbors (node_position current)) as Hns'
    by (intros; apply Hns; by right).
  destruct Hcases as [[_ ->] | (Hent & Hfresh & Hle & ->)]; [by apply IH|].
  destruct (IH (qv.1 ++ [mkNode nb (curCost current
                                    + stepCost level sof current nb)],
                {[key nb]} ∪ qv.2)) as (qv' & Hrun & Hq' & Hs' & Hsub' & Hlen & extra & Hext);
    simpl; try done.
  - apply Forall_app. split; [done|]. apply Forall_singleton.
    eapply new_node_ok; eauto. apply Hns. by left.
  - set_solver.
  - apply union_subseteq. split; [|done].
    pose proof (elem_of_cellKeys _ _ (proj1 Hent)).
    unfold plannerKeys. set_solver.
  - exists qv'. simpl in *. split_and!; try done.
    + rewrite length_app in Hlen. simpl in Hlen.
      rewrite size_union, size_singleton in Hlen by set_solver. lia.
    + exists ([mkNode nb (curCost current + stepCost level sof current nb)]
              ++ extra).
      by rewrite Hext, app_assoc.
Qed.

(** The loop returns, every cell it returns is sound, and it returns every
    cell it ever queued. *)
Lemma bfsLoop_spec (level : LevelData) (units gunits : list Unit) (unit : Unit)
    (sof : bool) (fuel : nat) :
  ∀ (queue : list Node) (visited : gset (Z * Z)) (valid : list Position),
    Forall (node_ok level units unit sof) queue →
    key (position unit) ∈ visited →
    visited ⊆ plannerKeys (gridSize level) (position unit) →
    (length queue + size (plannerKeys (gridSize level) (position unit))
     ≤ fuel + size visited)%nat →
    Forall (cell_ok level units unit sof) valid →
    ∃ res,
      bfsLoop fuel (gridSize level) units unit (initGrid level gunits) sof
              queue visited valid = Some res
      ∧ Forall (cell_ok level units unit sof) res
      ∧ (∀ c, c ∈ valid → c ∈ res)
      ∧ (∀ node, node ∈ queue → curCost node > 0 → node_position node ∈ res).
Proof.
  induction fuel as [|fuel IH]; intros queue visited valid Hq Hs Hsub Hfuel Hv;
    destruct queue as [|current rest]; cbn [bfsLoop].
  - exists valid. split_and!; try done. intros ? []%elem_of_nil.
  - pose proof (subseteq_size _ _ Hsub). simpl in Hfuel. lia.
  - exists valid. split_and!; try done. intros ? []%elem_of_nil.
  - apply Forall_cons in Hq as [Hcur Hrest].
    destruct (expand_spec level units gunits unit sof current
                (neighbors (node_position current)) (rest, visited))
      as (qv' & -> & Hq' & Hs' & Hsub' & Hlen & extra & Hext);
      simpl in *; try done.
    set (valid' := if decide (curCost current > 0)
                   then valid ++ [node_position current] else valid).
    destruct (IH qv'.1 qv'.2 valid') as (res & Hrun & Hres & Hvalid & Hqueue);
      try done.
    + lia.
    + unfold valid'. case_decide; [|done].
      apply Forall_app. split; [done|]. apply Forall_singleton.
      destruct Hcur as (Hnn & (e & Hreach & He) & Hpos).
      destruct (Hpos ltac:(done)) as (? & ? & ? & ?).
      split_and!; [done..| exists e, (curCost current); split; [done|lia] | lia].
    + exists res. split_and!; try done.
      * intros c Hc. apply Hvalid. unfold valid'.
        case_decide; [apply elem_of_app; by left | done].
      * intros node [-> | Hin]%elem_of_cons Hpos.
        -- apply Hvalid. unfold valid'. rewrite decide_True by done.
           apply elem_of_app. right. by apply list_elem_of_singleton.
        -- apply Hqueue; [|done]. rewrite Hext. apply elem_of_app. by left.
Qed.

Lemma neighbors_NoDup (p : Position) : NoDup (neighbors p).
Proof.
  unfold neighbors.
  repeat (apply NoDup_cons; split;
          [rewrite ?not_elem_of_cons; split_and?;
             try (intros [=]; lia); apply not_elem_of_nil|]).
  apply NoDup_nil_2.
Qed.

(** A neighbour that is enterable, fresh and affordable is queued by the
    [forEach]. *)
Lemma expand_enqueues (level : LevelData) (units gunits : list Unit)
    (unit : Unit) (sof : bool) (current : Node) (ns : list Position)
    (qv qv' : list Node * gset (Z * Z)) (nb : Position) :
  NoDup ns → nb ∈ ns →
  enterable level units nb → key nb ∉ qv.2 →
  curCost current + stepCost level sof current nb ≤ moveRange unit →
  forEachM (visitNeighbor (gridSize level) units unit (initGrid level gunits)
                          sof current) ns qv = Some qv' →
  mkNode nb (curCost current + stepCost level sof current nb) ∈ qv'.1.
Proof.
  intros Hnd Hin Hent Hfresh Hle. revert qv Hfresh.
  induction ns as [|n0 ns IH]; intros qv Hfresh Hrun; [by apply elem_of_nil in Hin|].
  apply NoDup_cons in Hnd as [Hn0 Hnd]. simpl in Hrun.
  destruct (visitNeighbor_cases level units gunits unit sof current qv n0)
    as (qv1 & Hv & Hcases).
  rewrite Hv in Hrun. simpl in Hrun.
  apply elem_of_cons in Hin as [<- | Hin].
  - destruct Hcases as [[Hno _] | (_ & _ & _ & ->)]; [by destruct Hno|].
    assert (∀ ms q0 q1,
              forEachM (visitNeighbor (gridSize level) units unit
                          (initGrid level gunits) sof current) ms q0 = Some q1 →
              ∀ node, node ∈ q0.1 → node ∈ q1.1) as Hmono.
    { clear. induction ms as [|m ms IHm]; intros q0 q1 Hr node Hnode; simpl in Hr.
      - by injection Hr as <-.
      - destruct (visitNeighbor_cases level units gunits unit sof current q0 m)
          as (q2 & Hv & Hc). rewrite Hv in Hr. simpl in Hr.
        eapply IHm; [exact Hr|].
        destruct Hc as [[_ ->] | (_ & _ & _ & ->)]; [done|].
        simpl. apply elem_of_app. by left. }
    eapply Hmono; [exact Hrun|]. simpl. apply elem_of_app. right.
    by apply list_elem_of_singleton.
  - eapply IH; [done | done | | exact Hrun].
    destruct Hcases as [[_ ->] | (_ & _ & _ & ->)]; [done|].
    simpl. assert (key nb ≠ key n0) by (intros ?%key_inj; congruence).
    set_solver.
Qed.

(** The [forEach] over the neighbours of [current], exactly: it queues, in
    order, the neighbours that are enterable, not yet visited and
    affordable, and marks them visited. *)
Lemma expand_effect (level : LevelData) (units gunits : list Unit)
    (unit : Unit) (sof : bool) (current : Node) :
  ∀ (ns : list Position) (qv qv' : list Node * gset (Z * Z)),
    NoDup ns →
    forEachM (visitNeighbor (gridSize level) units unit (initGrid level gunits)
                            sof current) ns qv = Some qv' →
    ∃ extra : list Position,
      qv'.1 = qv.1 ++ ((λ nb, mkNode nb (curCost current
                                         + stepCost level sof current nb))
                       <$> extra)
      ∧ qv'.2 = list_to_set (key <$> extra) ∪ qv.2
      ∧ NoDup extra
      ∧ ∀ nb, nb ∈ extra ↔
              nb ∈ ns ∧ enterable level units nb ∧ (key nb ∉ qv.2)
              ∧ curCost current + stepCost level sof current nb
                ≤ moveRange unit.
Proof.
  induction ns as [|n0 ns IH]; intros qv qv' Hnd Hrun; simpl in Hrun.
  { injection Hrun as <-. exists []. simpl. rewrite app_nil_r.
    split_and!; [done | set_solver | constructor |].
    intros nb. split; [intros []%elem_of_nil | intros [[]%elem_of_nil _]]. }
  apply NoDup_cons in Hnd as [Hn0 Hnd].
  destruct (visitNeighbor_cases level units gunits unit sof current qv n0)
    as (qv1 & Hv & Hcases).
  rewrite Hv in Hrun. simpl in Hrun.
  destruct (IH qv1 qv' Hnd Hrun) as (extra & Hq & Hs & Hne & Hin).
  destruct Hcases as [[Hno ->] | (Hent & Hfresh & Hle & ->)].
  - exists extra. split_and!; [done..|].
    intros nb. rewrite Hin, elem_of_cons. split.
    + intros (? & ? & ? & ?). by split_and!; [right|..].
    + intros ([-> | ?] & ? & ? & ?); [by destruct Hno | done].
  - simpl in Hq, Hs, Hin. exists (n0 :: extra). split_and!.
    + rewrite Hq, <- app_assoc. done.
    + rewrite Hs. simpl. set_solver.
    + apply NoDup_cons. split; [|done]. intros Hx. apply Hin in Hx as [? _].
      done.
    + intros nb. rewrite !elem_of_cons, Hin. split.
      * intros [-> | (? & ? & ? & ?)]; [by split_and!; [left|..]|].
        split_and!; [by right | done | set_solver | done].
      * intros ([-> | Hnb] & ? & ? & ?); [by left | right].
        split_and!; [done..| | done].
        assert (key nb ≠ key n0) by (intros ?%key_inj; congruence).
        set_solver.
Qed.

Lemma startNode_ok (level : LevelData) (units : list Unit) (unit : Unit)
    (sof : bool) :
  node_ok level units unit sof (mkNode (position unit) 0).
Proof.
  split_and!; simpl; [lia | | lia].
  exists 0. split; [constructor | lia].
Qed.

(** The planner returns; what it returns is sound; and it holds every
    neighbour of the start that can be entered within the budget. *)
Lemma getValidMoves_spec (level : LevelData) (units gunits : list Unit)
    (unit : Unit) :
  emoji unit = BOW ∨ outOfBounds (gridSize level) (position unit) = false →
  isStunned unit = false →
  ∃ res,
    getValidMoves (gridSize level) units unit (initGrid level gunits) = Some res
    ∧ Forall (cell_ok level units unit (startsOnForest level unit)) res
    ∧ (∀ q, q ∈ neighbors (position unit) → enterable level units q →
            stepCost level (startsOnForest level unit)
                     (mkNode (position unit) 0) q ≤ moveRange unit →
            q ∈ res).
Proof.
  intros Hin Hst. unfold getValidMoves. rewrite Hst.
  assert ((if decide (emoji unit ≠ BOW)
           then startTile ← tileAt (initGrid level gunits)
                              (x (position unit)) (y (position unit));
                Some (bool_decide (terrain startTile = forest))
           else Some false) = Some (startsOnForest level unit)) as ->.
  { unfold startsOnForest. case_decide.
    - destruct (tileAt_initGrid level gunits (x (position unit))
                  (y (position unit))) as (t & -> & Ht);
        [destruct Hin as [?|Hin]; [done | by destruct (position unit)]|].
      cbn [mbind option_bind]. rewrite Ht.
      by rewrite (bool_decide_true (emoji unit ≠ BOW)).
    - by rewrite (bool_decide_false (emoji unit ≠ BOW)) by naive_solver. }
  cbn [mbind option_bind].
  set (sof := startsOnForest level unit).
  pose proof (size_plannerKeys (gridSize level) (position unit)) as Hsize.
  set (fuel := Z.to_nat (gridSize level * gridSize level)) in *.
  cbn [bfsLoop]. rewrite decide_False by (simpl; lia).
  destruct (expand_spec level units gunits unit sof (mkNode (position unit) 0)
              (neighbors (position unit)) ([], {[key (position unit)]}))
    as (qv' & Hrun & Hq' & Hs' & Hsub' & Hlen & _).
  { apply startNode_ok. }
  { done. }
  { by apply Forall_nil. }
  { cbn [snd]. set_solver. }
  { cbn [snd]. unfold plannerKeys. set_solver. }
  cbn [fst snd node_position] in Hrun, Hlen |- *. rewrite Hrun.
  cbn [mbind option_bind].
  destruct (bfsLoop_spec level units gunits unit sof fuel qv'.1 qv'.2 [])
    as (res & -> & Hres & _ & Hqueue); try done.
  { rewrite size_singleton in Hlen. simpl in Hlen. lia. }
  exists res. split_and!; [done..|].
  intros q Hq Hent Hle.
  pose proof (expand_enqueues level units gunits unit sof
                (mkNode (position unit) 0) (neighbors (position unit))
                ([], {[key (position unit)]}) qv' q
                (neighbors_NoDup _) Hq Hent) as Hnode.
  simpl in Hnode.
  assert (q ≠ position unit) as Hne.
  { intros ->. revert Hq. unfold neighbors.
    rewrite !elem_of_cons, elem_of_nil.
    destruct (position unit) as [a b]. simpl.
    intros [[=] | [[=] | [[=] | [[=] | []]]]]; lia. }
  specialize (Hnode ltac:(intros ?%elem_of_singleton%key_inj; done) Hle Hrun).
  apply (Hqueue _ Hnode). simpl.
  pose proof (stepCost_range level sof (mkNode (position unit) 0) q).
  pose proof (entryCost_range level q). lia.
Qed.

Lemma getValidMoves_stunned (GRID_SIZE : Z) (units : list Unit) (unit : Unit)
    (currentGrid : list (list TileData)) :
  isStunned unit = true →
  getValidMoves GRID_SIZE units unit currentGrid = Some [].
Proof. intros H. unfold getValidMoves. by rewrite H. Qed.

(** C6.  Every cell the planner returns, for any unit, is the end of a walk
    from the unit's cell whose entry costs (2 for forest, 1 otherwise) add
    up to [e], for which the planner counts [m] movement points, with
    [e ≤ m ≤ unit.moveRange]; it is inside the grid, held by no unit,
    neither water nor mountain, and it is not the unit's own cell.  For a
    unit inside the grid the planner does return. *)
Theorem movement_bound (level : LevelData) (units : list Unit) (unit : Unit) :
  (outOfBounds (gridSize level) (position unit) = false →
   is_Some (getValidMoves (gridSize level) units unit (initGrid level units)))
  ∧ ∀ cells,
      getValidMoves (gridSize level) units unit (initGrid level units)
      = Some cells →
      ∀ c, c ∈ cells →
        (∃ e m, reachable level units (startsOnForest level unit)
                          (position unit) c e m
                ∧ e ≤ m ∧ m ≤ moveRange unit)
        ∧ outOfBounds (gridSize level) c = false
        ∧ ¬ Exists (at_cell c) units
        ∧ mapSetup level (x c) (y c) ≠ water
        ∧ mapSetup level (x c) (y c) ≠ mountain
        ∧ c ≠ position unit.
Proof.
  split.
  - intros Hin. destruct (isStunned unit) eqn:Hst.
    + rewrite getValidMoves_stunned by done. eauto.
    + destruct (getValidMoves_spec level units units unit (or_intror Hin) Hst)
        as (res & -> & _). eauto.
  - intros cells Hrun c Hc. destruct (isStunned unit) eqn:Hst.
    { rewrite getValidMoves_stunned in Hrun by done.
      injection Hrun as <-. by apply elem_of_nil in Hc. }
    assert (emoji unit = BOW
            ∨ outOfBounds (gridSize level) (position unit) = false) as Hok.
    { destruct (decide (emoji unit = BOW)) as [|Hbow]; [by left|]. right.
      unfold getValidMoves in Hrun. rewrite Hst in Hrun.
      rewrite decide_True in Hrun by done.
      destruct (tileAt (initGrid level units) (x (position unit))
                  (y (position unit))) eqn:Ht; [|done].
      apply tileAt_initGrid_inv in Ht as (Hb & _). by destruct (position unit). }
    destruct (getValidMoves_spec level units units unit Hok Hst)
      as (res & Hres & Hcells & _).
    rewrite Hres in Hrun. injection Hrun as <-.
    rewrite Forall_forall in Hcells.
    destruct (Hcells c Hc) as ((? & ? & ? & ?) & ? & ? & _). done.
Qed.

Lemma movement_bound_witness :
  let level := forestAmbush in
  let units := levelUnits forestAmbush in
  let unit := hero (mkPosition 4 9) in
  ∃ cells,
    getValidMoves (gridSize level) units unit (initGrid level units) = Some cells
    ∧ mkPosition 4 7 ∈ cells
    ∧ ∀ c, c ∈ cells →
        (∃ e m, reachable level units (startsOnForest level unit)
                          (position unit) c e m
                ∧ e ≤ m ∧ m ≤ moveRange unit)
        ∧ outOfBounds (gridSize level) c = false
        ∧ ¬ Exists (at_cell c) units
        ∧ mapSetup level (x c) (y c) ≠ water
        ∧ mapSetup level (x c) (y c) ≠ mountain
        ∧ c ≠ position unit.
Proof.
  intros level units unit.
  destruct (movement_bound level units unit) as [Hret Hsafe].
  destruct (getValidMoves (gridSize level) units unit (initGrid level units))
    as [cells|] eqn:Hrun.
  - exists cells. split; [done|]. split; [|by apply Hsafe].
    vm_compute in Hrun. injection Hrun as <-.
    apply (bool_decide_unpack _). vm_compute. exact I.
  - exfalso. vm_compute in Hrun. discriminate.
Defined.

Lemma trail_nonneg (level : LevelData) (units : list Unit) (q c : Position)
    (e : Z) :
  trail level units q c e → 0 ≤ e.
Proof.
  induction 1 as [|p c e _ IH _ _]; [lia|].
  pose proof (entryCost_range level c). lia.
Qed.

(** A walk of the planner is its first step, charged by the planner's rule,
    followed by a trail charged by entry costs. *)
Lemma reachable_first_step (level : LevelData) (units : list Unit)
    (sof : bool) (start c : Position) (e m : Z) :
  reachable level units sof start c e m →
  (c = start ∧ m = 0)
  ∨ ∃ q e', q ∈ neighbors start ∧ enterable level units q
            ∧ trail level units q c e'
            ∧ m = stepCost level sof (mkNode start 0) q + e'.
Proof.
  induction 1 as [|p q e m _ IH Hq Hent]; [by left|]. right.
  destruct IH as [[-> ->] | (q0 & e' & Hq0 & Hent0 & Htrail & ->)].
  - exists q, 0. split_and!; [done | done | constructor | lia].
  - exists q0, (e' + entryCost level q). split_and!; [done..| |].
    + by econstructor.
    + pose proof (trail_nonneg _ _ _ _ _ Htrail).
      pose proof (stepCost_range level sof (mkNode start 0) q0).
      pose proof (entryCost_range level q0).
      assert (stepCost level sof
                (mkNode p (stepCost level sof (mkNode start 0) q0 + e')) q
              = entryCost level q) as ->; [|lia].
      unfold stepCost at 1. cbn [curCost].
      rewrite bool_decide_false by lia. done.
Qed.

(** The planner of a unit that is not stunned is the loop from its cell. *)
Lemma getValidMoves_loop (level : LevelData) (units gunits : list Unit)
    (unit : Unit) :
  emoji unit = BOW ∨ outOfBounds (gridSize level) (position unit) = false →
  isStunned unit = false →
  getValidMoves (gridSize level) units unit (initGrid level gunits)
  = bfsLoop (S (Z.to_nat (gridSize level * gridSize level))) (gridSize level)
            units unit (initGrid level gunits) (startsOnForest level unit)
            [mkNode (position unit) 0] {[key (position unit)]} [].
Proof.
  intros Hin Hst. unfold getValidMoves. rewrite Hst.
  assert ((if decide (emoji unit ≠ BOW)
           then startTile ← tileAt (initGrid level gunits)
                              (x (position unit)) (y (position unit));
                Some (bool_decide (terrain startTile = forest))
           else Some false) = Some (startsOnForest level unit)) as ->; [|done].
  unfold startsOnForest. case_decide.
  - destruct (tileAt_initGrid level gunits (x (position unit))
                (y (position unit))) as (t & -> & Ht);
      [destruct Hin as [?|Hin]; [done | by destruct (position unit)]|].
    cbn [mbind option_bind]. rewrite Ht.
    by rewrite (bool_decide_true (emoji unit ≠ BOW)).
  - by rewrite (bool_decide_false (emoji unit ≠ BOW)) by naive_solver.
Qed.

(** The loop lists every node it is given, and every cell that one of them
    can afford to step on is visited before or listed. *)
Lemma bfsLoop_expands (level : LevelData) (units gunits : list Unit)
    (unit : Unit) (sof : bool) (fuel : nat) :
  ∀ (queue : list Node) (visited : gset (Z * Z)) (valid res : list Position),
    Forall (λ n, 0 ≤ curCost n) queue →
    bfsLoop fuel (gridSize level) units unit (initGrid level gunits) sof
            queue visited valid = Some res →
    (∀ c, c ∈ valid → c ∈ res)
    ∧ (∀ node, node ∈ queue → curCost node > 0 → node_position node ∈ res)
    ∧ (∀ node nb, node ∈ queue → nb ∈ neighbors (node_position node) →
                  enterable level units nb →
                  curCost node + stepCost level sof node nb ≤ moveRange unit →
                  key nb ∈ visited ∨ nb ∈ res).
Proof.
  induction fuel as [|fuel IH]; intros queue visited valid res Hpos Hrun;
    destruct queue as [|cur rest]; cbn [bfsLoop] in Hrun; try done.
  - injection Hrun as <-.
    split_and!; [done | intros ? []%elem_of_nil | intros ? ? []%elem_of_nil].
  - injection Hrun as <-.
    split_and!; [done | intros ? []%elem_of_nil | intros ? ? []%elem_of_nil].
  - destruct (forEachM _ (neighbors (node_position cur)) (rest, visited))
      as [qv|] eqn:Hexp; [|done].
    cbn [mbind option_bind] in Hrun.
    destruct (expand_effect level units gunits unit sof cur
                (neighbors (node_position cur)) (rest, visited) qv
                (neighbors_NoDup _) Hexp) as (extra & Hq & Hs & _ & Hin).
    cbn [fst snd] in Hq, Hs, Hin.
    apply Forall_cons in Hpos as [Hcur Hrest].
    assert (∀ nb, 0 < curCost cur + stepCost level sof cur nb) as Hnew.
    { intros nb. pose proof (stepCost_range level sof cur nb).
      pose proof (entryCost_range level nb). lia. }
    destruct (λ H, IH _ _ _ _ H Hrun) as (Hvalid & Hqueue & Hnext).
    { rewrite Hq. apply Forall_app. split; [done|].
      apply Forall_fmap, Forall_forall. intros nb _. simpl.
      specialize (Hnew nb). lia. }
    assert (∀ nb, nb ∈ extra → nb ∈ res) as Hextra.
    { intros nb Hnb.
      apply (Hqueue (mkNode nb (curCost cur + stepCost level sof cur nb))).
      - rewrite Hq. apply elem_of_app. right.
        apply list_elem_of_fmap. by exists nb.
      - simpl. specialize (Hnew nb). lia. }
    split_and!.
    + intros c Hc. apply Hvalid. case_decide; [|done].
      apply elem_of_app. by left.
    + intros node [-> | Hnode]%elem_of_cons Hcost.
      * apply Hvalid. rewrite decide_True by done.
        apply elem_of_app. right. by apply list_elem_of_singleton.
      * apply Hqueue; [|done]. rewrite Hq. apply elem_of_app. by left.
    + intros node nb Hnode Hnb Hent Hle.
      destruct (decide (key nb ∈ visited)) as [|Hfresh]; [by left|]. right.
      apply elem_of_cons in Hnode as [-> | Hnode].
      * apply Hextra, Hin. done.
      * destruct (Hnext node nb) as [Hvis | Hres]; [|done..| |done].
        { rewrite Hq. apply elem_of_app. by left. }
        rewrite Hs in Hvis. apply elem_of_union in Hvis as [Hvis | Hvis];
          [|done].
        apply elem_of_list_to_set, list_elem_of_fmap in Hvis
          as (nb' & Hkey%key_inj & Hnb'). subst nb'. by apply Hextra.
Qed.

(** C8.  The first step off the starting cell costs a unit that is not an
    archer and starts on forest 2 movement points whatever the terrain of
    the cell it enters; it costs an archer, and any unit that does not
    start on forest, the entry cost of that cell.  The planner both gates
    and charges that cost: a cell next to the start is among the moves
    exactly when the cost is within [unit.moveRange]; every move is reached
    from such a cell by a trail whose entry costs fit into what the first
    step left of the budget; and a cell next to such a cell is among the
    moves whenever its entry cost fits into what the first step left. *)
Theorem forest_exit_cost (level : LevelData) (units : list Unit) (unit : Unit) :
  outOfBounds (gridSize level) (position unit) = false →
  isStunned unit = false →
  let onForest :=
    mapSetup level (x (position unit)) (y (position unit)) = forest in
  let firstStep q :=
    if decide (emoji unit ≠ BOW ∧ onForest) then 2 else entryCost level q in
  ∃ cells,
    getValidMoves (gridSize level) units unit (initGrid level units) = Some cells
    ∧ (∀ q, q ∈ neighbors (position unit) → enterable level units q →
            (q ∈ cells ↔ firstStep q ≤ moveRange unit))
    ∧ (∀ c, c ∈ cells →
            ∃ q e, q ∈ neighbors (position unit) ∧ enterable level units q
                   ∧ trail level units q c e
                   ∧ firstStep q + e ≤ moveRange unit)
    ∧ (∀ q c, q ∈ neighbors (position unit) → enterable level units q →
              c ∈ neighbors q → enterable level units c →
              c ≠ position unit →
              firstStep q + entryCost level c ≤ moveRange unit →
              c ∈ cells).
Proof.
  intros Hin Hst onForest firstStep.
  destruct (getValidMoves_spec level units units unit (or_intror Hin) Hst)
    as (res & Hrun & Hres & Hnb).
  exists res. split; [done|].
  assert (∀ q, firstStep q = stepCost level (startsOnForest level unit)
                                      (mkNode (position unit) 0) q) as Hfs.
  { intros q. unfold firstStep, onForest, stepCost, startsOnForest.
    cbn [curCost]. rewrite (bool_decide_true (0 = 0)) by done. cbn [andb].
    repeat case_bool_decide; case_decide; simpl; naive_solver. }
  rewrite Forall_forall in Hres.
  split_and!.
  - intros q Hq Hent. split.
    + intros Hc. destruct (Hres q Hc) as (_ & _ & _ & Hlb).
      rewrite Hfs. unfold stepCost, lowerBound in *. cbn [curCost].
      rewrite (bool_decide_true (0 = 0)) by done. cbn [andb].
      by destruct (startsOnForest level unit).
    + intros Hle. apply Hnb; [done..|]. by rewrite <- Hfs.
  - intros c Hc.
    destruct (Hres c Hc) as (_ & Hne & (e & m & Hreach & _ & Hm) & _).
    apply reachable_first_step in Hreach
      as [[? _] | (q & e' & Hq & Hent & Htrail & ->)]; [done|].
    exists q, e'. split_and!; [done..|]. rewrite Hfs. lia.
  - intros q c Hq Hent Hc Hentc Hne Hle.
    pose proof (entryCost_range level c) as Hec.
    set (sof := startsOnForest level unit) in *.
    rewrite (getValidMoves_loop level units units unit (or_intror Hin) Hst)
      in Hrun. fold sof in Hrun.
    cbn [mbind option_bind bfsLoop] in Hrun.
    rewrite decide_False in Hrun by (simpl; lia).
    destruct (forEachM _ (neighbors _) ([], {[key (position unit)]}))
      as [qv|] eqn:Hexp; [|done].
    cbn [mbind option_bind] in Hrun.
    destruct (expand_effect level units units unit sof
                (mkNode (position unit) 0) (neighbors (position unit))
                ([], {[key (position unit)]}) qv (neighbors_NoDup _) Hexp)
      as (extra & Hqv & Hs & _ & Hextra).
    cbn [fst snd app curCost node_position] in Hqv, Hs, Hextra.
    assert (∀ nb, 0 < stepCost level sof (mkNode (position unit) 0) nb)
      as Hpos.
    { intros nb. pose proof (stepCost_range level sof
                               (mkNode (position unit) 0) nb).
      pose proof (entryCost_range level nb). lia. }
    destruct (λ H, bfsLoop_expands level units units unit sof _ qv.1 qv.2 []
                     res H Hrun) as (_ & Hqueue & Hnext).
    { rewrite Hqv. apply Forall_fmap, Forall_forall. intros nb _. simpl.
      specialize (Hpos nb). lia. }
    assert (∀ nb, nb ∈ extra → nb ∈ res) as Hlisted.
    { intros nb Hnb'.
      apply (Hqueue (mkNode nb (0 + stepCost level sof
                                      (mkNode (position unit) 0) nb))).
      - rewrite Hqv. apply list_elem_of_fmap. by exists nb.
      - simpl. specialize (Hpos nb). lia. }
    assert (q ∈ extra) as Hqx.
    { apply Hextra. split_and!; [done | done | | ].
      - intros Hk%elem_of_singleton%key_inj. subst q.
        unfold neighbors in Hq. destruct (position unit) as [px py].
        repeat (apply elem_of_cons in Hq as [[=] | Hq]; [lia|]).
        by apply elem_of_nil in Hq.
      - rewrite <- Hfs. lia. }
    destruct (Hnext (mkNode q (0 + stepCost level sof
                                     (mkNode (position unit) 0) q)) c)
      as [Hvis | Hc']; [| done | done | | | done].
    + rewrite Hqv. apply list_elem_of_fmap. by exists q.
    + cbn [curCost]. unfold stepCost at 2. cbn [curCost].
      rewrite bool_decide_false by (specialize (Hpos q); lia).
      cbn [andb]. rewrite <- Hfs. lia.
    + rewrite Hs in Hvis. apply elem_of_union in Hvis as [Hvis | Hvis].
      * apply elem_of_list_to_set, list_elem_of_fmap in Hvis
          as (c' & Hkey%key_inj & Hc'). subst c'. by apply Hlisted.
      * apply elem_of_singleton, key_inj in Hvis. done.
Qed.

Lemma forest_exit_cost_witness :
  let level := crossfire in
  let units := crossfireForest in
  let unit := shieldbearer "sb1" "Shieldbearer" 8 (mkPosition 3 6) in
  let firstStep q :=
    if decide (emoji unit ≠ BOW
               ∧ mapSetup level (x (position unit)) (y (position unit)) = forest)
    then 2 else entryCost level q in
  ∃ cells,
    getValidMoves (gridSize level) units unit (initGrid level units) = Some cells
    ∧ (∀ q, q ∈ neighbors (position unit) → enterable level units q →
            (q ∈ cells ↔ firstStep q ≤ moveRange unit))
    ∧ (∀ c, c ∈ cells →
            ∃ q e, q ∈ neighbors (position unit) ∧ enterable level units q
                   ∧ trail level units q c e
                   ∧ firstStep q + e ≤ moveRange unit)
    ∧ (∀ q c, q ∈ neighbors (position unit) → enterable level units q →
              c ∈ neighbors q → enterable level units c →
              c ≠ position unit →
              firstStep q + entryCost level c ≤ moveRange unit →
              c ∈ cells).
Proof.
  intros level units unit.
  apply (forest_exit_cost level units unit).
  - reflexivity.
  - reflexivity.
Defined.

(** ** Line of sight *)

(** A trace whose every round moves by the same vector [(vx, vy)] and
    restores the error term: the loop returns, and it answers [true] exactly
    when no cell strictly between the end points is a mountain. *)
Lemma losLoop_uniform (level : LevelData) (gunits : list Unit)
    (start end_ : Position) (dx dy sx sy e0 e1 vx vy m : Z) :
  (2 * e0 > - dy → vx = sx ∧ e1 = e0 - dy) →
  (¬ 2 * e0 > - dy → vx = 0 ∧ e1 = e0) →
  (2 * e0 < dx → vy = sy ∧ e0 = e1 + dx) →
  (¬ 2 * e0 < dx → vy = 0 ∧ e0 = e1) →
  vx = -1 ∨ vx = 0 ∨ vx = 1 →
  vy = -1 ∨ vy = 0 ∨ vy = 1 →
  ¬ (vx = 0 ∧ vy = 0) →
  x end_ = x start + m * vx → y end_ = y start + m * vy →
  outOfBounds (gridSize level) start = false →
  outOfBounds (gridSize level) end_ = false →
  ∀ (fuel : nat) (j : Z),
    0 ≤ j ≤ m → m - j < Z.of_nat fuel →
    ∃ r,
      losLoop fuel (initGrid level gunits) start end_ dx dy sx sy
              (x start + j * vx) (y start + j * vy) e0 = Some r
      ∧ (r = true ↔
         ∀ i, j ≤ i < m → 0 < i →
              mapSetup level (x start + i * vx) (y start + i * vy) ≠ mountain).
Proof.
  intros Hx1 Hx0 Hy1 Hy0 Hvx Hvy Hv Hex Hey
         [Hsx Hsy]%outOfBounds_false [Hexb Heyb]%outOfBounds_false.
  induction fuel as [|fuel IH]; intros j Hj Hfuel; [lia|].
  cbn [losLoop].
  destruct (decide (x start + j * vx = x end_ ∧ y start + j * vy = y end_))
    as [[Hxe Hye]|Hne].
  { exists true. split; [done|]. split; [|done]. intros _ i Hi.
    assert (j = m) by (destruct Hvx as [->|[->| ->]], Hvy as [->|[->| ->]]; lia).
    lia. }
  assert (j < m) as Hlt.
  { destruct (decide (j = m)) as [->|]; [|lia]. destruct Hne. by rewrite Hex, Hey. }
  assert (∃ r, losLoop fuel (initGrid level gunits) start end_ dx dy sx sy
                 (x start + (j + 1) * vx) (y start + (j + 1) * vy) e0 = Some r
               ∧ (r = true ↔
                  ∀ i, j + 1 ≤ i < m → 0 < i →
                    mapSetup level (x start + i * vx) (y start + i * vy)
                    ≠ mountain)) as (r & Hr & Hspec)
    by (apply IH; lia).
  assert ((let '(err1, x0') :=
             if decide (2 * e0 > - dy)
             then (e0 - dy, x start + j * vx + sx)
             else (e0, x start + j * vx) in
           let '(err2, y0') :=
             if decide (2 * e0 < dx)
             then (err1 + dx, y start + j * vy + sy)
             else (err1, y start + j * vy) in
           losLoop fuel (initGrid level gunits) start end_ dx dy sx sy
                   x0' y0' err2) = Some r) as Hnext.
  { cbv zeta.
    destruct (decide (2 * e0 > - dy)) as [H1|H1];
      [destruct (Hx1 H1) as [<- Hd1] | destruct (Hx0 H1) as [Hz1 Hd1]];
      (destruct (decide (2 * e0 < dx)) as [H2|H2];
       [destruct (Hy1 H2) as [<- Hd2] | destruct (Hy0 H2) as [Hz2 Hd2]]);
      rewrite <- Hr; f_equal; lia. }
  destruct (decide (¬ (x start + j * vx = x start ∧ y start + j * vy = y start)))
    as [Hns|Hs].
  2:{ assert (j = 0) as ->
        by (apply dec_stable in Hs;
            destruct Hvx as [->|[->| ->]], Hvy as [->|[->| ->]]; lia).
      cbn [mbind option_bind]. cbv zeta. rewrite Hnext. exists r. split; [done|].
      rewrite Hspec. split; intros H i Hi Hpos; apply H; lia. }
  assert (j ≠ 0) as Hj0 by (intros ->; apply Hns; lia).
  - destruct (tileAt_initGrid level gunits (x start + j * vx) (y start + j * vy))
      as (t & -> & Ht).
    { apply outOfBounds_false. simpl.
      destruct Hvx as [->|[->| ->]], Hvy as [->|[->| ->]]; lia. }
    cbn [mbind option_bind]. rewrite Ht.
    destruct (decide (mapSetup level (x start + j * vx) (y start + j * vy)
                      = mountain)) as [Hm|Hm].
    + rewrite bool_decide_true by done.
      exists false. split; [done|]. split; [done|].
      intros H. destruct (H j); [lia | lia | done].
    + rewrite bool_decide_false by done. cbv zeta. rewrite Hnext.
      exists r. split; [done|]. rewrite Hspec.
      split; intros H i Hi Hpos; [|apply H; lia].
      destruct (decide (i = j)) as [->|]; [done | apply H; lia].
Qed.

Lemma sgn_cases (a b : Z) :
  (a < b ∧ Z.sgn (b - a) = 1) ∨ (a = b ∧ Z.sgn (b - a) = 0)
  ∨ (b < a ∧ Z.sgn (b - a) = -1).
Proof. lia. Qed.

(** On a row, a column or a diagonal the trace returns, and it sees through
    exactly when no mountain lies strictly between the two cells. *)
Lemma hasLineOfSight_aligned (level : LevelData) (gunits : list Unit)
    (a b : Position) :
  outOfBounds (gridSize level) a = false →
  outOfBounds (gridSize level) b = false →
  aligned a b →
  ∃ r, hasLineOfSight a b (initGrid level gunits) = Some r
       ∧ (r = true ↔ clear_between level a b).
Proof.
  intros Ha Hb Hal. unfold hasLineOfSight, clear_between.
  destruct (decide (x a = x b ∧ y a = y b)) as [[Hx Hy]|Hne].
  { cbn [losLoop]. rewrite decide_True by done.
    exists true. split; [done|]. split; [|done]. intros _ i Hi. lia. }
  set (e1 := if decide (2 * (Z.abs (x b - x a) - Z.abs (y b - y a))
                        > - Z.abs (y b - y a))
             then Z.abs (x b - x a) - Z.abs (y b - y a) - Z.abs (y b - y a)
             else Z.abs (x b - x a) - Z.abs (y b - y a)).
  pose proof (losLoop_uniform level gunits a b
                (Z.abs (x b - x a)) (Z.abs (y b - y a))
                (if decide (x a < x b) then 1 else -1)
                (if decide (y a < y b) then 1 else -1)
                (Z.abs (x b - x a) - Z.abs (y b - y a)) e1
                (Z.sgn (x b - x a)) (Z.sgn (y b - y a))
                (Z.max (Z.abs (x b - x a)) (Z.abs (y b - y a)))) as Hu.
  unfold aligned in Hal.
  destruct (sgn_cases (x a) (x b)) as [[? Hsx]|[[? Hsx]|[? Hsx]]];
    destruct (sgn_cases (y a) (y b)) as [[? Hsy]|[[? Hsy]|[? Hsy]]];
    rewrite Hsx, Hsy in Hu |- *; try lia;
    (destruct (Hu ltac:(subst e1; repeat case_decide; lia)
                 ltac:(subst e1; repeat case_decide; lia)
                 ltac:(subst e1; repeat case_decide; lia)
                 ltac:(subst e1; repeat case_decide; lia)
                 ltac:(lia) ltac:(lia) ltac:(lia) ltac:(lia) ltac:(lia)
                 Ha Hb
                 (S (Z.to_nat (Z.abs (x b - x a) + Z.abs (y b - y a))))
                 0 ltac:(lia) ltac:(lia)) as (r & Hr & Hspec);
     rewrite !Z.mul_0_l, !Z.add_0_r in Hr;
     exists r; split; [exact Hr|];
     rewrite Hspec; split; intros Hall i Hi;
     [apply Hall; lia | intros ?; apply Hall; lia]).
Qed.

Lemma clear_between_sym (level : LevelData) (a b : Position) :
  aligned a b → clear_between level a b → clear_between level b a.
Proof.
  unfold aligned, clear_between. intros Hal Hall i Hi.
  specialize (Hall (Z.max (Z.abs (x b - x a)) (Z.abs (y b - y a)) - i)).
  destruct (sgn_cases (x a) (x b)) as [[? Hsx]|[[? Hsx]|[? Hsx]]];
    destruct (sgn_cases (y a) (y b)) as [[? Hsy]|[[? Hsy]|[? Hsy]]];
    destruct (sgn_cases (x b) (x a)) as [[? Htx]|[[? Htx]|[? Htx]]];
    destruct (sgn_cases (y b) (y a)) as [[? Hty]|[[? Hty]|[? Hty]]];
    try lia;
    rewrite Hsx, Hsy in Hall; rewrite Htx, Hty;
    (match goal with
     | |- mapSetup _ ?u ?v ≠ _ =>
         match type of Hall with
         | _ → mapSetup _ ?u' ?v' ≠ _ =>
             replace u with u' by lia; replace v with v' by lia
         end
     end); apply Hall; lia.
Qed.

Lemma aligned_sym (a b : Position) : aligned a b → aligned b a.
Proof. unfold aligned. lia. Qed.

(** Two cells at Manhattan distance at most 2 are aligned: the attack ranges
    of the three levels never ask for another line. *)
Lemma near_cells_aligned (a b : Position) : manhattan a b ≤ 2 → aligned a b.
Proof. unfold manhattan, aligned. lia. Qed.

(** C7, as stated, fails on the code: in the Forest Ambush the trace from
    (1,6) to (3,7) passes the mountain of (2,6) and is blocked, the trace
    from (3,7) to (1,6) passes the plains of (2,7) and is clear. *)
Lemma line_of_sight_depends_on_direction :
  outOfBounds 10 (mkPosition 1 6) = false
  ∧ outOfBounds 10 (mkPosition 3 7) = false
  ∧ hasLineOfSight (mkPosition 1 6) (mkPosition 3 7)
      (initGrid forestAmbush (levelUnits forestAmbush)) = Some false
  ∧ hasLineOfSight (mkPosition 3 7) (mkPosition 1 6)
      (initGrid forestAmbush (levelUnits forestAmbush)) = Some true.
Proof. repeat split; vm_compute; reflexivity. Qed.

(** C7, amended.  For two cells of the grid on one row, one column or one
    diagonal, the trace returns the same answer in both directions. *)
Theorem line_of_sight_symmetric_when_aligned (level : LevelData)
    (units : list Unit) (a b : Position) :
  outOfBounds (gridSize level) a = false →
  outOfBounds (gridSize level) b = false →
  aligned a b →
  ∃ r, hasLineOfSight a b (initGrid level units) = Some r
       ∧ hasLineOfSight b a (initGrid level units) = Some r.
Proof.
  intros Ha Hb Hal.
  destruct (hasLineOfSight_aligned level units a b Ha Hb Hal)
    as (r & Hr & Hspec).
  destruct (hasLineOfSight_aligned level units b a Hb Ha (aligned_sym _ _ Hal))
    as (r' & Hr' & Hspec').
  exists r. split; [done|]. rewrite Hr'. f_equal.
  pose proof (clear_between_sym level a b Hal).
  pose proof (clear_between_sym level b a (aligned_sym _ _ Hal)).
  destruct r, r'; try done; naive_solver.
Qed.

Lemma line_of_sight_symmetric_when_aligned_witness :
  let a := mkPosition 2 4 in
  let b := mkPosition 2 7 in
  ∃ r, hasLineOfSight a b (initGrid forestAmbush (levelUnits forestAmbush)) = Some r
       ∧ hasLineOfSight b a (initGrid forestAmbush (levelUnits forestAmbush)) = Some r.
Proof.
  intros a b.
  apply (line_of_sight_symmetric_when_aligned forestAmbush
           (levelUnits forestAmbush) a b).
  - reflexivity.
  - reflexivity.
  - left. reflexivity.
Defined.

(** The trace between two cells of the grid returns: each round moves at
    least one coordinate towards the end point and none beyond it, so every
    cell it reads is inside the grid and the fuel [dx + dy + 1] is never
    exhausted.  [nx] and [ny] count the steps taken so far. *)
Lemma losLoop_total (level : LevelData) (gunits : list Unit) (a b : Position)
    (dx dy sx sy : Z) :
  outOfBounds (gridSize level) a = false →
  outOfBounds (gridSize level) b = false →
  dx = Z.abs (x b - x a) → dy = Z.abs (y b - y a) →
  sx = (if decide (x a < x b) then 1 else -1) →
  sy = (if decide (y a < y b) then 1 else -1) →
  ∀ (fuel : nat) (nx ny : Z),
    0 ≤ nx ≤ dx → 0 ≤ ny ≤ dy →
    (dx - nx) + (dy - ny) < Z.of_nat fuel →
    is_Some (losLoop fuel (initGrid level gunits) a b dx dy sx sy
               (x a + sx * nx) (y a + sy * ny)
               (dx - dy - nx * dy + ny * dx)).
Proof.
  intros Ha Hb Hdx Hdy Hsx Hsy.
  assert (x b = x a + sx * dx) as Hxb
    by (rewrite Hsx, Hdx; clear; case_decide; lia).
  assert (y b = y a + sy * dy) as Hyb
    by (rewrite Hsy, Hdy; clear; case_decide; lia).
  apply outOfBounds_false in Ha as [Hax Hay].
  apply outOfBounds_false in Hb as [Hbx Hby].
  assert (sx = 1 ∨ sx = -1) as Hsx1 by (subst sx; case_decide; lia).
  assert (sy = 1 ∨ sy = -1) as Hsy1 by (subst sy; case_decide; lia).
  assert (0 ≤ dx ∧ 0 ≤ dy) as [Hdx0 Hdy0] by lia.
  clear Hdx Hdy Hsx Hsy.
  induction fuel as [|fuel IH]; intros nx ny Hnx Hny Hfuel; [lia|].
  cbn [losLoop].
  destruct (decide (x a + sx * nx = x b ∧ y a + sy * ny = y b)) as [|Hne];
    [eauto|].
  assert (¬ (nx = dx ∧ ny = dy)) as Hnot
    by (intros [-> ->]; apply Hne; by rewrite Hxb, Hyb).
  assert (is_Some
            (let '(err1, x0') :=
               if decide (2 * (dx - dy - nx * dy + ny * dx) > - dy)
               then (dx - dy - nx * dy + ny * dx - dy, x a + sx * nx + sx)
               else (dx - dy - nx * dy + ny * dx, x a + sx * nx) in
             let '(err2, y0') :=
               if decide (2 * (dx - dy - nx * dy + ny * dx) < dx)
               then (err1 + dx, y a + sy * ny + sy)
               else (err1, y a + sy * ny) in
             losLoop fuel (initGrid level gunits) a b dx dy sx sy
                     x0' y0' err2)) as Hnext.
  { destruct (decide (2 * (dx - dy - nx * dy + ny * dx) > - dy)) as [H1|H1];
      destruct (decide (2 * (dx - dy - nx * dy + ny * dx) < dx)) as [H2|H2].
    - assert (nx + 1 ≤ dx) by nia. assert (ny + 1 ≤ dy) by nia.
      specialize (IH (nx + 1) (ny + 1) ltac:(lia) ltac:(lia) ltac:(lia)).
      replace (x a + sx * nx + sx) with (x a + sx * (nx + 1)) by lia.
      replace (y a + sy * ny + sy) with (y a + sy * (ny + 1)) by lia.
      replace (dx - dy - nx * dy + ny * dx - dy + dx)
        with (dx - dy - (nx + 1) * dy + (ny + 1) * dx) by lia.
      exact IH.
    - assert (nx + 1 ≤ dx) by nia.
      specialize (IH (nx + 1) ny ltac:(lia) ltac:(lia) ltac:(lia)).
      replace (x a + sx * nx + sx) with (x a + sx * (nx + 1)) by lia.
      replace (dx - dy - nx * dy + ny * dx - dy)
        with (dx - dy - (nx + 1) * dy + ny * dx) by lia.
      exact IH.
    - assert (ny + 1 ≤ dy) by nia.
      specialize (IH nx (ny + 1) ltac:(lia) ltac:(lia) ltac:(lia)).
      replace (y a + sy * ny + sy) with (y a + sy * (ny + 1)) by lia.
      replace (dx - dy - nx * dy + ny * dx + dx)
        with (dx - dy - nx * dy + (ny + 1) * dx) by lia.
      exact IH.
    - exfalso. apply Hnot. nia. }
  destruct (decide (¬ (x a + sx * nx = x a ∧ y a + sy * ny = y a))) as [Hns|Hs];
    cbn [mbind option_bind]; [|exact Hnext].
  destruct (tileAt_initGrid level gunits (x a + sx * nx) (y a + sy * ny))
    as (t & -> & Ht).
  { apply outOfBounds_false. simpl.
    destruct Hsx1 as [-> | ->], Hsy1 as [-> | ->]; lia. }
  cbn [mbind option_bind]. case_bool_decide; [eauto | exact Hnext].
Qed.

(** [hasLineOfSight] returns on every pair of cells of the grid. *)
Lemma hasLineOfSight_total (level : LevelData) (gunits : list Unit)
    (a b : Position) :
  outOfBounds (gridSize level) a = false →
  outOfBounds (gridSize level) b = false →
  is_Some (hasLineOfSight a b (initGrid level gunits)).
Proof.
  intros Ha Hb. unfold hasLineOfSight.
  pose proof (losLoop_total level gunits a b
                (Z.abs (x b - x a)) (Z.abs (y b - y a))
                (if decide (x a < x b) then 1 else -1)
                (if decide (y a < y b) then 1 else -1)
                Ha Hb eq_refl eq_refl eq_refl eq_refl
                (S (Z.to_nat (Z.abs (x b - x a) + Z.abs (y b - y a))))
                0 0 ltac:(lia) ltac:(lia) ltac:(lia)) as H.
  rewrite !Z.mul_0_r, !Z.mul_0_l, !Z.add_0_r, !Z.sub_0_r in H. exact H.
Qed.

(** ** The enemy phase *)

Lemma insertBy_Permutation {A} (f : A → Z) (a : A) (l : list A) :
  insertBy f a l ≡ₚ a :: l.
Proof.
  induction l as [|b l IH]; simpl; [done|].
  case_decide; [done|]. rewrite IH. apply Permutation_swap.
Qed.

Lemma sortBy_Permutation {A} (f : A → Z) (l : list A) : sortBy f l ≡ₚ l.
Proof.
  induction l as [|a l IH]; simpl; [done|].
  unfold sortBy in *. simpl. by rewrite insertBy_Permutation, IH.
Qed.

Lemma insertBy_sorted {A} (f : A → Z) (a : A) (l : list A) :
  StronglySorted (λ u v, f u ≤ f v) l →
  StronglySorted (λ u v, f u ≤ f v) (insertBy f a l).
Proof.
  induction l as [|b l IH]; simpl; intros Hs.
  - repeat constructor.
  - apply StronglySorted_cons in Hs as [Hb Hs].
    case_decide.
    + apply StronglySorted_cons. split.
      * constructor; [done|]. eapply Forall_impl; [exact Hb|].
        simpl. intros. lia.
      * by apply StronglySorted_cons.
    + apply StronglySorted_cons. split; [|by apply IH].
      rewrite insertBy_Permutation. constructor; [lia | done].
Qed.

Lemma sortBy_sorted {A} (f : A → Z) (l : list A) :
  StronglySorted (λ u v, f u ≤ f v) (sortBy f l).
Proof.
  induction l as [|a l IH]; unfold sortBy in *; simpl.
  - constructor.
  - by apply insertBy_sorted.
Qed.

(** The best move is the enemy's own cell or one of the moves. *)
Lemma bestMove_cases (playerUnit foe : Unit) (newUnits : list Unit)
    (moves : list Position) (best : Position * option Z) :
  (foldl (considerMove playerUnit foe newUnits) best moves).1 = best.1
  ∨ (foldl (considerMove playerUnit foe newUnits) best moves).1 ∈ moves.
Proof.
  revert best. induction moves as [|m moves IH]; intros best; simpl; [by left|].
  destruct (IH (considerMove playerUnit foe newUnits best m)) as [-> | Hin].
  - unfold considerMove. case_bool_decide; [by left|].
    destruct (best.2); [case_decide|]; simpl; auto using list_elem_of_here.
  - right. by apply list_elem_of_further.
Qed.

(** One enemy of the movement pass: the pass goes on, and the roster is
    unchanged or has this enemy on a new cell, its own or an enterable
    one. *)
Lemma moveEnemy_cases (level : LevelData) (units newUnits : list Unit)
    (playerUnit foe : Unit) :
  inGrid level foe → inGrid level playerUnit →
  ∃ newUnits',
    moveEnemy (gridSize level) units (initGrid level units) playerUnit
              newUnits foe = Some newUnits'
    ∧ (newUnits' = newUnits
       ∨ ∃ p, (p = position foe ∨ enterable level units p)
              ∧ newUnits' =
                (λ u, if decide (id u = id foe) then with_position u p else u)
                <$> newUnits).
Proof.
  intros Hfoe Hpl. unfold moveEnemy.
  destruct (isStunned foe) eqn:Hst; [eauto|].
  assert (∃ mustMove : bool,
            (if decide (manhattan (position foe) (position playerUnit)
                        > attackRange foe)
             then Some true
             else negb <$> hasLineOfSight (position foe) (position playerUnit)
                             (initGrid level units)) = Some mustMove)
    as [mustMove ->].
  { case_decide; [eauto|].
    destruct (hasLineOfSight_total level units (position foe)
                (position playerUnit) Hfoe Hpl) as [r ->]. simpl. eauto. }
  cbn [mbind option_bind]. destruct mustMove; [|eauto].
  destruct (getValidMoves_spec level units units foe (or_intror Hfoe) Hst)
    as (moves & -> & Hmoves & _).
  cbn [mbind option_bind]. eexists. split; [done|]. right.
  eexists. split; [|done].
  destruct (bestMove_cases playerUnit foe newUnits moves (position foe, None))
    as [-> | Hin]; [by left|].
  right. rewrite Forall_forall in Hmoves. by destruct (Hmoves _ Hin).
Qed.

Lemma moveEnemy_stunned (GRID_SIZE : Z) (units : list Unit)
    (grid : list (list TileData)) (playerUnit : Unit) (newUnits : list Unit)
    (foe : Unit) :
  isStunned foe = true →
  moveEnemy GRID_SIZE units grid playerUnit newUnits foe = Some newUnits.
Proof. intros H. unfold moveEnemy. by rewrite H. Qed.

Lemma attackPlayer_stunned (grid : list (list TileData)) (playerUnit : Unit)
    (newUnits : list Unit) (playerHp : Z) (foe : Unit) :
  isStunned foe = true →
  attackPlayer grid playerUnit newUnits playerHp foe = Some playerHp.
Proof. intros H. unfold attackPlayer. by rewrite H. Qed.

(** Stunned enemies are skipped by both passes. *)
Lemma move_pass_active (GRID_SIZE : Z) (units : list Unit)
    (grid : list (list TileData)) (playerUnit : Unit) (order : list Unit) :
  ∀ newUnits,
    forEachM (moveEnemy GRID_SIZE units grid playerUnit) order newUnits
    = forEachM (moveEnemy GRID_SIZE units grid playerUnit)
               (filter (λ e, isStunned e = false) order) newUnits.
Proof.
  induction order as [|foe order IH]; intros newUnits; [done|].
  rewrite filter_cons. case_decide as Hst; cbn [forEachM].
  - destruct (moveEnemy _ _ _ _ _ _); cbn [mbind option_bind]; [apply IH | done].
  - apply not_false_is_true in Hst. rewrite moveEnemy_stunned by done.
    cbn [mbind option_bind]. apply IH.
Qed.

Lemma attack_pass_active (grid : list (list TileData)) (playerUnit : Unit)
    (newUnits order : list Unit) :
  ∀ playerHp,
    forEachM (attackPlayer grid playerUnit newUnits) order playerHp
    = forEachM (attackPlayer grid playerUnit newUnits)
               (filter (λ e, isStunned e = false) order) playerHp.
Proof.
  induction order as [|foe order IH]; intros playerHp; [done|].
  rewrite filter_cons. case_decide as Hst; cbn [forEachM].
  - destruct (attackPlayer _ _ _ _ _); cbn [mbind option_bind]; [apply IH | done].
  - apply not_false_is_true in Hst. rewrite attackPlayer_stunned by done.
    cbn [mbind option_bind]. apply IH.
Qed.

(** The movement pass runs to its end; it keeps the ids of the roster, and
    every property of cells that holds of the enterable cells and of the
    cells the units stand on. *)
Lemma move_pass_spec (level : LevelData) (units : list Unit)
    (playerUnit : Unit) (Q : Position → Prop) (order : list Unit) :
  inGrid level playerUnit →
  Forall (inGrid level) order →
  (∀ p, enterable level units p → Q p) →
  Forall (λ u, Q (position u)) order →
  ∀ newUnits,
    Forall (λ u, Q (position u)) newUnits →
    ∃ moved,
      forEachM (moveEnemy (gridSize level) units (initGrid level units)
                          playerUnit) order newUnits = Some moved
      ∧ Forall (λ u, Q (position u)) moved
      ∧ id <$> moved = id <$> newUnits.
Proof.
  intros Hpl Hin HQ Hord.
  induction order as [|foe order IH]; intros newUnits Hnew; cbn [forEachM].
  { eauto. }
  apply Forall_cons in Hin as [Hfoe Hin].
  apply Forall_cons in Hord as [Hqfoe Hord].
  destruct (moveEnemy_cases level units newUnits playerUnit foe Hfoe Hpl)
    as (newUnits' & -> & Hcases).
  cbn [mbind option_bind].
  destruct (IH Hin Hord newUnits') as (moved & Hrun & Hq & Hids).
  - destruct Hcases as [-> | (p & Hp & ->)]; [done|].
    apply Forall_fmap. eapply Forall_impl; [exact Hnew|].
    intros u Hu. simpl. case_decide; [|done].
    simpl. destruct Hp as [-> | Hp]; auto.
  - exists moved. split_and!; [done..|]. rewrite Hids.
    destruct Hcases as [-> | (p & Hp & ->)]; [done|].
    rewrite <- list_fmap_compose. apply list_fmap_ext.
    intros i u _. simpl. by case_decide.
Qed.

(** The attack pass runs to its end and takes from the player's HP the
    damage of every enemy that strikes. *)
Lemma attack_pass_sum (level : LevelData) (units : list Unit)
    (playerUnit : Unit) (moved order : list Unit) :
  inGrid level playerUnit →
  Forall (inGrid level) moved →
  (∀ foe, foe ∈ order → id foe ∈ id <$> moved) →
  ∀ playerHp,
    forEachM (attackPlayer (initGrid level units) playerUnit moved) order playerHp
    = Some (playerHp
            - totalDamage (initGrid level units) playerUnit moved order).
Proof.
  intros Hpl Hmoved. unfold totalDamage.
  induction order as [|foe order IH]; intros Hids playerHp; cbn [forEachM].
  { simpl. f_equal. lia. }
  assert (∀ foe', foe' ∈ order → id foe' ∈ id <$> moved) as Hids'
    by (intros; apply Hids; by right).
  rewrite filter_cons.
  destruct (isStunned foe) eqn:Hst.
  { rewrite attackPlayer_stunned by done. cbn [mbind option_bind].
    rewrite decide_False by (unfold attacks; intros [? _]; congruence).
    by apply IH. }
  assert (∀ h, attackPlayer (initGrid level units) playerUnit moved h foe
               = Some (h - if decide (attacks (initGrid level units) playerUnit
                                              moved foe)
                           then damageOf moved foe else 0)) as Hstep.
  { intros h. unfold attackPlayer. rewrite Hst.
    destruct (list_elem_of_fmap_1 _ _ _ (Hids foe ltac:(by left)))
      as (v & Hv & Hvin).
    destruct (list_find_elem_of (λ u, id u = id foe) moved v Hvin (eq_sym Hv))
      as [[i updated] Hfind].
    assert (inGrid level updated) as Hupd.
    { apply list_find_Some in Hfind as (Hl & _).
      rewrite Forall_forall in Hmoved. eauto using list_elem_of_lookup_2. }
    rewrite Hfind. cbn [fmap option_fmap option_map snd mbind option_bind].
    destruct (decide (attacks (initGrid level units) playerUnit moved foe))
      as [Hatt|Hatt]; unfold attacks, damageOf in *; rewrite Hfind in *;
      cbn [fmap option_fmap option_map snd] in *.
    - destruct Hatt as (_ & Hr & Hlos).
      rewrite decide_True by done. by rewrite Hlos.
    - case_decide as Hr; [|f_equal; lia].
      destruct (hasLineOfSight_total level units (position updated)
                  (position playerUnit) Hupd Hpl) as [los Hlos].
      rewrite Hlos in *. cbn [mbind option_bind].
      destruct los; [by destruct Hatt | f_equal; lia]. }
  rewrite Hstep. cbn [mbind option_bind]. rewrite IH by done.
  case_decide; cbn [fmap list_fmap foldr]; f_equal; lia.
Qed.

(** C10.  The enemy phase of a roster inside the grid, with a player unit
    and at least one enemy.  The enemies are put in ascending order of their
    distance to the player, taken on the positions the phase starts with.
    The movement pass walks the enemies that are not stunned in that order
    and runs to its end, giving the roster [moved]; only then the attack
    pass walks the same enemies in the same order, each test being made on
    [moved]; it takes the damage of all that strike from the player's HP;
    and only then the units without HP are removed. *)
Theorem enemy_phase_order (level : LevelData) (units : list Unit)
    (pi : nat) (playerUnit : Unit) :
  Forall (inGrid level) units →
  list_find (λ u, team u = player) units = Some (pi, playerUnit) →
  filter (λ u, team u = enemy) units ≠ [] →
  let grid := initGrid level units in
  let order :=
    sortBy (distanceTo playerUnit) (filter (λ u, team u = enemy) units) in
  let active := filter (λ e, isStunned e = false) order in
  StronglySorted (λ a b, distanceTo playerUnit a ≤ distanceTo playerUnit b) order
  ∧ order ≡ₚ filter (λ u, team u = enemy) units
  ∧ ∃ moved,
      forEachM (moveEnemy (gridSize level) units grid playerUnit) active units
      = Some moved
      ∧ forEachM (attackPlayer grid playerUnit moved) active (hp playerUnit)
        = Some (hp playerUnit - totalDamage grid playerUnit moved active)
      ∧ enemyBatch (gridSize level) units grid
        = Some (alive
                  ((λ u, if decide (team u = player)
                         then with_hp u (hp playerUnit
                                         - totalDamage grid playerUnit moved active)
                         else u) <$> moved)).
Proof.
  intros Hin Hfind Hne grid order active.
  split; [apply sortBy_sorted|]. split; [apply sortBy_Permutation|].
  assert (playerUnit ∈ units) as Hpl_in.
  { apply list_find_Some in Hfind as (Hl & _). eauto using list_elem_of_lookup_2. }
  rewrite Forall_forall in Hin.
  assert (inGrid level playerUnit) as Hpl by auto.
  assert (∀ foe, foe ∈ active → foe ∈ units) as Hact.
  { intros foe Hfoe. unfold active in Hfoe.
    apply list_elem_of_filter in Hfoe as [_ Hfoe].
    unfold order in Hfoe. rewrite sortBy_Permutation in Hfoe.
    by apply list_elem_of_filter in Hfoe as [_ Hfoe]. }
  destruct (move_pass_spec level units playerUnit
              (λ p, outOfBounds (gridSize level) p = false) active Hpl)
    with (newUnits := units) as (moved & Hmove & Hmoved & Hids).
  { apply Forall_forall. auto. }
  { by intros p [? _]. }
  { apply Forall_forall. intros foe Hfoe. by apply Hin, Hact. }
  { apply Forall_forall. intros u Hu. by apply Hin. }
  exists moved. split; [exact Hmove|].
  assert (forEachM (attackPlayer grid playerUnit moved) active (hp playerUnit)
          = Some (hp playerUnit - totalDamage grid playerUnit moved active))
    as Hattack.
  { apply attack_pass_sum; [done | done |].
    intros foe Hfoe. rewrite Hids. by apply list_elem_of_fmap_2, Hact. }
  split; [exact Hattack|].
  unfold enemyBatch. rewrite Hfind.
  cbn [fmap option_fmap option_map snd].
  rewrite decide_True
    by (destruct (filter (λ u, team u = enemy) units); [done | simpl; lia]).
  change (sortBy _ (filter (λ u, team u = enemy) units)) with order.
  rewrite move_pass_active. fold active. fold grid in Hmove |- *. rewrite Hmove.
  cbn [mbind option_bind].
  rewrite attack_pass_active. fold active. rewrite Hattack.
  done.
Qed.

Lemma enemy_phase_order_witness :
  let level := forestAmbush in
  let units := ambushHeroAdvanced in
  let playerUnit := hero (mkPosition 4 7) in
  let grid := initGrid level units in
  let order :=
    sortBy (distanceTo playerUnit) (filter (λ u, team u = enemy) units) in
  let active := filter (λ e, isStunned e = false) order in
  StronglySorted (λ a b, distanceTo playerUnit a ≤ distanceTo playerUnit b) order
  ∧ order ≡ₚ filter (λ u, team u = enemy) units
  ∧ ∃ moved,
      forEachM (moveEnemy (gridSize level) units grid playerUnit) active units
      = Some moved
      ∧ forEachM (attackPlayer grid playerUnit moved) active (hp playerUnit)
        = Some (hp playerUnit - totalDamage grid playerUnit moved active)
      ∧ enemyBatch (gridSize level) units grid
        = Some (alive
                  ((λ u, if decide (team u = player)
                         then with_hp u (hp playerUnit
                                         - totalDamage grid playerUnit moved active)
                         else u) <$> moved)).
Proof.
  intros level units playerUnit.
  apply (enemy_phase_order level units 0%nat playerUnit).
  - apply (bool_decide_unpack _). vm_compute. exact I.
  - vm_compute. reflexivity.
  - vm_compute. discriminate.
Defined.

(** ** Rosters at rest *)

Lemma Forall_alive (P : Unit → Prop) (l : list Unit) :
  Forall P l → Forall P (alive l).
Proof.
  rewrite !Forall_forall. intros H u Hu%elem_of_alive. apply H, Hu.
Qed.

(** The cells of the knockback path lie between the target's cell and the
    destination of the push. *)
Lemma knockback_path_inside (n : Z) (attacker target : Unit) (cp : Position) :
  outOfBounds n (position target) = false →
  outOfBounds n (pushPosition attacker target) = false →
  cp ∈ getKnockbackPath (position target) (pushPosition attacker target) →
  outOfBounds n cp = false.
Proof.
  intros [Htx Hty]%outOfBounds_false [Hpx Hpy]%outOfBounds_false.
  rewrite knockback_path_steps. unfold pushPosition in *. simpl in *.
  rewrite !elem_of_cons, elem_of_nil.
  intros [-> | [-> | []]]; apply outOfBounds_false; simpl; lia.
Qed.

(** The bash keeps the roster at rest. *)
Lemma executeShieldBash_settled (level : LevelData) (attacker target : Unit)
    (prev : list Unit) :
  Forall (settled level) prev → target ∈ prev →
  Forall (settled level) (executeShieldBash level attacker target prev).1.
Proof.
  intros Hprev Htgt. unfold executeShieldBash.
  destruct (list_find (λ u, id u = id target) prev) as [[ti tu]|] eqn:Hfind;
    [|by apply Forall_alive].
  case_decide; [by apply Forall_alive|].
  fold (pushPosition attacker target).
  destruct (outOfBounds (gridSize level) (pushPosition attacker target)) eqn:Hoob;
    [by apply Forall_alive, Forall_delete|].
  fold (firstCollision level attacker target prev).
  cbn [fst]. apply Forall_alive.
  assert (settled level target) as Hst by (rewrite Forall_forall in Hprev; auto).
  destruct (firstCollision level attacker target prev) as [cp|] eqn:Hcp.
  - assert (outOfBounds (gridSize level) cp = false) as Hcpin.
    { unfold firstCollision in Hcp.
      apply fmap_Some in Hcp as ([j q] & Hf & ->).
      apply list_find_Some in Hf as (Hl & _).
      eapply knockback_path_inside; [apply Hst | exact Hoob |].
      eauto using list_elem_of_lookup_2. }
    unfold resolveCollision. case_decide as Hm.
    { apply Forall_insert; [done|]. split; simpl; [done | congruence]. }
    destruct (unit_collision_hit level attacker target prev cp Hcp Hm)
      as (hi & hu & Hhit).
    rewrite Hhit.
    assert (settled level hu) as Hhu.
    { apply list_find_Some in Hhit as (Hl & _).
      rewrite Forall_forall in Hprev. eauto using list_elem_of_lookup_2. }
    assert (settled level (stunned_at tu (position hu))) as Hnew by done.
    destruct (decide (emoji target = SHIELD ∧ emoji hu = BOW));
      [by apply Forall_delete, Forall_insert|].
    destruct (decide (emoji hu = SHIELD ∧ emoji target = BOW));
      [by apply Forall_delete, Forall_insert|].
    cbv zeta.
    set (dest := mkPosition (x cp + _ * 2) (y cp + _ * 2)).
    destruct (outOfBounds (gridSize level) dest) eqn:Hd; cbn [negb andb orb fst].
    { by apply Forall_delete, Forall_insert. }
    case_bool_decide as Hw; cbn [fst].
    { by apply Forall_delete, Forall_insert. }
    apply Forall_insert; [by apply Forall_insert|]. by split.
  - unfold resolveFreePath.
    destruct (mapSetup level (x (pushPosition attacker target))
                (y (pushPosition attacker target))) eqn:Ht; cbn [fst].
    + apply Forall_insert; [done|]. split; [exact Hoob|].
      change (mapSetup level (x (pushPosition attacker target))
                (y (pushPosition attacker target)) ≠ water). congruence.
    + apply Forall_insert; [done|]. split; [exact Hoob|].
      change (mapSetup level (x (pushPosition attacker target))
                (y (pushPosition attacker target)) ≠ water). congruence.
    + by apply Forall_delete.
    + apply Forall_insert; [done|]. split; [exact Hoob|].
      change (mapSetup level (x (pushPosition attacker target))
                (y (pushPosition attacker target)) ≠ water). congruence.
Qed.

(** The direct attack keeps the roster at rest. *)
Lemma executeAttack_settled (level : LevelData) (attacker target : Unit)
    (prev : list Unit) :
  Forall (settled level) prev →
  Forall (settled level) (executeAttack attacker target prev).
Proof.
  intros Hprev. unfold executeAttack. apply Forall_alive, Forall_fmap.
  eapply Forall_impl; [exact Hprev|]. intros u Hu. simpl. by case_decide.
Qed.

(** The enemy phase returns and keeps the roster at rest. *)
Lemma enemyBatch_settled (level : LevelData) (units : list Unit) :
  Forall (settled level) units →
  ∃ res, enemyBatch (gridSize level) units (initGrid level units) = Some res
         ∧ Forall (settled level) res.
Proof.
  intros Hunits. unfold enemyBatch.
  destruct (list_find (λ u, team u = player) units) as [[pi playerUnit]|] eqn:Hfind;
    cbn [fmap option_fmap option_map snd]; [|eauto].
  case_decide as Hlen; [|eauto].
  pose proof Hunits as Hall. rewrite Forall_forall in Hall.
  assert (playerUnit ∈ units) as Hpl_in.
  { apply list_find_Some in Hfind as (Hl & _). eauto using list_elem_of_lookup_2. }
  set (order := sortBy _ _).
  assert (∀ foe, foe ∈ order → foe ∈ units) as Hord.
  { intros foe Hfoe. unfold order in Hfoe. rewrite sortBy_Permutation in Hfoe.
    by apply list_elem_of_filter in Hfoe as [_ Hfoe]. }
  destruct (move_pass_spec level units playerUnit (dry level) order)
    with (newUnits := units) as (moved & Hmove & Hmoved & Hids).
  { apply Hall, Hpl_in. }
  { apply Forall_forall. intros foe Hfoe. apply Hall, Hord, Hfoe. }
  { by intros p (? & ? & _). }
  { apply Forall_forall. intros foe Hfoe. apply Hall, Hord, Hfoe. }
  { done. }
  rewrite Hmove. cbn [mbind option_bind].
  rewrite (attack_pass_sum level units playerUnit moved order).
  - cbn [mbind option_bind]. eexists. split; [done|].
    apply Forall_alive, Forall_fmap.
    eapply Forall_impl; [exact Hmoved|]. intros u Hu. simpl. by case_decide.
  - apply Hall, Hpl_in.
  - eapply Forall_impl; [exact Hmoved|]. by intros u [? _].
  - intros foe Hfoe. rewrite Hids. by apply list_elem_of_fmap_2, Hord.
Qed.

(** ** The board *)


Lemma tile_unit_in_roster (level : LevelData) (us : list Unit) (cx cy : Z)
    (t : TileData) (u : Unit) :
  tileAt (initGrid level us) cx cy = Some t → tile_unit t = Some u → u ∈ us.
Proof.
  intros (_ & _ & Hu)%tileAt_initGrid_inv. rewrite Hu.
  intros ([i v] & (Hl & _)%list_find_Some & ->)%fmap_Some.
  eauto using list_elem_of_lookup_2.
Qed.

Lemma forEachM_total {A S : Type} (f : S → A → option S) (l : list A) :
  (∀ s a, a ∈ l → is_Some (f s a)) → ∀ s, is_Some (forEachM f l s).
Proof.
  induction l as [|a l IH]; intros Hf s; simpl; [eauto|].
  destruct (Hf s a ltac:(by left)) as [s' ->]. simpl.
  apply IH. intros. apply Hf. by right.
Qed.

(** [getValidTargets] returns on a roster inside the grid. *)
Lemma getValidTargets_total (level : LevelData) (gunits allUnits : list Unit)
    (attacker : Unit) :
  inGrid level attacker → Forall (inGrid level) allUnits →
  is_Some (getValidTargets attacker (initGrid level gunits) allUnits).
Proof.
  intros Hatt Hall. unfold getValidTargets. apply forEachM_total.
  intros targets target Htarget. rewrite Forall_forall in Hall.
  repeat case_decide; eauto.
  destruct (hasLineOfSight_total level gunits (position attacker)
              (position target) Hatt (Hall _ Htarget)) as [los ->].
  simpl. destruct los; eauto.
Qed.

Lemma settled_inGrid (level : LevelData) (u : Unit) :
  settled level u → inGrid level u.
Proof. by intros [? _]. Qed.

(** The click on a target keeps the board well formed. *)
Lemma handleAttackClick_ok (level : LevelData) (s : Board) (tile : TileData)
    (selectedUnit : Unit) :
  board_ok level s →
  (∀ u, tile_unit tile = Some u → u ∈ units s) →
  board_ok level (handleAttackClick level s tile selectedUnit).
Proof.
  intros (Hunits & Hmoves & Hsel & Hturn) Htile. unfold handleAttackClick.
  destruct (tile_unit tile) as [targetUnit|]; [|done].
  destruct (_ && _); [|done].
  split_and!; simpl; [|done..].
  destruct (selectedAction s).
  - by apply executeAttack_settled.
  - apply executeShieldBash_settled; auto.
Qed.

(** The click on a valid move returns and keeps the board well formed. *)
Lemma handleMoveClick_ok (level : LevelData) (s : Board) (tile : TileData) :
  board_ok level s → currentTurn s = player →
  ∃ r, handleMoveClick level s tile = Some r
       ∧ ∀ s', r = Some s' → board_ok level s'.
Proof.
  intros (Hunits & Hmoves & Hsel & Hturn) Hplayer. unfold handleMoveClick.
  destruct (selectedUnitId s) as [sel|] eqn:Hs; [|by eexists].
  destruct (bool_decide (sel ≠ EmptyString) && negb (hasMoved s)
            && bool_decide (Exists (isAt tile) (validMoves s))) eqn:Hcond;
    [|by eexists].
  apply andb_prop in Hcond as [_ Hvalid]. apply bool_decide_eq_true in Hvalid.
  assert (dry level (tile_position tile)) as Hdry.
  { apply Exists_exists in Hvalid as (p & Hp & [Hx Hy]).
    rewrite Forall_forall in Hmoves.
    replace (tile_position tile) with p by by apply position_eta. auto. }
  cbv zeta.
  set (newUnits := (λ u, if decide (id u = sel)
                         then with_position u (tile_position tile) else u)
                   <$> units s).
  assert (Forall (settled level) newUnits) as Hnew.
  { apply Forall_fmap. eapply Forall_impl; [exact Hunits|].
    intros u Hu. simpl. by case_decide. }
  assert (id <$> newUnits = id <$> units s) as Hids.
  { unfold newUnits. rewrite <- list_fmap_compose. apply list_fmap_ext.
    intros i u _. simpl. by case_decide. }
  destruct (list_elem_of_fmap_1 id newUnits sel) as (v & Hv & Hvin);
    [rewrite Hids; auto|].
  destruct (list_find_elem_of (λ u, id u = sel) newUnits v Hvin (eq_sym Hv))
    as [[i movedUnit] Hfind].
  rewrite Hfind. cbn [fmap option_fmap option_map snd].
  assert (movedUnit ∈ newUnits) as Hmin.
  { apply list_find_Some in Hfind as (Hl & _). eauto using list_elem_of_lookup_2. }
  destruct (getValidTargets_total level (units s) newUnits movedUnit)
    as [targets Htargets].
  { rewrite Forall_forall in Hnew. by apply settled_inGrid, Hnew. }
  { eapply Forall_impl; [exact Hnew|]. apply settled_inGrid. }
  unfold grid. rewrite Htargets. cbn [mbind option_bind].
  case_decide; eexists; (split; [done|]); intros s' [= <-];
    split_and!; simpl; try done.
  intros sel' Hsel'. rewrite Hids. apply Hsel. congruence.
Qed.

(** The click that selects returns and keeps the board well formed. *)
Lemma handleSelectClick_ok (level : LevelData) (s : Board) (tile : TileData) :
  board_ok level s → currentTurn s = player →
  (∀ u, tile_unit tile = Some u → u ∈ units s) →
  ∃ s', handleSelectClick level s tile = Some s' ∧ board_ok level s'.
Proof.
  intros Hok Hplayer Htile. pose proof Hok as (Hunits & Hmoves & Hsel & Hturn).
  unfold handleSelectClick.
  assert (board_ok level
            (mkBoard (units s) None [] (currentTurn s) (hasMoved s)
                     (validTargets s) (selectedAction s) (gameState s)))
    as Hdes by (split_and!; simpl; done).
  destruct (tile_unit tile) as [u|]; [|destruct (negb _); eauto].
  destruct (negb (hasMoved s) && bool_decide (team u = player));
    [|destruct (negb _); eauto].
  destruct (isStunned u) eqn:Hst; [eauto|].
  assert (u ∈ units s) as Hu by auto.
  destruct (getValidMoves_spec level (units s) (units s) u) as (moves & Hrun & Hcells & _).
  { right. rewrite Forall_forall in Hunits. by apply settled_inGrid, Hunits. }
  { done. }
  unfold grid. rewrite Hrun. cbn [mbind option_bind].
  eexists. split; [done|]. split_and!; simpl; try done.
  - eapply Forall_impl; [exact Hcells|]. by intros c ((? & ? & _) & _).
  - intros sel [= <-]. by apply list_elem_of_fmap_2.
  - intros Hen. congruence.
Qed.

Lemma handleTileClick_ok (level : LevelData) (s : Board) (cx cy : Z)
    (tile : TileData) :
  board_ok level s →
  tileAt (grid level s) cx cy = Some tile →
  ∃ s', handleTileClick level s tile = Some s' ∧ board_ok level s'.
Proof.
  intros Hok Htile. unfold handleTileClick.
  case_decide as Hturn; [eauto|].
  assert (currentTurn s = player) as Hplayer
    by (destruct (currentTurn s); [done | by destruct Hturn]).
  assert (∀ u, tile_unit tile = Some u → u ∈ units s) as Hin
    by (intros u; by eapply tile_unit_in_roster).
  assert (∃ s', (moved ← handleMoveClick level s tile;
                 match moved with
                 | Some s' => Some s'
                 | None => handleSelectClick level s tile
                 end) = Some s' ∧ board_ok level s') as Hrest.
  { destruct (handleMoveClick_ok level s tile Hok Hplayer) as (r & -> & Hr).
    cbn [mbind option_bind]. destruct r as [s'|]; [eauto|].
    by apply handleSelectClick_ok. }
  cbv zeta.
  destruct (snd <$> list_find _ (units s)) as [selectedUnit|]; [|exact Hrest].
  destruct (hasMoved s); [|exact Hrest].
  eexists. split; [done|]. by apply handleAttackClick_ok.
Qed.

Lemma enemyPhase_ok (level : LevelData) (s : Board) :
  board_ok level s →
  ∃ s', enemyPhase level s = Some s' ∧ board_ok level s'.
Proof.
  intros Hok. pose proof Hok as (Hunits & Hmoves & Hsel & Hturn).
  unfold enemyPhase. case_decide as Hen; [|eauto].
  destruct (enemyBatch_settled level (units s) Hunits) as (res & Hres & Hsettled).
  unfold grid. rewrite Hres. cbn [mbind option_bind].
  eexists. split; [done|]. destruct Hen as [Hen _].
  split_and!; simpl; try done.
  intros sel Hs. rewrite (Hturn Hen) in Hs. done.
Qed.

Lemma effects_ok (level : LevelData) (s : Board) :
  board_ok level s →
  board_ok level (checkOutcome s) ∧ board_ok level (clearStun s).
Proof.
  intros Hok. pose proof Hok as (Hunits & Hmoves & Hsel & Hturn).
  unfold checkOutcome, clearStun. split.
  - repeat (case_decide || case_match); done.
  - case_decide; [|done]. split_and!; simpl; try done.
    + apply Forall_fmap. eapply Forall_impl; [exact Hunits|]. done.
    + intros sel Hs. rewrite <- list_fmap_compose. by apply Hsel.
Qed.

(** A target pushed along a free path onto water leaves the roster. *)
Lemma water_destination_eliminates (level : LevelData)
    (attacker target : Unit) (prev : list Unit) :
  unique_ids prev → target ∈ prev → 0 < hp target →
  outOfBounds (gridSize level) (pushPosition attacker target) = false →
  firstCollision level attacker target prev = None →
  mapSetup level (x (pushPosition attacker target))
                 (y (pushPosition attacker target)) = water →
  ∀ u, u ∈ (executeShieldBash level attacker target prev).1 → id u ≠ id target.
Proof.
  intros Hids Htgt Hhp Hin Hcp Hw u.
  destruct (find_target prev target Hids Htgt) as (ti & Hfind & Hti).
  unfold executeShieldBash. rewrite Hfind. rewrite decide_False by lia.
  fold (pushPosition attacker target). rewrite Hin.
  fold (firstCollision level attacker target prev). rewrite Hcp.
  unfold resolveFreePath. rewrite Hw. cbn [fst].
  rewrite elem_of_alive, (elem_of_delete_by_id prev ti target) by done.
  naive_solver.
Qed.

(** C3, as stated, fails on the code: [sb1], bashed from (2,2) towards the
    mountain of (2,3), comes to rest on that mountain. *)
Lemma bashed_unit_rests_on_mountain :
  mapSetup mountainPass 2 3 = mountain
  ∧ (executeShieldBash mountainPass (hero (mkPosition 2 1))
       (shieldbearer "sb1" "Undead Shieldbearer" 50 (mkPosition 2 2))
       passHeroNorth).1 !! 1%nat
    = Some (mkUnit "sb1" "Undead Shieldbearer" (mkPosition 2 3) 49 50 2 1 1
                   enemy SHIELD (Some true)).
Proof. split; vm_compute; reflexivity. Qed.

(** C3, amended.  On a well-formed board,
    every operation (a click that selects, moves, attacks or bashes, the
    enemy phase, the two housekeeping effects) returns a well-formed board:
    every unit of the roster is inside the grid and its cell is not water.
    A target pushed along a free path onto water is removed from the
    roster.  Mountain is left out: a bashed unit stops on the mountain it
    hits. *)
Theorem roster_in_grid_off_water (level : LevelData) (s : Board) :
  board_ok level s →
  (∀ cx cy tile, tileAt (grid level s) cx cy = Some tile →
     ∃ s', handleTileClick level s tile = Some s'
           ∧ board_ok level s'
           ∧ Forall (settled level) (units s'))
  ∧ (∃ s', enemyPhase level s = Some s'
           ∧ board_ok level s'
           ∧ Forall (settled level) (units s'))
  ∧ board_ok level (checkOutcome s)
  ∧ board_ok level (clearStun s)
  ∧ (∀ attacker target,
       unique_ids (units s) → target ∈ units s → 0 < hp target →
       outOfBounds (gridSize level) (pushPosition attacker target) = false →
       firstCollision level attacker target (units s) = None →
       mapSetup level (x (pushPosition attacker target))
                      (y (pushPosition attacker target)) = water →
       ∀ u, u ∈ (executeShieldBash level attacker target (units s)).1 →
            id u ≠ id target).
Proof.
  intros Hok. split_and!.
  - intros cx cy tile Htile.
    destruct (handleTileClick_ok level s cx cy tile Hok Htile) as (s' & ? & Hs').
    exists s'. split_and!; [done..|]. apply Hs'.
  - destruct (enemyPhase_ok level s Hok) as (s' & ? & Hs').
    exists s'. split_and!; [done..|]. apply Hs'.
  - by apply effects_ok.
  - by apply effects_ok.
  - intros attacker target. apply water_destination_eliminates.
Qed.

(** The boards the three levels start with are well formed. *)
Lemma initialBoard_ok :
  board_ok forestAmbush (initialBoard forestAmbush)
  ∧ board_ok mountainPass (initialBoard mountainPass)
  ∧ board_ok crossfire (initialBoard crossfire).
Proof.
  split_and!; (split_and!; simpl;
    [ apply (bool_decide_unpack _); vm_compute; exact I
    | constructor | intros sel [=] | done ]).
Qed.

Lemma roster_in_grid_off_water_witness :
  let level := mountainPass in
  let s := initialBoard mountainPass in
  (∀ cx cy tile, tileAt (grid level s) cx cy = Some tile →
     ∃ s', handleTileClick level s tile = Some s'
           ∧ board_ok level s'
           ∧ Forall (settled level) (units s'))
  ∧ (∃ s', enemyPhase level s = Some s'
           ∧ board_ok level s'
           ∧ Forall (settled level) (units s'))
  ∧ board_ok level (checkOutcome s)
  ∧ board_ok level (clearStun s)
  ∧ (∀ attacker target,
       unique_ids (units s) → target ∈ units s → 0 < hp target →
       outOfBounds (gridSize level) (pushPosition attacker target) = false →
       firstCollision level attacker target (units s) = None →
       mapSetup level (x (pushPosition attacker target))
                      (y (pushPosition attacker target)) = water →
       ∀ u, u ∈ (executeShieldBash level attacker target (units s)).1 →
            id u ≠ id target).
Proof.
  intros level s.
  apply (roster_in_grid_off_water level s).
  split_and!; simpl.
  - apply (bool_decide_unpack _). vm_compute. exact I.
  - constructor.
  - intros sel [=].
  - done.
Defined.

(** * Further properties of the board *)

(** ** The grid *)

Lemma tileAt_initGrid_eq (level : LevelData) (units : list Unit) (cx cy : Z) :
  tileAt (initGrid level units) cx cy =
    if outOfBounds (gridSize level) (mkPosition cx cy) then None
    else Some (mkTile (mkPosition cx cy) (mapSetup level cx cy)
                      (snd <$> list_find (at_cell (mkPosition cx cy)) units)).
Proof.
  destruct (outOfBounds (gridSize level) (mkPosition cx cy)) eqn:Hout.
  - destruct (tileAt (initGrid level units) cx cy) as [t|] eqn:Ht; [|done].
    apply tileAt_initGrid_inv in Ht as (Hin & _). congruence.
  - apply outOfBounds_false in Hout. simpl in Hout.
    unfold tileAt, initGrid.
    rewrite index_fmap_seqZ by lia. cbn [mbind option_bind].
    rewrite index_fmap_seqZ by lia. done.
Qed.

(** X1 (grid construction).  Reading the grid built from a level and a
    roster at column [cx] of row [cy] gives, inside the grid, the tile that
    carries these coordinates, the terrain of the level there and the first
    unit of the roster standing there (none when no unit does); outside the
    grid the read fails.  So a tile shows a unit exactly when a unit of the
    roster stands on its cell, and a unit standing outside the grid is on no
    tile. *)
Theorem grid_tile_lookup (level : LevelData) (units : list Unit) (cx cy : Z) :
  tileAt (initGrid level units) cx cy
  = (if outOfBounds (gridSize level) (mkPosition cx cy) then None
     else Some (mkTile (mkPosition cx cy) (mapSetup level cx cy)
                       (snd <$> list_find (at_cell (mkPosition cx cy)) units)))
  ∧ ∀ t, tileAt (initGrid level units) cx cy = Some t →
         (is_Some (tile_unit t) ↔ Exists (at_cell (mkPosition cx cy)) units)
         ∧ ∀ u, tile_unit t = Some u → u ∈ units ∧ at_cell (mkPosition cx cy) u.
Proof.
  split; [apply tileAt_initGrid_eq|].
  intros t. rewrite tileAt_initGrid_eq.
  destruct (outOfBounds (gridSize level) (mkPosition cx cy)); [done|].
  intros [= <-]. cbn [tile_unit]. split.
  - rewrite Exists_exists. split.
    + intros [u Hu]. apply fmap_Some in Hu as ([i v] & Hf & ->).
      apply list_find_Some in Hf as (Hl & Hat & _).
      exists v. eauto using list_elem_of_lookup_2.
    + intros (u & Hu & Hat).
      destruct (list_find_elem_of (at_cell (mkPosition cx cy)) units u Hu Hat)
        as [[i v] ->].
      by eexists.
  - intros u Hu. apply fmap_Some in Hu as ([i v] & Hf & ->).
    apply list_find_Some in Hf as (Hl & Hat & _).
    eauto using list_elem_of_lookup_2.
Qed.

Lemma grid_tile_lookup_witness :
  tileAt (initGrid forestAmbush (levelUnits forestAmbush)) 4 9
  = Some (mkTile (mkPosition 4 9) plains (Some (hero (mkPosition 4 9))))
  ∧ (is_Some (Some (hero (mkPosition 4 9)))
     ↔ Exists (at_cell (mkPosition 4 9)) (levelUnits forestAmbush))
  ∧ hero (mkPosition 4 9) ∈ levelUnits forestAmbush
  ∧ at_cell (mkPosition 4 9) (hero (mkPosition 4 9)).
Proof.
  destruct (grid_tile_lookup forestAmbush (levelUnits forestAmbush) 4 9)
    as [Heq Hunit].
  split; [exact Heq|].
  destruct (Hunit (mkTile (mkPosition 4 9) plains (Some (hero (mkPosition 4 9))))
              Heq) as [Hiff Hin].
  split; [exact Hiff|]. apply Hin. reflexivity.
Defined.

(** ** Line of sight *)

Lemma tile_terrain_any_roster (level : LevelData) (us1 us2 : list Unit)
    (cx cy : Z) :
  terrain <$> tileAt (initGrid level us1) cx cy
  = terrain <$> tileAt (initGrid level us2) cx cy.
Proof.
  rewrite !tileAt_initGrid_eq.
  by destruct (outOfBounds (gridSize level) (mkPosition cx cy)).
Qed.

Lemma losLoop_any_roster (level : LevelData) (us1 us2 : list Unit)
    (start end_ : Position) (dx dy sx sy : Z) (fuel : nat) :
  ∀ x0 y0 err,
    losLoop fuel (initGrid level us1) start end_ dx dy sx sy x0 y0 err
    = losLoop fuel (initGrid level us2) start end_ dx dy sx sy x0 y0 err.
Proof.
  induction fuel as [|fuel IH]; intros x0 y0 err; [done|].
  cbn [losLoop].
  destruct (decide (x0 = x end_ ∧ y0 = y end_)); [done|].
  pose proof (tile_terrain_any_roster level us1 us2 x0 y0) as Ht.
  destruct (decide (¬ (x0 = x start ∧ y0 = y start))).
  - destruct (tileAt (initGrid level us1) x0 y0) as [t1|],
             (tileAt (initGrid level us2) x0 y0) as [t2|];
      simpl in Ht; try discriminate; [|done].
    injection Ht as Ht. cbn [mbind option_bind]. rewrite Ht.
    destruct (bool_decide (terrain t2 = mountain)); [done|].
    destruct (decide (2 * err > - dy)), (decide (2 * err < dx)); apply IH.
  - cbn [mbind option_bind].
    destruct (decide (2 * err > - dy)), (decide (2 * err < dx)); apply IH.
Qed.

(** X2 (line of sight, termination and frame).  For two cells inside the
    grid the trace of [hasLineOfSight] always ends with a verdict, and the
    verdict is the same whatever units stand on the board: only terrain
    blocks sight. *)
Theorem sight_ignores_units (level : LevelData) (a b : Position) :
  outOfBounds (gridSize level) a = false →
  outOfBounds (gridSize level) b = false →
  ∃ r, ∀ units, hasLineOfSight a b (initGrid level units) = Some r.
Proof.
  intros Ha Hb.
  destruct (hasLineOfSight_total level [] a b Ha Hb) as [r Hr].
  exists r. intros units. rewrite <- Hr.
  unfold hasLineOfSight. apply losLoop_any_roster.
Qed.

Lemma sight_ignores_units_witness :
  ∃ r, ∀ units,
    hasLineOfSight (mkPosition 1 3) (mkPosition 4 9) (initGrid forestAmbush units)
    = Some r.
Proof. apply (sight_ignores_units forestAmbush); reflexivity. Defined.

(** X3 (line of sight along a line).  For two cells inside the grid that
    share a row, a column or a diagonal, there is line of sight exactly when
    no cell strictly between them is a mountain; the terrain of the two end
    cells plays no part. *)
Theorem sight_along_a_line (level : LevelData) (units : list Unit)
    (a b : Position) :
  outOfBounds (gridSize level) a = false →
  outOfBounds (gridSize level) b = false →
  aligned a b →
  (clear_between level a b →
   hasLineOfSight a b (initGrid level units) = Some true)
  ∧ (¬ clear_between level a b →
     hasLineOfSight a b (initGrid level units) = Some false).
Proof.
  intros Ha Hb Hal.
  destruct (hasLineOfSight_aligned level units a b Ha Hb Hal) as (r & -> & Hr).
  split; intros Hc.
  - f_equal. by apply Hr.
  - f_equal. destruct r; [|done]. destruct Hc. by apply Hr.
Qed.

Lemma sight_along_a_line_witness :
  let level := forestAmbush in
  let a := mkPosition 4 3 in
  let b := mkPosition 4 8 in
  (clear_between level a b →
   hasLineOfSight a b (initGrid level (levelUnits level)) = Some true)
  ∧ (¬ clear_between level a b →
     hasLineOfSight a b (initGrid level (levelUnits level)) = Some false).
Proof.
  intros level a b.
  apply (sight_along_a_line level (levelUnits level) a b);
    [reflexivity | reflexivity | left; reflexivity].
Defined.

Lemma hasLineOfSight_touching (currentGrid : list (list TileData))
    (a b : Position) :
  touching a b → hasLineOfSight a b currentGrid = Some true.
Proof.
  destruct a as [xa ya], b as [xb yb]. unfold touching. simpl. intros [Hx Hy].
  assert (∃ vx, xb = xa + vx ∧ (vx = -1 ∨ vx = 0 ∨ vx = 1)) as (vx & -> & Hvx)
    by (exists (xb - xa); lia).
  assert (∃ vy, yb = ya + vy ∧ (vy = -1 ∨ vy = 0 ∨ vy = 1)) as (vy & -> & Hvy)
    by (exists (yb - ya); lia).
  unfold hasLineOfSight. cbn [x y].
  replace (xa + vx - xa) with vx by lia.
  replace (ya + vy - ya) with vy by lia.
  destruct Hvx as [-> | [-> | ->]], Hvy as [-> | [-> | ->]];
    repeat match goal with
           | |- context [Z.abs ?c] =>
               let v := eval vm_compute in (Z.abs c) in change (Z.abs c) with v
           end;
    repeat match goal with
           | |- context [Z.to_nat ?c] =>
               let v := eval vm_compute in (Z.to_nat c) in
               change (Z.to_nat c) with v
           end;
    cbn [losLoop x y];
    repeat (case_decide; try lia; cbn [mbind option_bind losLoop x y fst snd]);
    try reflexivity.
Qed.

(** X4 (line of sight between neighbours).  Two cells that touch, diagonals
    included, always see each other, in both directions, on any grid and
    whatever the terrain: the trace reads no tile. *)
Theorem touching_cells_in_sight (currentGrid : list (list TileData))
    (a b : Position) :
  touching a b →
  hasLineOfSight a b currentGrid = Some true
  ∧ hasLineOfSight b a currentGrid = Some true.
Proof.
  intros Hab. split; apply hasLineOfSight_touching; [done|].
  unfold touching in *. lia.
Qed.

Lemma touching_cells_in_sight_witness :
  hasLineOfSight (mkPosition 4 4) (mkPosition 5 5)
    (initGrid forestAmbush (levelUnits forestAmbush)) = Some true
  ∧ hasLineOfSight (mkPosition 5 5) (mkPosition 4 4)
      (initGrid forestAmbush (levelUnits forestAmbush)) = Some true.
Proof.
  apply (touching_cells_in_sight _ (mkPosition 4 4) (mkPosition 5 5)).
  unfold touching. simpl. lia.
Defined.

(** ** The direction of a strike *)

(** X5 (direction of a strike).  [calculateAttackDirection] tells the eight
    directions apart by the signs of the two coordinate differences and by
    nothing else: for two pairs of distinct cells it gives the same
    direction exactly when the signs agree.  For a cell and itself it gives
    the default, right. *)
Theorem attack_direction_reads_signs (a b a' b' : Position) :
  calculateAttackDirection a a = Direction.right
  ∧ (a ≠ b → a' ≠ b' →
     (calculateAttackDirection a b = calculateAttackDirection a' b'
      ↔ Z.sgn (x b - x a) = Z.sgn (x b' - x a')
        ∧ Z.sgn (y b - y a) = Z.sgn (y b' - y a'))).
Proof.
  split.
  - unfold calculateAttackDirection. repeat case_decide; try lia; done.
  - intros Hab Hab'.
    assert (x a ≠ x b ∨ y a ≠ y b) as Hd.
    { destruct (decide (x a = x b)); [|by left].
      right. intros Hy. apply Hab. by apply position_eta. }
    assert (x a' ≠ x b' ∨ y a' ≠ y b') as Hd'.
    { destruct (decide (x a' = x b')); [|by left].
      right. intros Hy. apply Hab'. by apply position_eta. }
    unfold calculateAttackDirection. cbv zeta.
    repeat case_decide; split; intros He; try discriminate He; try lia;
      try reflexivity.
Qed.

Lemma attack_direction_reads_signs_witness :
  calculateAttackDirection (mkPosition 4 8) (mkPosition 4 8) = Direction.right
  ∧ (calculateAttackDirection (mkPosition 4 8) (mkPosition 4 7)
     = calculateAttackDirection (mkPosition 2 6) (mkPosition 2 1)
     ↔ Z.sgn (4 - 4) = Z.sgn (2 - 2) ∧ Z.sgn (7 - 8) = Z.sgn (1 - 6)).
Proof.
  destruct (attack_direction_reads_signs
              (mkPosition 4 8) (mkPosition 4 7) (mkPosition 2 6) (mkPosition 2 1))
    as [H0 H1].
  split; [exact H0|]. apply H1; discriminate.
Defined.

(** ** The movement planner *)

(** The loop never lists a cell twice. *)
Lemma bfsLoop_NoDup (level : LevelData) (units gunits : list Unit)
    (unit : Unit) (sof : bool) (fuel : nat) :
  ∀ (queue : list Node) (visited : gset (Z * Z)) (valid res : list Position),
    NoDup (valid ++ (node_position <$> queue)) →
    (∀ p, p ∈ valid ++ (node_position <$> queue) → key p ∈ visited) →
    bfsLoop fuel (gridSize level) units unit (initGrid level gunits) sof
            queue visited valid = Some res →
    NoDup res.
Proof.
  induction fuel as [|fuel IH]; intros queue visited valid res Hnd Hvis Hrun;
    destruct queue as [|current rest]; cbn [bfsLoop] in Hrun;
    try discriminate Hrun.
  - injection Hrun as <-. simpl in Hnd. by rewrite app_nil_r in Hnd.
  - injection Hrun as <-. simpl in Hnd. by rewrite app_nil_r in Hnd.
  - destruct (forEachM _ _ _) as [qv'|] eqn:Hexp; [|discriminate Hrun].
    cbn [mbind option_bind] in Hrun.
    destruct (expand_effect _ _ _ _ _ _ _ _ _ (neighbors_NoDup _) Hexp)
      as (extra & Hq & Hs & Hne & Hin).
    simpl in Hq, Hs, Hin.
    apply (IH _ _ _ _) in Hrun; [done| |].
    + rewrite Hq, fmap_app, <- list_fmap_compose. simpl.
      rewrite list_fmap_id.
      assert (NoDup ((valid ++ [node_position current])
                     ++ (node_position <$> rest))) as Hnd'.
      { rewrite <- app_assoc. simpl. done. }
      assert (NoDup (valid ++ (node_position <$> rest))) as Hnd''.
      { apply NoDup_app in Hnd as (? & Hd & Hr). apply NoDup_cons in Hr as [_ ?].
        apply NoDup_app. split_and!; [done| |done].
        intros p Hp Hp'. apply (Hd p Hp). by right. }
      assert (∀ l, NoDup (l ++ (node_position <$> rest)) →
                   (∀ p, p ∈ l ++ (node_position <$> rest) → key p ∈ visited) →
                   NoDup (l ++ (node_position <$> rest) ++ extra)) as Hadd.
      { intros l Hl Hk. rewrite app_assoc. apply NoDup_app.
        split_and!; [done| |done].
        intros p Hp Hp'. apply Hin in Hp' as (_ & _ & Hfresh & _).
        by apply Hfresh, Hk. }
      case_decide.
      * apply Hadd; [done|].
        intros p Hp. apply Hvis. by rewrite <- app_assoc in Hp.
      * apply Hadd; [done|]. intros p Hp. apply Hvis.
        apply elem_of_app in Hp as [?|?]; apply elem_of_app; [by left|].
        right. simpl. by right.
    + intros p Hp. rewrite Hs, Hq in *.
      rewrite fmap_app, <- list_fmap_compose in Hp. simpl in Hp.
      rewrite list_fmap_id in Hp.
      assert (p ∈ extra ∨ p ∈ valid ++ (node_position <$> current :: rest))
        as [Hp' | Hp'].
      { apply elem_of_app in Hp as [Hp | Hp].
        - right. apply elem_of_app. case_decide; [|by left].
          apply elem_of_app in Hp as [? | ->%list_elem_of_singleton];
            [by left|].
          right. simpl. by left.
        - apply elem_of_app in Hp as [Hp | Hp]; [|by left].
          right. apply elem_of_app. right. simpl. by right. }
      * apply elem_of_union. left. apply elem_of_list_to_set.
        apply list_elem_of_fmap. by exists p.
      * apply elem_of_union. right. by apply Hvis.
Qed.

(** X6 (no cell twice).  The list of valid moves that the planner returns
    never holds a cell twice. *)
Theorem valid_moves_listed_once (level : LevelData) (units : list Unit)
    (unit : Unit) (cells : list Position) :
  getValidMoves (gridSize level) units unit (initGrid level units) = Some cells →
  NoDup cells.
Proof.
  unfold getValidMoves.
  destruct (isStunned unit); [intros [= <-]; constructor|].
  destruct (if decide (emoji unit ≠ BOW) then _ else _) as [sof|];
    [|discriminate].
  cbn [mbind option_bind]. intros Hrun.
  eapply bfsLoop_NoDup; [| |exact Hrun].
  - simpl. apply NoDup_singleton.
  - simpl. intros p ->%list_elem_of_singleton. set_solver.
Qed.

Lemma valid_moves_listed_once_witness :
  ∃ cells,
    getValidMoves (gridSize crossfire) (levelUnits crossfire)
      (hero (mkPosition 5 9)) (initGrid crossfire (levelUnits crossfire))
    = Some cells
    ∧ NoDup cells.
Proof.
  eexists. split; [vm_compute; reflexivity|].
  apply (valid_moves_listed_once crossfire (levelUnits crossfire)
           (hero (mkPosition 5 9))).
  vm_compute. reflexivity.
Defined.

(** X7 (no movement, no move).  A stunned unit has no valid move, and a unit
    inside the grid whose move range is below 1 has none either. *)
Theorem no_moves_without_movement (level : LevelData) (units : list Unit)
    (unit : Unit) :
  (isStunned unit = true
   ∨ (moveRange unit < 1 ∧ outOfBounds (gridSize level) (position unit) = false)) →
  getValidMoves (gridSize level) units unit (initGrid level units) = Some [].
Proof.
  intros [Hst | [Hr Hin]]; [by apply getValidMoves_stunned|].
  destruct (isStunned unit) eqn:Hst; [by apply getValidMoves_stunned|].
  destruct (getValidMoves_spec level units units unit) as (res & -> & Hok & _);
    [by right | done |].
  destruct res as [|c res]; [done|].
  apply Forall_cons in Hok as [(_ & _ & _ & Hlb) _].
  pose proof (entryCost_range level c). unfold lowerBound in Hlb.
  destruct (startsOnForest level unit); lia.
Qed.

Lemma no_moves_without_movement_witness :
  getValidMoves (gridSize mountainPass) passStunned
    (with_stunned (shieldbearer "sb3" "Undead Shieldbearer" 50 (mkPosition 4 7))
                  true)
    (initGrid mountainPass passStunned) = Some [].
Proof.
  apply (no_moves_without_movement mountainPass passStunned). left. reflexivity.
Defined.

(** *** Completeness on a level without forest *)

Lemma walk_nonneg (level : LevelData) (units : list Unit) (start c : Position)
    (k : Z) :
  walk level units start c k → 0 ≤ k.
Proof. induction 1; lia. Qed.

Lemma walk_inv (level : LevelData) (units : list Unit) (start c : Position)
    (k : Z) :
  walk level units start c k →
  (c = start ∧ k = 0)
  ∨ ∃ p, walk level units start p (k - 1) ∧ c ∈ neighbors p
         ∧ enterable level units c.
Proof.
  destruct 1 as [|p q k Hw Hq He]; [by left|].
  right. exists p. by replace (k + 1 - 1) with k by lia.
Qed.

Lemma stepCost_forestFree (level : LevelData) (current : Node) (q : Position) :
  forestFree level → stepCost level false current q = 1.
Proof.
  intros Hff. unfold stepCost, entryCost. rewrite andb_false_r.
  by rewrite decide_False by apply Hff.
Qed.

(** When the nodes of cost [h] are used up, the invariant holds of
    [h + 1]. *)
Lemma layered_next (level : LevelData) (units : list Unit) (unit : Unit)
    (h : Z) (u : Node) (rest : list Node) (visited : gset (Z * Z))
    (valid : list Position) :
  layered level units unit h (u :: rest) visited valid →
  curCost u ≤ moveRange unit →
  curCost u = h + 1 →
  layered level units unit (h + 1) (u :: rest) visited valid.
Proof.
  intros (Hh & H0 & (A & B & Hq & HA & HB) & H2 & H3 & H5 & H6 & H8) Hle Hu.
  assert (A = []) as ->.
  { destruct A as [|a A]; [done|]. simpl in Hq. injection Hq as <- _.
    apply Forall_cons in HA as [? _]. lia. }
  simpl in Hq. subst B.
  split_and!; [lia | done | | | done..].
  - exists (u :: rest), []. rewrite app_nil_r. split_and!; [done..|constructor].
  - intros c k Hw Hk HR.
    destruct (decide (k ≤ h)) as [?|Hgt]; [by eapply H2|].
    assert (k = h + 1) as -> by lia.
    apply walk_inv in Hw as [[-> ?] | (p & Hp & Hnb & Hent)]; [done|].
    replace (h + 1 - 1) with h in Hp by lia.
    assert (key p ∈ visited) as Hpv by (eapply H2; [exact Hp | lia | lia]).
    apply (H5 p h c); [done | | done | lia | done | done].
    intros (n & -> & Hn)%list_elem_of_fmap.
    pose proof (H3 n h Hn Hp).
    pose proof (proj1 (Forall_forall _ _) HB n Hn). simpl in *. lia.
Qed.

(** One round of the loop keeps the invariant, for the same [h]. *)
Lemma layered_step (level : LevelData) (units : list Unit) (unit : Unit)
    (h : Z) (u : Node) (rest : list Node) (visited : gset (Z * Z))
    (valid extra : list Position) :
  forestFree level →
  layered level units unit h (u :: rest) visited valid →
  curCost u = h →
  NoDup extra →
  (∀ nb, nb ∈ extra ↔
         nb ∈ neighbors (node_position u) ∧ enterable level units nb
         ∧ (key nb ∉ visited) ∧ curCost u + 1 ≤ moveRange unit) →
  layered level units unit h
    (rest ++ ((λ nb, mkNode nb (curCost u + 1)) <$> extra))
    (list_to_set (key <$> extra) ∪ visited)
    (if decide (curCost u > 0) then valid ++ [node_position u] else valid).
Proof.
  intros Hff (Hh & H0 & (A & B & Hq & HA & HB) & H2 & H3 & H5 & H6 & H8)
         Hu Hnd Hin.
  assert (∀ p, key p ∈ (list_to_set (key <$> extra) ∪ visited : gset (Z * Z)) →
               p ∈ extra ∨ key p ∈ visited) as Hsplit.
  { intros p [Hp | Hp]%elem_of_union; [left | by right].
    apply elem_of_list_to_set, list_elem_of_fmap in Hp as (p' & Hk & Hp').
    by apply key_inj in Hk as ->. }
  assert (∀ p, p ∈ extra →
               p ∈ node_position <$>
                     rest ++ ((λ nb, mkNode nb (curCost u + 1)) <$> extra))
    as Hextra.
  { intros p Hp. rewrite fmap_app, <- list_fmap_compose. simpl.
    rewrite list_fmap_id. apply elem_of_app. by right. }
  assert (∃ A', A = u :: A' ∧ rest = A' ++ B) as (A' & -> & ->).
  { destruct A as [|a A].
    - simpl in Hq. subst B. apply Forall_cons in HB as [? _]. lia.
    - simpl in Hq. injection Hq as -> ->. by exists A. }
  apply Forall_cons in HA as [_ HA].
  split_and!.
  - done.
  - set_solver.
  - exists A', (B ++ ((λ nb, mkNode nb (curCost u + 1)) <$> extra)).
    split_and!; [by rewrite app_assoc | done |].
    apply Forall_app. split; [done|].
    apply Forall_fmap, Forall_forall. intros nb _. simpl. lia.
  - intros c k Hw Hk HR. apply elem_of_union. right. by eapply H2.
  - intros n k [Hn | Hn]%elem_of_app Hw.
    + apply (H3 n k); [by right | done].
    + apply list_elem_of_fmap in Hn as (nb & -> & Hnb). simpl in *.
      apply Hin in Hnb as (_ & _ & Hfresh & Haff).
      destruct (decide (k ≤ h)) as [Hk|]; [|lia].
      destruct Hfresh. eapply H2; [exact Hw | done | lia].
  - intros p k nb Hp Hnq Hw Hk Hnb Hent.
    destruct (Hsplit p Hp) as [Hpe | Hpv]; [by destruct Hnq; apply Hextra|].
    destruct (decide (p = node_position u)) as [-> | Hpu].
    + pose proof (H3 u k ltac:(by left) Hw) as Hcost.
      destruct (decide (key nb ∈ visited)) as [?|Hfresh]; [set_solver|].
      apply elem_of_union. left. apply elem_of_list_to_set, list_elem_of_fmap.
      exists nb. split; [done|]. apply Hin. split_and!; [done..|lia].
    + apply elem_of_union. right.
      apply (H5 p k nb); try done.
      intros [-> | Hpr]%elem_of_cons; [done|].
      apply Hnq. rewrite fmap_app. apply elem_of_app. by left.
  - intros p Hp.
    destruct (Hsplit p Hp) as [Hpe | Hpv]; [right; right; by apply Hextra|].
    destruct (H6 p Hpv) as [? | [? | Hpq]]; [by left | |].
    + right; left. case_decide; [apply elem_of_app; by left | done].
    + simpl in Hpq. apply elem_of_cons in Hpq as [-> | Hpq].
      * case_decide.
        -- right; left. apply elem_of_app. right.
           by apply list_elem_of_singleton.
        -- left. apply H8; [by left | lia].
      * right; right. rewrite fmap_app. apply elem_of_app. by left.
  - intros n [Hn | Hn]%elem_of_app Hc.
    + apply H8; [by right | done].
    + apply list_elem_of_fmap in Hn as (nb & -> & _). simpl in Hc. lia.
Qed.

(** The loop, run from a state that satisfies the invariant, returns every
    cell that a walk within the move range leads to. *)
Lemma bfsLoop_complete (level : LevelData) (units gunits : list Unit)
    (unit : Unit) (fuel : nat) :
  forestFree level →
  ∀ (queue : list Node) (visited : gset (Z * Z)) (valid res : list Position)
    (h : Z),
    layered level units unit h queue visited valid →
    Forall (λ n, curCost n > 0 → curCost n ≤ moveRange unit) queue →
    bfsLoop fuel (gridSize level) units unit (initGrid level gunits) false
            queue visited valid = Some res →
    ∀ c k, walk level units (position unit) c k →
           k ≤ moveRange unit → c ≠ position unit → c ∈ res.
Proof.
  intros Hff.
  assert (∀ visited valid h,
            layered level units unit h [] visited valid →
            ∀ c k, walk level units (position unit) c k →
                   k ≤ moveRange unit → c ≠ position unit → c ∈ valid) as Hend.
  { intros visited valid h (Hh & H0 & _ & _ & _ & H5 & H6 & _) c k Hw Hk Hne.
    assert (key c ∈ visited) as Hc.
    { clear Hne. induction Hw as [|p q k Hw IH Hq He]; [done|].
      apply (H5 p k q); try done.
      - apply IH. pose proof (walk_nonneg _ _ _ _ _ Hw). lia.
      - simpl. apply not_elem_of_nil. }
    destruct (H6 c Hc) as [? | [? | []%elem_of_nil]]; done. }
  induction fuel as [|fuel IH]; intros queue visited valid res h Hinv Hcost Hrun;
    destruct queue as [|u rest]; cbn [bfsLoop] in Hrun;
    try discriminate Hrun.
  - injection Hrun as <-. by eapply Hend.
  - injection Hrun as <-. by eapply Hend.
  - destruct (forEachM _ _ _) as [qv'|] eqn:Hexp; [|discriminate Hrun].
    cbn [mbind option_bind] in Hrun.
    destruct (expand_effect _ _ _ _ _ _ _ _ _ (neighbors_NoDup _) Hexp)
      as (extra & Hq & Hs & Hne & Hin).
    simpl in Hq, Hs, Hin.
    assert (∀ nb, stepCost level false u nb = 1) as Hsc
      by (intros; by apply stepCost_forestFree).
    assert (∀ nb, nb ∈ extra ↔
                  nb ∈ neighbors (node_position u) ∧ enterable level units nb
                  ∧ (key nb ∉ visited) ∧ curCost u + 1 ≤ moveRange unit)
      as Hin'.
    { intros nb. rewrite Hin, Hsc. done. }
    assert (qv'.1 = rest ++ ((λ nb, mkNode nb (curCost u + 1)) <$> extra))
      as Hq'.
    { rewrite Hq. f_equal. apply list_fmap_ext. intros _ nb _. simpl.
      by rewrite Hsc. }
    apply Forall_cons in Hcost as [Hcu Hcrest].
    assert (∃ h', layered level units unit h' (u :: rest) visited valid
                  ∧ curCost u = h') as (h' & Hinv' & Hu).
    { pose proof Hinv as (Hh & _ & (A & B & HAB & HA & HB) & _).
      destruct A as [|a A].
      - simpl in HAB. subst B. apply Forall_cons in HB as [Hb _].
        exists (h + 1). split; [|done].
        apply layered_next; [done | lia | done].
      - simpl in HAB. injection HAB as -> _.
        apply Forall_cons in HA as [Ha _]. by exists h. }
    pose proof (layered_step level units unit h' u rest visited valid extra
                  Hff Hinv' Hu Hne Hin') as Hnext.
    rewrite <- Hq', <- Hs in Hnext.
    eapply (IH _ _ _ _ h'); [exact Hnext | | exact Hrun].
    rewrite Hq'. apply Forall_app. split; [done|].
    apply Forall_fmap, Forall_forall. intros nb Hnb _. simpl.
    by apply Hin' in Hnb as (_ & _ & _ & ?).
Qed.

(** X8 (completeness without forest).  On a level without forest, as the
    Mountain Pass, the planner misses nothing: for a unit inside the grid
    that is not stunned, every cell other than its own that some walk of at
    most [moveRange] orthogonal steps through enterable cells leads to is among
    the valid moves. *)
Theorem planner_complete_without_forest (level : LevelData)
    (units : list Unit) (unit : Unit) :
  forestFree level →
  outOfBounds (gridSize level) (position unit) = false →
  isStunned unit = false →
  ∃ cells,
    getValidMoves (gridSize level) units unit (initGrid level units) = Some cells
    ∧ ∀ c k, walk level units (position unit) c k →
             k ≤ moveRange unit → c ≠ position unit → c ∈ cells.
Proof.
  intros Hff Hin Hst.
  destruct (getValidMoves_spec level units units unit) as (res & Hres & _);
    [by right | done |].
  exists res. split; [done|].
  unfold getValidMoves in Hres. rewrite Hst in Hres.
  assert ((if decide (emoji unit ≠ BOW)
           then startTile ← tileAt (initGrid level units)
                              (x (position unit)) (y (position unit));
                Some (bool_decide (terrain startTile = forest))
           else Some false) = Some false) as Hsof.
  { case_decide; [|done].
    rewrite tileAt_initGrid_eq. destruct (position unit) as [px py].
    simpl in *. rewrite Hin. cbn [mbind option_bind terrain].
    by rewrite bool_decide_false by apply Hff. }
  rewrite Hsof in Hres. cbn [mbind option_bind] in Hres.
  eapply (bfsLoop_complete _ _ _ _ _ Hff _ _ _ _ 0); [| |exact Hres].
  - split_and!.
    + lia.
    + set_solver.
    + exists [mkNode (position unit) 0], []. split_and!; [done | | constructor].
      by apply Forall_singleton.
    + intros c k Hw Hk _.
      pose proof (walk_nonneg _ _ _ _ _ Hw).
      apply walk_inv in Hw as [[-> _] | (p & Hp & _)]; [set_solver|].
      pose proof (walk_nonneg _ _ _ _ _ Hp). lia.
    + intros n k ->%list_elem_of_singleton Hw. simpl.
      by eapply walk_nonneg.
    + intros p k nb Hp%elem_of_singleton%key_inj Hnq. destruct Hnq. simpl.
      by apply list_elem_of_singleton.
    + intros p Hp%elem_of_singleton%key_inj. by left.
    + by intros n ->%list_elem_of_singleton _.
  - apply Forall_singleton. simpl. lia.
Qed.

Lemma planner_complete_without_forest_witness :
  let level := mountainPass in
  let units := levelUnits mountainPass in
  let unit := hero (mkPosition 4 8) in
  ∃ cells,
    getValidMoves (gridSize level) units unit (initGrid level units) = Some cells
    ∧ ∀ c k, walk level units (position unit) c k →
             k ≤ moveRange unit → c ≠ position unit → c ∈ cells.
Proof.
  intros level units unit.
  apply (planner_complete_without_forest level units unit);
    [|reflexivity|reflexivity].
  intros cx cy. unfold level, mountainPass, mapSetup, mountainPassMap.
  repeat (destruct (_ || _) || destruct (is_cell _ _ _ _)); discriminate.
Defined.

(** ** Targets and the highlighted range *)

(** A [forEach] that pushes [g a] for the elements that satisfy [P] builds
    the filtered list. *)
Lemma forEachM_filter_push {A B : Type} (f : list B → A → option (list B))
    (P : A → Prop) `{!∀ a, Decision (P a)} (g : A → B) (l : list A) :
  (∀ acc a, a ∈ l →
            f acc a = Some (if decide (P a) then acc ++ [g a] else acc)) →
  ∀ acc, forEachM f l acc = Some (acc ++ (g <$> filter P l)).
Proof.
  induction l as [|a l IH]; intros Hf acc; simpl.
  { by rewrite app_nil_r. }
  rewrite (Hf acc a) by by left. cbn [mbind option_bind].
  rewrite IH by (intros; apply Hf; by right).
  rewrite filter_cons. destruct (decide (P a)); [|done].
  by rewrite fmap_cons, <- app_assoc.
Qed.

Lemma getValidTargets_filter (level : LevelData)
    (units allUnits : list Unit) (attacker : Unit) :
  inGrid level attacker → Forall (inGrid level) allUnits →
  getValidTargets attacker (initGrid level units) allUnits
  = Some (position <$>
            filter (targetable attacker (initGrid level units)) allUnits).
Proof.
  intros Ha Hall. unfold getValidTargets.
  rewrite (forEachM_filter_push _
             (targetable attacker (initGrid level units)) position); [done|].
  intros acc target Hin.
  assert (inGrid level target) as Htin
    by by apply (proj1 (Forall_forall _ _) Hall).
  destruct (hasLineOfSight_total level units (position attacker)
              (position target) Ha Htin) as [r Hr].
  destruct (decide (targetable attacker (initGrid level units) target))
    as [(Ht & Hd & Hlos) | Hno].
  - rewrite decide_False by done. rewrite decide_True by done.
    by rewrite Hlos.
  - destruct (decide (team target = team attacker)) as [Ht|Ht]; [done|].
    destruct (decide (manhattan (position attacker) (position target)
                      ≤ attackRange attacker)) as [Hd|Hd]; [|done].
    rewrite Hr. cbn [mbind option_bind].
    destruct r; [|done]. by destruct Hno.
Qed.

(** X9 (valid targets).  For an attacker and a roster inside the grid,
    [getValidTargets] returns, in the order of the roster, the positions of
    exactly the units of the other team that are within the attacker's
    range (Manhattan distance) and in its line of sight. *)
Theorem valid_targets_are_the_targetable (level : LevelData)
    (units allUnits : list Unit) (attacker : Unit) :
  inGrid level attacker → Forall (inGrid level) allUnits →
  getValidTargets attacker (initGrid level units) allUnits
  = Some (position <$>
            filter (targetable attacker (initGrid level units)) allUnits).
Proof. apply getValidTargets_filter. Qed.

Lemma valid_targets_are_the_targetable_witness :
  getValidTargets (hero (mkPosition 5 2))
    (initGrid forestAmbush (levelUnits forestAmbush)) (units ambushLastArcher)
  = Some (position <$>
            filter (targetable (hero (mkPosition 5 2))
                      (initGrid forestAmbush (levelUnits forestAmbush)))
                   (units ambushLastArcher)).
Proof.
  apply (valid_targets_are_the_targetable forestAmbush
           (levelUnits forestAmbush) (units ambushLastArcher)
           (hero (mkPosition 5 2))).
  - reflexivity.
  - apply (bool_decide_unpack _). vm_compute. exact I.
Defined.

(** X10 (a neighbour can always be struck).  A unit of the other team that
    stands on one of the four cells next to an attacker whose range is at
    least 1 is always among its valid targets: no terrain shields a unit
    from a strike at arm's length. *)
Theorem adjacent_enemy_is_a_target (level : LevelData)
    (units allUnits : list Unit) (attacker target : Unit) :
  inGrid level attacker → Forall (inGrid level) allUnits →
  target ∈ allUnits → team target ≠ team attacker →
  manhattan (position attacker) (position target) = 1 →
  1 ≤ attackRange attacker →
  ∃ targets,
    getValidTargets attacker (initGrid level units) allUnits = Some targets
    ∧ position target ∈ targets.
Proof.
  intros Ha Hall Hin Ht Hd Hr.
  rewrite getValidTargets_filter by done.
  eexists. split; [done|].
  apply list_elem_of_fmap. exists target. split; [done|].
  apply list_elem_of_filter. split; [|done].
  split_and!; [done | lia |].
  apply hasLineOfSight_touching. unfold touching, manhattan in *. lia.
Qed.

Lemma adjacent_enemy_is_a_target_witness :
  ∃ targets,
    getValidTargets (hero (mkPosition 5 2))
      (initGrid forestAmbush (levelUnits forestAmbush)) (units ambushLastArcher)
    = Some targets
    ∧ position (archer "skel3" (mkPosition 5 1)) ∈ targets.
Proof.
  apply (adjacent_enemy_is_a_target forestAmbush (levelUnits forestAmbush)
           (units ambushLastArcher) (hero (mkPosition 5 2))
           (archer "skel3" (mkPosition 5 1))).
  - reflexivity.
  - apply (bool_decide_unpack _). vm_compute. exact I.
  - apply (bool_decide_unpack _). vm_compute. exact I.
  - discriminate.
  - reflexivity.
  - vm_compute. discriminate.
Defined.

Lemma elem_of_cells (n : Z) (cell : Z * Z) :
  cell ∈ list_prod (seqZ 0 n) (seqZ 0 n) ↔
  outOfBounds n (mkPosition cell.1 cell.2) = false.
Proof.
  destruct cell as [cx cy].
  rewrite list_elem_of_In, in_prod_iff, <- !list_elem_of_In, !elem_of_seqZ.
  rewrite outOfBounds_false. simpl. lia.
Qed.

(** X11 (the highlighted range of a hovered enemy).  For a unit inside the
    grid, [getAttackRangePositions] returns exactly the cells of the grid,
    other than the unit's own, that are within its range and in its line of
    sight.  The highlight agrees with the rule of the attack: a unit of the
    other team, standing inside the grid on another cell than the hovered
    unit, is on a highlighted cell exactly when it is a valid target of the
    hovered unit. *)
Theorem hovered_range_is_the_threat (level : LevelData) (units : list Unit)
    (unit : Unit) :
  inGrid level unit →
  ∃ cells,
    getAttackRangePositions (gridSize level) unit (initGrid level units)
    = Some cells
    ∧ (∀ c, c ∈ cells ↔
            outOfBounds (gridSize level) c = false
            ∧ c ≠ position unit
            ∧ manhattan (position unit) c ≤ attackRange unit
            ∧ hasLineOfSight (position unit) c (initGrid level units)
              = Some true)
    ∧ (∀ target, inGrid level target → team target ≠ team unit →
                 position target ≠ position unit →
                 (position target ∈ cells
                  ↔ targetable unit (initGrid level units) target)).
Proof.
  intros Hu.
  set (dist := λ cell : Z * Z,
         Z.abs (x (position unit) - cell.1) + Z.abs (y (position unit) - cell.2)).
  set (P := λ cell : Z * Z,
         (dist cell ≤ attackRange unit ∧ dist cell > 0)
         ∧ hasLineOfSight (position unit) (mkPosition cell.1 cell.2)
             (initGrid level units) = Some true).
  assert (getAttackRangePositions (gridSize level) unit (initGrid level units)
          = Some ((λ cell, mkPosition cell.1 cell.2) <$>
                    filter P (list_prod (seqZ 0 (gridSize level))
                                        (seqZ 0 (gridSize level))))) as Hrun.
  { unfold getAttackRangePositions.
    rewrite (forEachM_filter_push _ P (λ cell, mkPosition cell.1 cell.2));
      [done|].
    intros acc cell Hcell%elem_of_cells. cbv zeta.
    change (Z.abs (x (position unit) - cell.1)
            + Z.abs (y (position unit) - cell.2)) with (dist cell).
    destruct (hasLineOfSight_total level units (position unit)
                (mkPosition cell.1 cell.2) Hu Hcell) as [r Hr].
    destruct (decide (P cell)) as [[Hd Hlos] | Hno].
    - rewrite decide_True by done. by rewrite Hlos.
    - destruct (decide (dist cell ≤ attackRange unit ∧ dist cell > 0))
        as [Hd|Hd]; [|done].
      rewrite Hr. cbn [mbind option_bind].
      destruct r; [|done]. by destruct Hno. }
  assert (∀ c, c ∈ (λ cell : Z * Z, mkPosition cell.1 cell.2) <$>
                     filter P (list_prod (seqZ 0 (gridSize level))
                                         (seqZ 0 (gridSize level))) ↔
               outOfBounds (gridSize level) c = false
               ∧ c ≠ position unit
               ∧ manhattan (position unit) c ≤ attackRange unit
               ∧ hasLineOfSight (position unit) c (initGrid level units)
                 = Some true) as Hspec.
  { intros c. rewrite list_elem_of_fmap. split.
    - intros (cell & -> & Hcell). apply list_elem_of_filter in Hcell
        as [((Hd & Hpos) & Hlos) Hin%elem_of_cells].
      unfold dist in Hd, Hpos.
      split_and!; [done | | done..].
      intros He. rewrite <- He in Hpos. simpl in Hpos. lia.
    - intros (Hin & Hne & Hd & Hlos). exists (x c, y c).
      destruct c as [cx cy]. split; [done|]. simpl in *.
      apply list_elem_of_filter. split; [|by apply elem_of_cells].
      unfold P, dist. simpl. split_and!; [done | | done].
      assert (x (position unit) ≠ cx ∨ y (position unit) ≠ cy) as Hxy.
      { destruct (decide (x (position unit) = cx)); [|by left].
        right. intros Hy. apply Hne. by apply position_eta. }
      lia. }
  eexists. split; [exact Hrun|]. split; [exact Hspec|].
  intros target Ht Hteam Hpos. rewrite Hspec. unfold targetable.
  naive_solver.
Qed.

Lemma hovered_range_is_the_threat_witness :
  let level := forestAmbush in
  let units := levelUnits forestAmbush in
  let unit := archer "skel1" (mkPosition 1 3) in
  ∃ cells,
    getAttackRangePositions (gridSize level) unit (initGrid level units)
    = Some cells
    ∧ (∀ c, c ∈ cells ↔
            outOfBounds (gridSize level) c = false
            ∧ c ≠ position unit
            ∧ manhattan (position unit) c ≤ attackRange unit
            ∧ hasLineOfSight (position unit) c (initGrid level units)
              = Some true)
    ∧ (∀ target, inGrid level target → team target ≠ team unit →
                 position target ≠ position unit →
                 (position target ∈ cells
                  ↔ targetable unit (initGrid level units) target)).
Proof.
  intros level units unit.
  apply (hovered_range_is_the_threat level units unit). reflexivity.
Defined.

(** ** The direct attack *)

Lemma alive_all (l : list Unit) : Forall (λ u, 0 < hp u) l → alive l = l.
Proof.
  unfold alive. induction 1 as [|a l Ha Hall IH]; [done|].
  by rewrite filter_cons_True, IH by done.
Qed.

Lemma alive_insert_dead (l : list Unit) (i : nat) (t' : Unit) :
  Forall (λ u, 0 < hp u) l → ¬ 0 < hp t' → (i < length l)%nat →
  alive (<[i := t']> l) = delete i l.
Proof.
  revert i.
  induction l as [|a l IH]; intros i Hall Hdead Hi; simpl in *; [lia|].
  apply Forall_cons in Hall as [Ha Hall].
  destruct i as [|i]; simpl; unfold alive in *.
  - rewrite filter_cons_False by done. by apply alive_all.
  - rewrite filter_cons_True by done. f_equal. apply IH; [done..|lia].
Qed.

(** X12 (the direct attack).  On a roster of living units with unique ids,
    the direct attack takes the attacker's damage off the HP of the target
    and touches nothing else: the target stays in its place in the roster
    with the lower HP when some HP is left, and is removed from the roster
    when none is. *)
Theorem direct_attack_effect (attacker target : Unit) (prev : list Unit)
    (ti : nat) :
  unique_ids prev → Forall (λ u, 0 < hp u) prev → prev !! ti = Some target →
  executeAttack attacker target prev =
    if decide (damage attacker < hp target)
    then <[ti := with_hp target (hp target - damage attacker)]> prev
    else delete ti prev.
Proof.
  intros Hids Hall Hti. unfold executeAttack. cbv zeta.
  assert ((λ u, if decide (id u = id target)
                then with_hp u (hp u - damage attacker) else u) <$> prev
          = <[ti := with_hp target (hp target - damage attacker)]> prev) as ->.
  { rewrite (insert_by_id prev ti target) by done.
    apply list_fmap_ext. intros i u Hu. simpl. case_decide; [|done].
    assert (u = target) as ->; [|done].
    eapply unique_ids_elem_inj; eauto using list_elem_of_lookup_2. }
  case_decide.
  - apply alive_all, Forall_insert; [done|]. simpl. lia.
  - apply alive_insert_dead; [done | simpl; lia |].
    by eapply lookup_lt_Some.
Qed.

Lemma direct_attack_effect_witness :
  executeAttack (hero (mkPosition 5 2)) (archer "skel3" (mkPosition 5 1))
    (units ambushLastArcher)
  = [hero (mkPosition 5 2)].
Proof.
  apply (direct_attack_effect (hero (mkPosition 5 2))
           (archer "skel3" (mkPosition 5 1)) (units ambushLastArcher) 1).
  - apply (bool_decide_unpack _). vm_compute. exact I.
  - apply (bool_decide_unpack _). vm_compute. exact I.
  - reflexivity.
Defined.

(** ** More of the shield bash *)

Lemma collision_struck (level : LevelData)
    (attacker target : Unit) (prev : list Unit) (cp : Position) :
  firstCollision level attacker target prev = Some cp →
  mapSetup level (x cp) (y cp) ≠ mountain →
  ∃ hi hu,
    list_find (is_hit target cp) prev = Some (hi, hu)
    ∧ hu ∈ prev ∧ position hu = cp ∧ id hu ≠ id target
    ∧ struckUnit level attacker target prev = Some hu.
Proof.
  intros Hcp Hnm.
  destruct (unit_collision_hit level attacker target prev cp Hcp Hnm)
    as (hi & hu & Hhit).
  exists hi, hu. pose proof Hhit as (Hl & [[Hx Hy] Hne] & _)%list_find_Some.
  split_and!; [done | by eapply list_elem_of_lookup_2
               | by apply position_eta | done |].
  unfold struckUnit. rewrite Hcp. cbn [mbind option_bind]. by rewrite Hhit.
Qed.

(** X13 (a collision has a culprit).  Whenever the scan of the knockback
    path stops on a cell that is not a mountain, a unit of the roster other
    than the target stands on that cell, and the search for the unit hit
    finds it: the search never comes back empty there. *)
Theorem collision_has_a_struck_unit (level : LevelData)
    (attacker target : Unit) (prev : list Unit) (cp : Position) :
  firstCollision level attacker target prev = Some cp →
  mapSetup level (x cp) (y cp) ≠ mountain →
  ∃ hi hu,
    list_find (is_hit target cp) prev = Some (hi, hu)
    ∧ hu ∈ prev ∧ position hu = cp ∧ id hu ≠ id target
    ∧ struckUnit level attacker target prev = Some hu.
Proof. apply collision_struck. Qed.

Lemma collision_has_a_struck_unit_witness :
  ∃ hi hu,
    list_find (is_hit (shieldbearer "sb3" "Undead Shieldbearer" 50 (mkPosition 3 7))
                      (mkPosition 4 7)) passRow7 = Some (hi, hu)
    ∧ hu ∈ passRow7 ∧ position hu = mkPosition 4 7
    ∧ id hu ≠ id (shieldbearer "sb3" "Undead Shieldbearer" 50 (mkPosition 3 7))
    ∧ struckUnit mountainPass (hero (mkPosition 2 7))
        (shieldbearer "sb3" "Undead Shieldbearer" 50 (mkPosition 3 7)) passRow7
      = Some hu.
Proof.
  apply (collision_has_a_struck_unit mountainPass (hero (mkPosition 2 7))
           (shieldbearer "sb3" "Undead Shieldbearer" 50 (mkPosition 3 7))
           passRow7 (mkPosition 4 7)).
  - vm_compute. reflexivity.
  - vm_compute. discriminate.
Defined.

(** The scan of the knockback path, read on the board: the first of the two
    cells behind the target that holds a mountain or another unit. *)
Lemma firstCollision_steps (level : LevelData) (attacker target : Unit)
    (prev : list Unit) :
  let dx := x (position target) - x (position attacker) in
  let dy := y (position target) - y (position attacker) in
  let step i :=
    mkPosition (x (position target) + Z.sgn dx * i)
               (y (position target) + Z.sgn dy * i) in
  firstCollision level attacker target prev
  = if decide (collides level target prev (step 1)) then Some (step 1)
    else if decide (collides level target prev (step 2)) then Some (step 2)
    else None.
Proof.
  intros dx dy step. unfold firstCollision.
  rewrite knockback_path_steps. fold dx dy.
  change (mkPosition (x (position target) + Z.sgn dx * 1) _) with (step 1).
  change (mkPosition (x (position target) + Z.sgn dx * 2) _) with (step 2).
  cbn [list_find]. by repeat case_decide.
Qed.

(** X14 (a bash into a mountain).  Let the destination of the push be inside
    the grid.  When the cell behind a living target is a mountain, or that
    cell holds neither a mountain nor another unit and the next cell is a
    mountain, the target comes to rest on the mountain cell itself, with 1
    HP less and stunned (it is removed when that was its last HP), and the
    updater sets the turn to the enemy; no other unit changes, a unit
    standing on that mountain included. *)
Theorem mountain_collision_stuns (level : LevelData) (attacker target : Unit)
    (prev : list Unit) (cp : Position) :
  unique_ids prev → target ∈ prev → 0 < hp target →
  outOfBounds (gridSize level) (pushPosition attacker target) = false →
  let dx := x (position target) - x (position attacker) in
  let dy := y (position target) - y (position attacker) in
  let step i :=
    mkPosition (x (position target) + Z.sgn dx * i)
               (y (position target) + Z.sgn dy * i) in
  let occupied p := Exists (λ u, id u ≠ id target ∧ at_cell p u) prev in
  let isMountain p := mapSetup level (x p) (y p) = mountain in
  (cp = step 1 ∧ isMountain (step 1))
  ∨ (cp = step 2 ∧ ¬ occupied (step 1) ∧ ¬ isMountain (step 1)
     ∧ isMountain (step 2)) →
  let landed :=
    mkUnit (id target) (name target) cp (hp target - 1) (maxHp target)
           (moveRange target) (attackRange target) (damage target)
           (team target) (emoji target) (Some true) in
  let result := executeShieldBash level attacker target prev in
  result.2 = true
  ∧ ∀ u, u ∈ result.1 ↔
         0 < hp u ∧ (u = landed ∨ (u ∈ prev ∧ id u ≠ id target)).
Proof.
  intros Hids Htgt Hhp Hin dx dy step occupied isMountain Hcase landed result.
  destruct (find_target prev target Hids Htgt) as (ti & Hfind & Hti).
  assert (firstCollision level attacker target prev = Some cp
          ∧ mapSetup level (x cp) (y cp) = mountain) as [Hcp Hm].
  { rewrite firstCollision_steps. fold dx dy. fold step.
    destruct Hcase as [[-> Hm1] | (-> & Hfree & Hnm & Hm2)].
    - rewrite decide_True by by right. done.
    - rewrite decide_False by (intros [?|?]; done).
      rewrite decide_True by by right. done. }
  subst result.
  rewrite (bash_collision_unfold level attacker target prev ti cp) by done.
  unfold resolveCollision. rewrite decide_True by done. simpl.
  split; [done|]. intros u.
  rewrite elem_of_alive, (elem_of_insert_by_id prev ti target) by done.
  done.
Qed.

Lemma mountain_collision_stuns_witness :
  let level := mountainPass in
  let attacker := hero (mkPosition 2 1) in
  let target := shieldbearer "sb1" "Undead Shieldbearer" 50 (mkPosition 2 2) in
  let landed :=
    mkUnit "sb1" "Undead Shieldbearer" (mkPosition 2 3) 49 50 2 1 1 enemy
           SHIELD (Some true) in
  let result := executeShieldBash level attacker target passHeroNorth in
  result.2 = true
  ∧ ∀ u, u ∈ result.1 ↔
         0 < hp u
         ∧ (u = landed ∨ (u ∈ passHeroNorth ∧ id u ≠ id target)).
Proof.
  intros level attacker target landed result.
  apply (mountain_collision_stuns level attacker target passHeroNorth
           (mkPosition 2 3)).
  - apply (bool_decide_unpack _). vm_compute. exact I.
  - apply (bool_decide_unpack _). vm_compute. exact I.
  - reflexivity.
  - reflexivity.
  - left. split; reflexivity.
Defined.

(** X15 (a bash with a free path).  Let the destination of the push be
    inside the grid and let neither of the two cells behind a living target
    hold a mountain or another unit.  Then the terrain of the destination
    decides: on water the target is removed; on a mountain it lands there
    stunned with 1 HP less and the updater sets the turn to the enemy;
    anywhere else it lands on the destination with 1 HP less, its stun left
    as it was, and the updater leaves the turn alone.  A target that loses
    its last HP is removed.  No other unit changes.  For an attacker next to
    the target the destination is the second of the two cells, so it is
    never a mountain: the mountain case only exists for an attacker further
    away. *)
Theorem free_knockback (level : LevelData) (attacker target : Unit)
    (prev : list Unit) :
  unique_ids prev → target ∈ prev → 0 < hp target →
  outOfBounds (gridSize level) (pushPosition attacker target) = false →
  let dx := x (position target) - x (position attacker) in
  let dy := y (position target) - y (position attacker) in
  let step i :=
    mkPosition (x (position target) + Z.sgn dx * i)
               (y (position target) + Z.sgn dy * i) in
  let occupied p := Exists (λ u, id u ≠ id target ∧ at_cell p u) prev in
  let isMountain p := mapSetup level (x p) (y p) = mountain in
  ¬ occupied (step 1) → ¬ isMountain (step 1) →
  ¬ occupied (step 2) → ¬ isMountain (step 2) →
  let dest := mkPosition (x (position target) + dx * 2)
                         (y (position target) + dy * 2) in
  let landed stun :=
    mkUnit (id target) (name target) dest (hp target - 1) (maxHp target)
           (moveRange target) (attackRange target) (damage target)
           (team target) (emoji target) stun in
  let result := executeShieldBash level attacker target prev in
  let others u := u ∈ prev ∧ id u ≠ id target in
  (manhattan (position attacker) (position target) = 1 →
   dest = step 2 ∧ ¬ isMountain dest)
  ∧ match mapSetup level (x dest) (y dest) with
    | water => result.2 = false ∧ ∀ u, u ∈ result.1 ↔ 0 < hp u ∧ others u
    | mountain =>
        result.2 = true
        ∧ ∀ u, u ∈ result.1 ↔ 0 < hp u ∧ (u = landed (Some true) ∨ others u)
    | _ =>
        result.2 = false
        ∧ ∀ u, u ∈ result.1 ↔
               0 < hp u ∧ (u = landed (stunned target) ∨ others u)
    end.
Proof.
  intros Hids Htgt Hhp Hin dx dy step occupied isMountain Ho1 Hm1 Ho2 Hm2
         dest landed result others.
  destruct (find_target prev target Hids Htgt) as (ti & Hfind & Hti).
  assert (firstCollision level attacker target prev = None) as Hcp.
  { rewrite firstCollision_steps. fold dx dy. fold step.
    by rewrite !decide_False by (intros [?|?]; done). }
  split.
  { intros Hadj.
    assert (dest = step 2) as Hdest.
    { unfold dest, step, dx, dy, manhattan in *. f_equal; lia. }
    split; [done|]. by rewrite Hdest. }
  subst result. unfold executeShieldBash. rewrite Hfind.
  rewrite decide_False by lia.
  fold (pushPosition attacker target). rewrite Hin.
  fold (firstCollision level attacker target prev). rewrite Hcp.
  unfold resolveFreePath.
  change (pushPosition attacker target) with dest.
  destruct (mapSetup level (x dest) (y dest)); cbn [fst snd];
    (split; [done|]); intros u; rewrite elem_of_alive;
    rewrite ?(elem_of_insert_by_id prev ti target) by done;
    rewrite ?(elem_of_delete_by_id prev ti target) by done; done.
Qed.

Lemma free_knockback_witness :
  let level := mountainPass in
  let attacker := hero (mkPosition 2 7) in
  let target := shieldbearer "sb3" "Undead Shieldbearer" 50 (mkPosition 3 7) in
  let prev := [attacker; target] in
  let dest := mkPosition 5 7 in
  let landed :=
    mkUnit "sb3" "Undead Shieldbearer" dest 49 50 2 1 1 enemy SHIELD None in
  let result := executeShieldBash level attacker target prev in
  (manhattan (position attacker) (position target) = 1 →
   dest = mkPosition 5 7 ∧ mapSetup level 5 7 ≠ mountain)
  ∧ result.2 = false
  ∧ ∀ u, u ∈ result.1 ↔
         0 < hp u ∧ (u = landed ∨ (u ∈ prev ∧ id u ≠ id target)).
Proof.
  intros level attacker target prev dest landed result.
  apply (free_knockback level attacker target prev).
  - apply (bool_decide_unpack _). vm_compute. exact I.
  - apply (bool_decide_unpack _). vm_compute. exact I.
  - reflexivity.
  - reflexivity.
  - apply (bool_decide_unpack _). vm_compute. exact I.
  - vm_compute. discriminate.
  - apply (bool_decide_unpack _). vm_compute. exact I.
  - vm_compute. discriminate.
Defined.

Lemma unique_ids_swap (prev : list Unit) (ti hi : nat) (target hu t' : Unit) :
  unique_ids prev → prev !! ti = Some target → prev !! hi = Some hu →
  id hu ≠ id target → id t' = id target →
  (<[ti := t']> prev) !! hi = Some hu.
Proof.
  intros Hids Hti Hhi Hne Ht'.
  rewrite list_lookup_insert_ne; [done|]. intros ->. congruence.
Qed.

(** The frame of the bash. *)
Lemma bash_frame (level : LevelData)
    (attacker target : Unit) (prev : list Unit) :
  unique_ids prev → target ∈ prev →
  let result := (executeShieldBash level attacker target prev).1 in
  unique_ids result
  ∧ (∀ u, u ∈ result →
          0 < hp u ∧ ∃ u0, u0 ∈ prev ∧ bashedFrom target u0 u)
  ∧ (∀ u0, u0 ∈ prev → 0 < hp u0 → id u0 ≠ id target →
           (∀ h, struckUnit level attacker target prev = Some h →
                 id u0 ≠ id h) →
           u0 ∈ result).
Proof.
  intros Hids Htgt result.
  destruct (find_target prev target Hids Htgt) as (ti & Hfind & Hti).
  assert (∀ u, bashedFrom target u u) as Hsame.
  { intros u. unfold bashedFrom. split_and!; [done | done | lia | by left]. }
  assert (∀ p, bashedFrom target target (stunned_at target p)) as Hst.
  { intros p. unfold bashedFrom. simpl. split_and!; [done | done | lia | by right]. }
  assert (∀ p, bashedFrom target target (pushed_to target p)) as Hpu.
  { intros p. unfold bashedFrom. simpl. split_and!; [done | done | lia | by left]. }
  assert (∀ h p, bashedFrom target h (pushed_to h p)) as Hhp.
  { intros h p. unfold bashedFrom. simpl. split_and!; [done | done | lia | by left]. }
  subst result. unfold executeShieldBash. rewrite Hfind.
  case_decide as Hhp0.
  { cbn [fst]. split_and!; [by apply unique_ids_alive | |].
    - intros u [? ?]%elem_of_alive. split; [done|]. by exists u.
    - intros u0 ? ? _ _. by apply elem_of_alive. }
  fold (pushPosition attacker target).
  destruct (outOfBounds (gridSize level) (pushPosition attacker target))
    eqn:Hoob.
  { cbn [fst]. split_and!; [by apply unique_ids_alive, unique_ids_delete | |].
    - intros u [? [? ?]%(elem_of_delete_by_id prev ti target _ Hids Hti)]
                 %elem_of_alive.
      split; [done|]. by exists u.
    - intros u0 ? ? ? _. apply elem_of_alive. split; [done|].
      by apply (elem_of_delete_by_id prev ti target _ Hids Hti). }
  fold (firstCollision level attacker target prev). cbn [fst].
  assert (∀ t', id t' = id target → bashedFrom target target t' →
            unique_ids (alive (<[ti := t']> prev))
            ∧ (∀ u, u ∈ alive (<[ti := t']> prev) →
                    0 < hp u ∧ ∃ u0, u0 ∈ prev ∧ bashedFrom target u0 u)
            ∧ (∀ u0, u0 ∈ prev → 0 < hp u0 → id u0 ≠ id target →
                     (∀ h, struckUnit level attacker target prev = Some h →
                           id u0 ≠ id h) →
                     u0 ∈ alive (<[ti := t']> prev))) as Hins.
  { intros t' Hid Hfrom. split_and!.
    - apply unique_ids_alive. by eapply unique_ids_insert.
    - intros u [? Hu]%elem_of_alive.
      apply (elem_of_insert_by_id prev ti target _ _ Hids Hti) in Hu
        as [-> | [? ?]].
      + split; [done|]. by exists target.
      + split; [done|]. by exists u.
    - intros u0 ? ? ? _. apply elem_of_alive. split; [done|].
      apply (elem_of_insert_by_id prev ti target _ _ Hids Hti). by right. }
  destruct (firstCollision level attacker target prev) as [cp|] eqn:Hcp.
  - unfold resolveCollision. case_decide as Hm.
    { cbn [fst]. by apply Hins. }
    destruct (collision_struck level attacker target prev cp Hcp Hm)
      as (hi & hu & Hhit & Hhu & Hpos & Hne & Hstruck).
    pose proof Hhit as (Hhi & _)%list_find_Some.
    rewrite Hhit, Hstruck. rewrite Hpos.
    assert (unique_ids (<[ti := stunned_at target cp]> prev)) as Hids1
      by by eapply unique_ids_insert.
    assert (∀ l,
              (∀ u, u ∈ l ↔
                    u = stunned_at target cp
                    ∨ (u ∈ prev ∧ id u ≠ id target ∧ id u ≠ id hu))
              ∨ (∀ u, u ∈ l ↔
                      u = stunned_at target cp
                      ∨ u = pushed_to hu (mkPosition
                              (x cp + (x (position target) - x (position attacker)) * 2)
                              (y cp + (y (position target) - y (position attacker)) * 2))
                      ∨ (u ∈ prev ∧ id u ≠ id target ∧ id u ≠ id hu)) →
              (∀ u, u ∈ alive l →
                    0 < hp u ∧ ∃ u0, u0 ∈ prev ∧ bashedFrom target u0 u)
              ∧ (∀ u0, u0 ∈ prev → 0 < hp u0 → id u0 ≠ id target →
                       (∀ h, Some hu = Some h → id u0 ≠ id h) →
                       u0 ∈ alive l)) as Hshape.
    { intros l Hl. split.
      - intros u [? Hu]%elem_of_alive. split; [done|].
        destruct Hl as [Hl | Hl]; apply Hl in Hu.
        + destruct Hu as [-> | (? & ? & ?)]; [by exists target | by exists u].
        + destruct Hu as [-> | [-> | (? & ? & ?)]];
            [by exists target | by exists hu | by exists u].
      - intros u0 ? ? ? Hh. apply elem_of_alive. split; [done|].
        specialize (Hh hu eq_refl).
        destruct Hl as [Hl | Hl]; apply Hl; naive_solver. }
    assert (∀ l, unique_ids l → unique_ids (alive l)) as Hal
      by apply unique_ids_alive.
    destruct (decide (emoji target = SHIELD ∧ emoji hu = BOW)).
    { cbn [fst]. split; [by apply Hal, unique_ids_delete|].
      apply Hshape. left. intros u.
      by rewrite (elem_of_swap_delete prev ti hi target hu). }
    destruct (decide (emoji hu = SHIELD ∧ emoji target = BOW)).
    { cbn [fst]. split; [by apply Hal, unique_ids_delete|].
      apply Hshape. left. intros u.
      by rewrite (elem_of_swap_delete prev ti hi target hu). }
    cbv zeta.
    destruct (outOfBounds (gridSize level) _ || _).
    { cbn [fst]. split; [by apply Hal, unique_ids_delete|].
      apply Hshape. left. intros u.
      by rewrite (elem_of_swap_delete prev ti hi target hu). }
    cbn [fst]. split.
    { apply Hal. apply (unique_ids_insert _ hi hu); [done | | done].
      by apply (unique_ids_swap prev ti hi target hu). }
    apply Hshape. right. intros u.
    by rewrite (elem_of_swap_insert prev ti hi target hu).
  - unfold resolveFreePath.
    destruct (mapSetup level _ _); cbn [fst].
    + by apply Hins.
    + by apply Hins.
    + split_and!.
      * by apply unique_ids_alive, unique_ids_delete.
      * intros u [? [? ?]%(elem_of_delete_by_id prev ti target _ Hids Hti)]
                   %elem_of_alive.
        split; [done|]. by exists u.
      * intros u0 ? ? ? _. apply elem_of_alive. split; [done|].
        by apply (elem_of_delete_by_id prev ti target _ Hids Hti).
    + by apply Hins.
Qed.

(** X16 (the frame of the bash).  On a roster with unique ids a bash creates
    no unit, gives no unit HP and changes no team: every unit of the new
    roster is alive and comes from a unit of the old roster with the same
    id and team and at least as much HP, the ids stay unique, and only the
    target can come out stunned without having been.  It changes two units
    at most: every living unit that is neither the target nor the unit the
    target runs into is in the new roster as it was. *)
Theorem bash_changes_two_units_at_most (level : LevelData)
    (attacker target : Unit) (prev : list Unit) :
  unique_ids prev → target ∈ prev →
  let result := (executeShieldBash level attacker target prev).1 in
  unique_ids result
  ∧ (∀ u, u ∈ result →
          0 < hp u
          ∧ ∃ u0, u0 ∈ prev ∧ id u0 = id u ∧ team u0 = team u ∧ hp u ≤ hp u0
                  ∧ (isStunned u = true →
                     isStunned u0 = true ∨ id u = id target))
  ∧ (∀ u0, u0 ∈ prev → 0 < hp u0 → id u0 ≠ id target →
           (∀ h, struckUnit level attacker target prev = Some h →
                 id u0 ≠ id h) →
           u0 ∈ result).
Proof. apply bash_frame. Qed.

Lemma bash_changes_two_units_at_most_witness :
  let level := mountainPass in
  let attacker := hero (mkPosition 2 7) in
  let target := shieldbearer "sb3" "Undead Shieldbearer" 50 (mkPosition 3 7) in
  let prev := passRow7Crowded in
  let result := (executeShieldBash level attacker target prev).1 in
  unique_ids result
  ∧ (∀ u, u ∈ result →
          0 < hp u
          ∧ ∃ u0, u0 ∈ prev ∧ id u0 = id u ∧ team u0 = team u ∧ hp u ≤ hp u0
                  ∧ (isStunned u = true →
                     isStunned u0 = true ∨ id u = id target))
  ∧ (∀ u0, u0 ∈ prev → 0 < hp u0 → id u0 ≠ id target →
           (∀ h, struckUnit level attacker target prev = Some h →
                 id u0 ≠ id h) →
           u0 ∈ result).
Proof.
  intros level attacker target prev result.
  apply (bash_changes_two_units_at_most level attacker target prev).
  - apply (bool_decide_unpack _). vm_compute. exact I.
  - apply (bool_decide_unpack _). vm_compute. exact I.
Defined.

(** ** More of the enemy phase *)

Lemma NoDup_insert_fresh {A : Type} (l : list A) (i : nat) (v : A) :
  NoDup l → (∀ j w, l !! j = Some w → j ≠ i → w ≠ v) → NoDup (<[i := v]> l).
Proof.
  intros Hnd Hfresh. apply NoDup_alt. intros j1 j2 w H1 H2.
  apply list_lookup_insert_Some in H1 as [(<- & <- & ?) | (Hn1 & H1)];
    apply list_lookup_insert_Some in H2 as [(<- & Hv & ?) | (Hn2 & H2)];
    try done.
  - by destruct (Hfresh j2 v).
  - subst w. by destruct (Hfresh j1 v).
  - by apply (proj1 (NoDup_alt l) Hnd j1 j2 w).
Qed.

(** The choice of the best move: the fold ends on the first of the free
    moves that is nearest to the foe's range, or keeps what it started with
    when that is at least as near as every free move. *)
Lemma considerMove_fold (playerUnit foe : Unit) (newUnits : list Unit) :
  ∀ (moves : list Position) (best : Position * option Z),
    let r := foldl (considerMove playerUnit foe newUnits) best moves in
    let free := filter (λ p, ¬ heldByOther foe newUnits p) moves in
    (r = best
     ∧ ∀ q, q ∈ free → ∃ d, best.2 = Some d ∧ d ≤ offRange playerUnit foe q)
    ∨ (∃ l1 l2,
         free = l1 ++ r.1 :: l2
         ∧ r.2 = Some (offRange playerUnit foe r.1)
         ∧ (∀ d, best.2 = Some d → offRange playerUnit foe r.1 < d)
         ∧ (∀ q, q ∈ l1 →
                 offRange playerUnit foe r.1 < offRange playerUnit foe q)
         ∧ (∀ q, q ∈ l2 →
                 offRange playerUnit foe r.1 ≤ offRange playerUnit foe q)).
Proof.
  induction moves as [|m moves IH]; intros best; cbn [foldl].
  { left. split; [done|]. intros q []%elem_of_nil. }
  cbv zeta. rewrite filter_cons.
  destruct (decide (¬ heldByOther foe newUnits m)) as [Hfree | Hheld].
  2: { assert (considerMove playerUnit foe newUnits best m = best) as ->.
       { unfold considerMove. fold (heldByOther foe newUnits m).
         rewrite bool_decide_true; [done|]. by apply dec_stable. }
       apply IH. }
  assert (considerMove playerUnit foe newUnits best m
          = match best.2 with
            | Some minDistance =>
                if decide (offRange playerUnit foe m < minDistance)
                then (m, Some (offRange playerUnit foe m)) else best
            | None => (m, Some (offRange playerUnit foe m))
            end) as Hstep.
  { unfold considerMove. fold (heldByOther foe newUnits m).
    by rewrite bool_decide_false. }
  rewrite Hstep. clear Hstep.
  destruct best as [b [d|]]; cbn [snd fst].
  - destruct (decide (offRange playerUnit foe m < d)) as [Hlt | Hge].
    + destruct (IH (m, Some (offRange playerUnit foe m)))
        as [[-> Hall] | (l1 & l2 & Hf & Hr & Hb & H1 & H2)].
      * right. exists [], (filter (λ p, ¬ heldByOther foe newUnits p) moves).
        cbn [fst snd app]. split_and!; [done | done | | |].
        -- intros ? [= <-]. done.
        -- intros q []%elem_of_nil.
        -- intros q Hq. destruct (Hall q Hq) as (? & [= <-] & ?). done.
      * right. exists (m :: l1), l2. cbn [fst snd] in *.
        pose proof (Hb _ eq_refl).
        split_and!; [by rewrite Hf | done | | | done].
        -- intros ? [= <-]. lia.
        -- intros q [-> | Hq]%elem_of_cons; [done | by apply H1].
    + destruct (IH (b, Some d))
        as [[-> Hall] | (l1 & l2 & Hf & Hr & Hb & H1 & H2)].
      * left. split; [done|]. cbn [snd].
        intros q [-> | Hq]%elem_of_cons; [exists d; split; [done | lia]|].
        by apply Hall.
      * right. exists (m :: l1), l2. cbn [fst snd] in *.
        pose proof (Hb _ eq_refl).
        split_and!; [by rewrite Hf | done | done | | done].
        intros q [-> | Hq]%elem_of_cons; [lia | by apply H1].
  - destruct (IH (m, Some (offRange playerUnit foe m)))
      as [[-> Hall] | (l1 & l2 & Hf & Hr & Hb & H1 & H2)].
    + right. exists [], (filter (λ p, ¬ heldByOther foe newUnits p) moves).
      cbn [fst snd app]. split_and!; [done | done | | |].
      * intros ? [=].
      * intros q []%elem_of_nil.
      * intros q Hq. destruct (Hall q Hq) as (? & [= <-] & ?). done.
    + right. exists (m :: l1), l2. cbn [fst snd] in *.
      pose proof (Hb _ eq_refl).
      split_and!; [by rewrite Hf | done | | | done].
      * intros ? [=].
      * intros q [-> | Hq]%elem_of_cons; [done | by apply H1].
Qed.

(** One enemy of the movement pass, with the moves it chose from. *)
Lemma moveEnemy_spec (level : LevelData) (units newUnits : list Unit)
    (playerUnit foe : Unit) :
  inGrid level foe → inGrid level playerUnit →
  ∃ newUnits',
    moveEnemy (gridSize level) units (initGrid level units) playerUnit
              newUnits foe = Some newUnits'
    ∧ (newUnits' = newUnits
       ∨ (isStunned foe = false
          ∧ ∃ moves,
              getValidMoves (gridSize level) units foe (initGrid level units)
              = Some moves
              ∧ newUnits' =
                (λ u, if decide (id u = id foe)
                      then with_position u
                             (foldl (considerMove playerUnit foe newUnits)
                                    (position foe, None) moves).1
                      else u) <$> newUnits)).
Proof.
  intros Hfoe Hpl. unfold moveEnemy.
  destruct (isStunned foe) eqn:Hst; [eauto|].
  assert (∃ mustMove : bool,
            (if decide (manhattan (position foe) (position playerUnit)
                        > attackRange foe)
             then Some true
             else negb <$> hasLineOfSight (position foe) (position playerUnit)
                             (initGrid level units)) = Some mustMove)
    as [mustMove ->].
  { case_decide; [eauto|].
    destruct (hasLineOfSight_total level units (position foe)
                (position playerUnit) Hfoe Hpl) as [r ->]. simpl. eauto. }
  cbn [mbind option_bind]. destruct mustMove; [|eauto].
  destruct (getValidMoves_spec level units units foe (or_intror Hfoe) Hst)
    as (moves & -> & _).
  cbn [mbind option_bind]. eexists. split; [done|]. right.
  split; [done|]. by exists moves.
Qed.

(** What one enemy of the movement pass does to a roster with unique ids
    that still holds it: nothing, or it puts this enemy, which is not
    stunned, on a cell that no other unit holds. *)
Lemma moveEnemy_effect (level : LevelData) (units newUnits : list Unit)
    (playerUnit foe : Unit) (i : nat) :
  inGrid level foe → inGrid level playerUnit →
  unique_ids newUnits → newUnits !! i = Some foe →
  ∃ newUnits',
    moveEnemy (gridSize level) units (initGrid level units) playerUnit
              newUnits foe = Some newUnits'
    ∧ (newUnits' = newUnits
       ∨ ∃ p, isStunned foe = false
              ∧ ¬ heldByOther foe newUnits p
              ∧ newUnits' = <[i := with_position foe p]> newUnits).
Proof.
  intros Hfoe Hpl Hids Hi.
  destruct (moveEnemy_spec level units newUnits playerUnit foe Hfoe Hpl)
    as (newUnits' & Hrun & Hcases).
  exists newUnits'. split; [done|].
  destruct Hcases as [-> | (Hst & moves & Hmoves & ->)]; [by left|].
  set (r := foldl (considerMove playerUnit foe newUnits) (position foe, None)
                  moves).
  assert ((λ u, if decide (id u = id foe) then with_position u r.1 else u)
          <$> newUnits = <[i := with_position foe r.1]> newUnits) as Hmap.
  { rewrite (insert_by_id newUnits i foe) by done.
    apply list_fmap_ext. intros j u Hu. simpl. case_decide; [|done].
    assert (u = foe) as ->; [|done].
    eapply unique_ids_elem_inj; eauto using list_elem_of_lookup_2. }
  rewrite Hmap.
  destruct (considerMove_fold playerUnit foe newUnits moves (position foe, None))
    as [[Hr _] | (l1 & l2 & Hf & _)]; fold r in Hr || fold r in Hf.
  - left. rewrite Hr. cbn [fst].
    replace (with_position foe (position foe)) with foe by by destruct foe.
    by apply list_insert_id.
  - right. exists r.1. split_and!; [done | | done].
    assert (r.1 ∈ filter (λ p, ¬ heldByOther foe newUnits p) moves) as Hin.
    { rewrite Hf. apply elem_of_app. right. by left. }
    by apply list_elem_of_filter in Hin as [? _].
Qed.

(** The movement pass over enemies of the roster, each listed once: it runs
    to its end; it keeps the ids; it keeps the cells of the units apart when
    they were; every unit it returns is a unit of the roster, or an enemy of
    the pass that is not stunned, on another cell; and it leaves alone
    every unit that is stunned or is no enemy of the pass. *)
Lemma move_pass_frame (level : LevelData) (units : list Unit)
    (playerUnit : Unit) (all : list Unit) :
  inGrid level playerUnit → unique_ids units →
  ∀ (order newUnits : list Unit),
    Forall (inGrid level) order → NoDup (id <$> order) →
    (∀ foe, foe ∈ order → foe ∈ newUnits ∧ foe ∈ all ∧ foe ∈ units) →
    id <$> newUnits = id <$> units →
    (∀ u, u ∈ newUnits →
          u ∈ units
          ∨ ∃ u0 p, u0 ∈ units ∧ u0 ∈ all ∧ isStunned u0 = false
                    ∧ u = with_position u0 p) →
    (∀ u0, u0 ∈ units → isStunned u0 = true ∨ u0 ∉ all → u0 ∈ newUnits) →
    ∃ moved,
      forEachM (moveEnemy (gridSize level) units (initGrid level units)
                          playerUnit) order newUnits = Some moved
      ∧ id <$> moved = id <$> units
      ∧ (NoDup (position <$> newUnits) → NoDup (position <$> moved))
      ∧ (∀ u, u ∈ moved →
              u ∈ units
              ∨ ∃ u0 p, u0 ∈ units ∧ u0 ∈ all ∧ isStunned u0 = false
                        ∧ u = with_position u0 p)
      ∧ (∀ u0, u0 ∈ units → isStunned u0 = true ∨ u0 ∉ all → u0 ∈ moved).
Proof.
  intros Hpl Hids.
  induction order as [|foe order IH];
    intros newUnits Hin Hnd Hord Hsame Hfrom Hkeep; cbn [forEachM].
  { exists newUnits. split_and!; done. }
  apply Forall_cons in Hin as [Hfoe Hin].
  rewrite fmap_cons in Hnd. apply NoDup_cons in Hnd as [Hfresh Hnd].
  destruct (Hord foe ltac:(by left)) as (Hfn & Hfa & Hfu).
  apply list_elem_of_lookup_1 in Hfn as [i Hi].
  assert (unique_ids newUnits) as Hnids by (unfold unique_ids; by rewrite Hsame).
  destruct (moveEnemy_effect level units newUnits playerUnit foe i
              Hfoe Hpl Hnids Hi)
    as (newUnits' & -> & Hcases).
  cbn [mbind option_bind].
  assert (∀ foe', foe' ∈ order → id foe' ≠ id foe) as Hother.
  { intros foe' Hfoe' Heq. apply Hfresh. rewrite <- Heq.
    by apply list_elem_of_fmap_2. }
  destruct Hcases as [-> | (p & Hst & Hfree & ->)].
  { apply IH; try done. intros foe' Hfoe'. apply Hord. by right. }
  destruct (IH (<[i := with_position foe p]> newUnits))
    as (moved & Hrun & Hmids & Hpos & Hmfrom & Hmkeep); try done.
  - intros foe' Hfoe'. destruct (Hord foe' ltac:(by right)) as (Hn & ? & ?).
    split_and!; [|done..].
    apply list_elem_of_lookup_1 in Hn as [j Hj].
    apply (list_elem_of_lookup_2 _ j). rewrite list_lookup_insert_ne; [done|].
    intros ->. apply (Hother foe' Hfoe'). congruence.
  - rewrite list_fmap_insert. simpl. rewrite <- Hsame.
    apply list_insert_id. by rewrite list_lookup_fmap, Hi.
  - intros u Hu. apply list_elem_of_lookup_1 in Hu as [j Hj].
    apply list_lookup_insert_Some in Hj as [(<- & <- & _) | (_ & Hj)].
    + right. exists foe, p. split_and!; done.
    + apply Hfrom. by eapply list_elem_of_lookup_2.
  - intros u0 Hu0 Hcase.
    pose proof (Hkeep u0 Hu0 Hcase) as [j Hj]%list_elem_of_lookup_1.
    apply (list_elem_of_lookup_2 _ j). rewrite list_lookup_insert_ne; [done|].
    intros ->. assert (u0 = foe) as -> by congruence.
    destruct Hcase as [? | ?]; [congruence | done].
  - exists moved. split_and!; [done | done | | done | done].
    intros Hnp. apply Hpos. rewrite list_fmap_insert. simpl.
    apply NoDup_insert_fresh; [done|].
    intros j w Hj Hne ->.
    apply list_lookup_fmap_Some in Hj as (u & Hpu & Hu).
    apply Hfree. apply Exists_exists. exists u.
    split; [by eapply list_elem_of_lookup_2|].
    split; [unfold at_cell; by rewrite Hpu|].
    intros Heq. apply Hne.
    by apply (unique_ids_lookup_inj newUnits j i u foe).
Qed.

(** The enemy batch, unfolded on a roster inside the grid that has a player
    unit and an enemy. *)
Lemma enemyBatch_frame (level : LevelData) (units : list Unit) (pi : nat)
    (playerUnit : Unit) :
  Forall (inGrid level) units → unique_ids units →
  list_find (λ u, team u = player) units = Some (pi, playerUnit) →
  filter (λ u, team u = enemy) units ≠ [] →
  ∃ moved playerHp,
    enemyBatch (gridSize level) units (initGrid level units)
    = Some (alive ((λ u, if decide (team u = player)
                         then with_hp u playerHp else u) <$> moved))
    ∧ id <$> moved = id <$> units
    ∧ (NoDup (position <$> units) → NoDup (position <$> moved))
    ∧ (∀ u, u ∈ moved →
            u ∈ units
            ∨ ∃ u0 p, u0 ∈ units ∧ team u0 = enemy ∧ isStunned u0 = false
                      ∧ u = with_position u0 p)
    ∧ (∀ u0, u0 ∈ units → isStunned u0 = true ∨ team u0 ≠ enemy → u0 ∈ moved).
Proof.
  intros Hin Hids Hfind Hne.
  assert (playerUnit ∈ units) as Hpl_in.
  { apply list_find_Some in Hfind as (Hl & _). eauto using list_elem_of_lookup_2. }
  pose proof Hin as Hall. rewrite Forall_forall in Hall.
  assert (inGrid level playerUnit) as Hpl by auto.
  set (enemies := filter (λ u, team u = enemy) units) in *.
  set (order := sortBy (λ a, manhattan (position a) (position playerUnit))
                       enemies).
  assert (∀ foe, foe ∈ order ↔ foe ∈ units ∧ team foe = enemy) as Hord.
  { intros foe. unfold order. rewrite sortBy_Permutation. unfold enemies.
    rewrite list_elem_of_filter. naive_solver. }
  destruct (move_pass_frame level units playerUnit order Hpl Hids order units)
    as (moved & Hmove & Hmids & Hpos & Hfrom & Hkeep); try done.
  - apply Forall_forall. intros foe Hfoe. by apply Hall, Hord.
  - unfold order. rewrite sortBy_Permutation. unfold enemies.
    eapply sublist_NoDup; [exact Hids|]. apply fmap_sublist, sublist_filter.
  - intros foe Hfoe. split_and!; [by apply Hord | done | by apply Hord].
  - intros u Hu. by left.
  - exists moved, (hp playerUnit
                   - totalDamage (initGrid level units) playerUnit moved order).
    split_and!; [|done|done| |].
    + unfold enemyBatch. rewrite Hfind.
      cbn [fmap option_fmap option_map snd].
      rewrite decide_True
        by (fold enemies; destruct enemies; [done | simpl; lia]).
      fold enemies. fold order. rewrite Hmove. cbn [mbind option_bind].
      rewrite (attack_pass_sum level units playerUnit moved order).
      * done.
      * done.
      * destruct (move_pass_spec level units playerUnit
                    (λ q, outOfBounds (gridSize level) q = false) order Hpl)
          with (newUnits := units) as (moved' & Hmove' & Hq & _).
        { apply Forall_forall. intros foe Hfoe. by apply Hall, Hord. }
        { by intros q [? _]. }
        { apply Forall_forall. intros foe Hfoe. by apply Hall, Hord. }
        { apply Forall_forall. intros v Hv. by apply Hall. }
        rewrite Hmove in Hmove'. by injection Hmove' as <-.
      * intros foe Hfoe. rewrite Hmids. by apply list_elem_of_fmap_2, Hord.
    + intros u Hu. destruct (Hfrom u Hu) as [? | (u0 & p & ? & Hu0 & ? & ->)];
        [by left|].
      right. exists u0, p. split_and!; try done. by apply Hord.
    + intros u0 Hu0 Hcase. apply Hkeep; [done|].
      destruct Hcase as [? | Ht]; [by left | right].
      intros Ho%Hord. by destruct Ho.
Qed.

(** X17 (the enemy phase keeps the cells apart).  On a roster inside the
    grid with unique ids whose units stand on different cells, the enemy
    batch returns, and the units of the roster it returns stand on
    different cells: an enemy only moves to a cell that no other unit
    holds, units that moved before it in the same phase included. *)
Theorem enemy_phase_keeps_cells_apart (level : LevelData) (units : list Unit) :
  Forall (inGrid level) units → unique_ids units →
  NoDup (position <$> units) →
  ∃ res, enemyBatch (gridSize level) units (initGrid level units) = Some res
         ∧ NoDup (position <$> res).
Proof.
  intros Hin Hids Hnd.
  destruct (list_find (λ u, team u = player) units) as [[pi playerUnit]|]
    eqn:Hfind.
  2: { exists units. split; [|done]. unfold enemyBatch. by rewrite Hfind. }
  destruct (decide (filter (λ u, team u = enemy) units = [])) as [Hnil | Hne].
  { exists units. split; [|done]. unfold enemyBatch. rewrite Hfind, Hnil.
    simpl. done. }
  destruct (enemyBatch_frame level units pi playerUnit Hin Hids Hfind Hne)
    as (moved & playerHp & Hrun & _ & Hpos & _).
  eexists. split; [exact Hrun|].
  eapply sublist_NoDup; [|apply fmap_sublist, sublist_filter].
  rewrite <- list_fmap_compose.
  erewrite list_fmap_ext; [by apply Hpos|].
  intros i u _. simpl. by case_decide.
Qed.

Lemma enemy_phase_keeps_cells_apart_witness :
  ∃ res,
    enemyBatch (gridSize forestAmbush) ambushHeroAdvanced
               (initGrid forestAmbush ambushHeroAdvanced) = Some res
    ∧ NoDup (position <$> res).
Proof.
  apply (enemy_phase_keeps_cells_apart forestAmbush ambushHeroAdvanced).
  - apply (bool_decide_unpack _). vm_compute. exact I.
  - apply (bool_decide_unpack _). vm_compute. exact I.
  - apply (bool_decide_unpack _). vm_compute. exact I.
Defined.

(** X18 (the frame of the enemy phase).  On a roster inside the grid with
    unique ids, the enemy batch returns, and every unit it returns comes
    from a unit of the roster with the same id and team; a player unit
    stands where it stood; an enemy has the HP it had, and a stunned enemy
    is returned as it was.  Every living enemy that is stunned is
    returned. *)
Theorem enemy_phase_frame (level : LevelData) (units : list Unit) :
  Forall (inGrid level) units → unique_ids units →
  ∃ res,
    enemyBatch (gridSize level) units (initGrid level units) = Some res
    ∧ (∀ u, u ∈ res → team u = player →
            ∃ u0, u0 ∈ units ∧ id u0 = id u ∧ team u0 = player
                  ∧ position u = position u0)
    ∧ (∀ u, u ∈ res → team u = enemy →
            ∃ u0, u0 ∈ units ∧ id u0 = id u ∧ team u0 = enemy
                  ∧ hp u = hp u0
                  ∧ (isStunned u0 = true → u = u0))
    ∧ (∀ u0, u0 ∈ units → team u0 = enemy → isStunned u0 = true →
             0 < hp u0 → u0 ∈ res).
Proof.
  intros Hin Hids.
  assert (∃ res, enemyBatch (gridSize level) units (initGrid level units)
                 = Some res
                 ∧ (res = units
                    ∨ ∃ moved playerHp,
                        res = alive ((λ u, if decide (team u = player)
                                           then with_hp u playerHp else u)
                                     <$> moved)
                        ∧ (∀ u, u ∈ moved →
                                u ∈ units
                                ∨ ∃ u0 p, u0 ∈ units ∧ team u0 = enemy
                                          ∧ isStunned u0 = false
                                          ∧ u = with_position u0 p)
                        ∧ (∀ u0, u0 ∈ units →
                                 isStunned u0 = true ∨ team u0 ≠ enemy →
                                 u0 ∈ moved)))
    as (res & Hrun & Hres).
  { destruct (list_find (λ u, team u = player) units) as [[pi playerUnit]|]
      eqn:Hfind.
    2: { exists units. split; [|by left]. unfold enemyBatch. by rewrite Hfind. }
    destruct (decide (filter (λ u, team u = enemy) units = [])) as [Hnil | Hne].
    { exists units. split; [|by left]. unfold enemyBatch.
      rewrite Hfind, Hnil. simpl. done. }
    destruct (enemyBatch_frame level units pi playerUnit Hin Hids Hfind Hne)
      as (moved & playerHp & Hrun & _ & _ & Hfrom & Hkeep).
    eexists. split; [exact Hrun|]. right. by exists moved, playerHp. }
  exists res. split; [done|].
  destruct Hres as [-> | (moved & playerHp & -> & Hfrom & Hkeep)].
  { split_and!.
    - intros u Hu Ht. exists u. split_and!; done.
    - intros u Hu Ht. exists u. split_and!; done.
    - done. }
  split_and!.
  - intros u [_ Hu]%elem_of_alive Ht.
    apply list_elem_of_fmap in Hu as (m & -> & Hm).
    destruct (Hfrom m Hm) as [Hmu | (u0 & p & Hu0 & Hte & _ & ->)].
    + exists m. case_decide; simpl in *; split_and!; done.
    + simpl in Ht. rewrite decide_False in Ht by (simpl; congruence).
      simpl in Ht. congruence.
  - intros u [_ Hu]%elem_of_alive Ht.
    apply list_elem_of_fmap in Hu as (m & -> & Hm).
    destruct (decide (team m = player)) as [Hp | Hp]; [simpl in Ht; congruence|].
    destruct (Hfrom m Hm) as [Hmu | (u0 & p & Hu0 & Hte & Hns & ->)].
    + exists m. split_and!; done.
    + exists u0. simpl. split_and!; try done. congruence.
  - intros u0 Hu0 Ht Hst Hhp. apply elem_of_alive. split; [done|].
    apply list_elem_of_fmap. exists u0.
    rewrite decide_False by congruence. split; [done|].
    apply Hkeep; [done | by left].
Qed.

Lemma enemy_phase_frame_witness :
  let level := mountainPass in
  let units := passStunned in
  ∃ res,
    enemyBatch (gridSize level) units (initGrid level units) = Some res
    ∧ (∀ u, u ∈ res → team u = player →
            ∃ u0, u0 ∈ units ∧ id u0 = id u ∧ team u0 = player
                  ∧ position u = position u0)
    ∧ (∀ u, u ∈ res → team u = enemy →
            ∃ u0, u0 ∈ units ∧ id u0 = id u ∧ team u0 = enemy
                  ∧ hp u = hp u0
                  ∧ (isStunned u0 = true → u = u0))
    ∧ (∀ u0, u0 ∈ units → team u0 = enemy → isStunned u0 = true →
             0 < hp u0 → u0 ∈ res).
Proof.
  intros level units.
  apply (enemy_phase_frame level units).
  - apply (bool_decide_unpack _). vm_compute. exact I.
  - apply (bool_decide_unpack _). vm_compute. exact I.
Defined.

(** X19 (the choice of the enemy).  An enemy inside the grid that is not
    stunned and is out of range of the player, or in range without line of
    sight, chooses among its valid moves that no other unit of the roster
    being built holds: it goes to the first of them whose distance to the
    player is nearest to its attack range, and stays where it is when there
    is none. *)
Theorem enemy_goes_nearest_to_its_range (level : LevelData)
    (units newUnits : list Unit) (playerUnit foe : Unit) :
  inGrid level foe → inGrid level playerUnit →
  isStunned foe = false →
  (manhattan (position foe) (position playerUnit) > attackRange foe
   ∨ hasLineOfSight (position foe) (position playerUnit) (initGrid level units)
     = Some false) →
  ∃ moves dest,
    getValidMoves (gridSize level) units foe (initGrid level units) = Some moves
    ∧ moveEnemy (gridSize level) units (initGrid level units) playerUnit
                newUnits foe
      = Some ((λ u, if decide (id u = id foe) then with_position u dest else u)
              <$> newUnits)
    ∧ let free := filter (λ p, ¬ heldByOther foe newUnits p) moves in
      (free = [] ∧ dest = position foe)
      ∨ (∃ l1 l2,
           free = l1 ++ dest :: l2
           ∧ (∀ q, q ∈ l1 →
                   offRange playerUnit foe dest < offRange playerUnit foe q)
           ∧ (∀ q, q ∈ l2 →
                   offRange playerUnit foe dest ≤ offRange playerUnit foe q)).
Proof.
  intros Hfoe Hpl Hst Hmust.
  destruct (getValidMoves_spec level units units foe (or_intror Hfoe) Hst)
    as (moves & Hmoves & _).
  exists moves,
    (foldl (considerMove playerUnit foe newUnits) (position foe, None) moves).1.
  split; [done|]. split.
  - unfold moveEnemy. rewrite Hst.
    assert ((if decide (manhattan (position foe) (position playerUnit)
                        > attackRange foe)
             then Some true
             else negb <$> hasLineOfSight (position foe) (position playerUnit)
                             (initGrid level units)) = Some true) as ->.
    { case_decide; [done|]. destruct Hmust as [? | ->]; done. }
    cbn [mbind option_bind]. rewrite Hmoves. done.
  - cbv zeta.
    destruct (considerMove_fold playerUnit foe newUnits moves
                (position foe, None))
      as [[-> Hall] | (l1 & l2 & Hf & _ & _ & H1 & H2)].
    + left. split; [|done].
      destruct (filter _ moves) as [|q ?]; [done|].
      by destruct (Hall q ltac:(by left)) as (? & [=] & _).
    + right. by exists l1, l2.
Qed.

Lemma enemy_goes_nearest_to_its_range_witness :
  let level := forestAmbush in
  let units := ambushHeroAdvanced in
  let playerUnit := hero (mkPosition 4 7) in
  let foe := archer "skel1" (mkPosition 1 3) in
  ∃ moves dest,
    getValidMoves (gridSize level) units foe (initGrid level units) = Some moves
    ∧ moveEnemy (gridSize level) units (initGrid level units) playerUnit
                units foe
      = Some ((λ u, if decide (id u = id foe) then with_position u dest else u)
              <$> units)
    ∧ let free := filter (λ p, ¬ heldByOther foe units p) moves in
      (free = [] ∧ dest = position foe)
      ∨ (∃ l1 l2,
           free = l1 ++ dest :: l2
           ∧ (∀ q, q ∈ l1 →
                   offRange playerUnit foe dest < offRange playerUnit foe q)
           ∧ (∀ q, q ∈ l2 →
                   offRange playerUnit foe dest ≤ offRange playerUnit foe q)).
Proof.
  intros level units playerUnit foe.
  apply (enemy_goes_nearest_to_its_range level units units playerUnit foe).
  - reflexivity.
  - reflexivity.
  - reflexivity.
  - left. vm_compute. reflexivity.
Defined.

(** ** The board as a whole *)

Lemma roster_ok_fmap (f : Unit → Unit) (us : list Unit) :
  (∀ u, id (f u) = id u) →
  (∀ u, u ∈ us → 0 < hp u → 0 < hp (f u)) →
  (∀ u, u ∈ us → (team u = player → isStunned u = false) →
        team (f u) = player → isStunned (f u) = false) →
  roster_ok us → roster_ok (f <$> us).
Proof.
  intros Hid Hhp Hst (Hids & Halive & Hstun). split_and!.
  - unfold unique_ids. rewrite <- list_fmap_compose.
    erewrite list_fmap_ext; [exact Hids|]. intros i u _. apply Hid.
  - apply Forall_fmap, Forall_forall. intros u Hu. simpl.
    rewrite Forall_forall in Halive. auto.
  - apply Forall_fmap, Forall_forall. intros u Hu. simpl.
    rewrite Forall_forall in Hstun. auto.
Qed.

Lemma roster_ok_alive (us : list Unit) :
  unique_ids us →
  Forall (λ u, team u = player → isStunned u = false) us →
  roster_ok (alive us).
Proof.
  intros Hids Hstun. split_and!.
  - by apply unique_ids_alive.
  - apply Forall_forall. by intros u [? _]%elem_of_alive.
  - by apply Forall_alive.
Qed.

(** The direct attack keeps the roster well formed. *)
Lemma executeAttack_roster (attacker target : Unit) (prev : list Unit) :
  roster_ok prev → roster_ok (executeAttack attacker target prev).
Proof.
  intros (Hids & Halive & Hstun). unfold executeAttack. cbv zeta.
  apply roster_ok_alive.
  - unfold unique_ids. rewrite <- list_fmap_compose.
    erewrite list_fmap_ext; [exact Hids|]. intros i u _. simpl. by case_decide.
  - apply Forall_fmap. eapply Forall_impl; [exact Hstun|].
    intros u Hu. simpl. by case_decide.
Qed.

(** The bash of an enemy keeps the roster well formed. *)
Lemma executeShieldBash_roster (level : LevelData) (attacker target : Unit)
    (prev : list Unit) :
  roster_ok prev → target ∈ prev → team target = enemy →
  roster_ok (executeShieldBash level attacker target prev).1.
Proof.
  intros (Hids & Halive & Hstun) Htgt Hteam.
  destruct (bash_frame level attacker target prev Hids Htgt)
    as (Hids' & Hfrom & _).
  rewrite Forall_forall in Hstun.
  split_and!; [done | |]; apply Forall_forall; intros u Hu;
    destruct (Hfrom u Hu) as (Hhp & u0 & Hu0 & Hid & Ht & _ & Hs); [done|].
  intros Hpl. destruct (isStunned u) eqn:Hsu; [|done].
  destruct (Hs eq_refl) as [Hs0 | Htid].
  - assert (isStunned u0 = false) as Hs1.
    { apply (Hstun u0 Hu0). by rewrite Ht. }
    by rewrite Hs1 in Hs0.
  - assert (u0 = target) as Heq.
    { apply (unique_ids_elem_inj prev); [done..|]. by rewrite Hid. }
    rewrite Heq, Hteam in Ht. by rewrite <- Ht in Hpl.
Qed.

(** The enemy batch keeps the roster well formed. *)
Lemma enemyBatch_roster (level : LevelData) (units : list Unit) :
  Forall (inGrid level) units → roster_ok units →
  ∃ res, enemyBatch (gridSize level) units (initGrid level units) = Some res
         ∧ roster_ok res.
Proof.
  intros Hin Hok. pose proof Hok as (Hids & Halive & Hstun).
  destruct (list_find (λ u, team u = player) units) as [[pi playerUnit]|]
    eqn:Hfind.
  2: { exists units. split; [|done]. unfold enemyBatch. by rewrite Hfind. }
  destruct (decide (filter (λ u, team u = enemy) units = [])) as [Hnil | Hne].
  { exists units. split; [|done]. unfold enemyBatch. rewrite Hfind, Hnil.
    simpl. done. }
  destruct (enemyBatch_frame level units pi playerUnit Hin Hids Hfind Hne)
    as (moved & playerHp & Hrun & Hmids & _ & Hfrom & _).
  eexists. split; [exact Hrun|].
  apply roster_ok_alive.
  - unfold unique_ids. rewrite <- list_fmap_compose.
    erewrite list_fmap_ext; [unfold unique_ids in Hids; by rewrite Hmids|].
    intros i u _. simpl. by case_decide.
  - apply Forall_fmap, Forall_forall. intros m Hm. simpl.
    rewrite Forall_forall in Hstun.
    destruct (Hfrom m Hm) as [Hmu | (u0 & p & Hu0 & Hte & _ & ->)].
    + case_decide; [|by auto]. intros _. by apply (Hstun m).
    + simpl. rewrite Hte. rewrite decide_False by done. simpl. by rewrite Hte.
Qed.

(** The click on a target keeps the roster well formed. *)
Lemma handleAttackClick_roster (level : LevelData) (s : Board)
    (tile : TileData) (selectedUnit : Unit) :
  roster_ok (units s) →
  (∀ u, tile_unit tile = Some u → u ∈ units s) →
  roster_ok (units (handleAttackClick level s tile selectedUnit)).
Proof.
  intros Hok Htile. unfold handleAttackClick.
  destruct (tile_unit tile) as [targetUnit|]; [|done].
  destruct (bool_decide (Exists (isAt tile) (validTargets s))); [|done].
  case_bool_decide as Hteam; [|done]. simpl.
  destruct (selectedAction s).
  - by apply executeAttack_roster.
  - apply executeShieldBash_roster; auto.
Qed.

(** The click on a valid move keeps the roster well formed. *)
Lemma handleMoveClick_roster (level : LevelData) (s s' : Board)
    (tile : TileData) :
  roster_ok (units s) →
  handleMoveClick level s tile = Some (Some s') →
  roster_ok (units s').
Proof.
  intros Hok. unfold handleMoveClick.
  destruct (selectedUnitId s) as [sel|]; [|done].
  destruct (_ && _); [|done]. cbv zeta.
  set (newUnits := (λ u, if decide (id u = sel)
                         then with_position u (tile_position tile) else u)
                   <$> units s).
  assert (roster_ok newUnits) as Hnew.
  { apply roster_ok_fmap; [| | |done].
    - intros u. by case_decide.
    - intros u _ ?. by case_decide.
    - intros u _ Hu. case_decide; simpl; auto. }
  destruct (match snd <$> list_find _ newUnits with
            | Some _ => _ | None => _ end) as [targets|];
    cbn [mbind option_bind]; [|done].
  case_decide; intros [= <-]; done.
Qed.

(** The click that selects leaves the roster as it is. *)
Lemma handleSelectClick_roster (level : LevelData) (s s' : Board)
    (tile : TileData) :
  handleSelectClick level s tile = Some s' → units s' = units s.
Proof.
  unfold handleSelectClick.
  destruct (tile_unit tile) as [u|].
  - destruct (negb (hasMoved s) && bool_decide (team u = player)).
    + destruct (isStunned u); [by intros [= <-]|].
      destruct (getValidMoves _ _ _ _); cbn [mbind option_bind];
        [by intros [= <-] | done].
    + destruct (negb (hasMoved s)); by intros [= <-].
  - destruct (negb (hasMoved s)); by intros [= <-].
Qed.

(** X20 (the roster stays well formed).  A well-formed roster has no two
    units of one id, only living units, and no stunned player unit.  On a
    board at rest with a well-formed roster, every click on a tile of the
    grid and the enemy phase return and leave a well-formed roster, and so
    do the outcome check and the clearing of the stun. *)
Theorem roster_stays_well_formed (level : LevelData) (s : Board) :
  board_ok level s → roster_ok (units s) →
  (∀ cx cy tile, tileAt (grid level s) cx cy = Some tile →
     ∃ s', handleTileClick level s tile = Some s' ∧ roster_ok (units s'))
  ∧ (∃ s', enemyPhase level s = Some s' ∧ roster_ok (units s'))
  ∧ roster_ok (units (checkOutcome s))
  ∧ roster_ok (units (clearStun s)).
Proof.
  intros Hok Hroster. split_and!.
  - intros cx cy tile Htile.
    destruct (handleTileClick_ok level s cx cy tile Hok Htile)
      as (s' & Hrun & _).
    exists s'. split; [done|].
    assert (∀ u, tile_unit tile = Some u → u ∈ units s) as Hin
      by (intros u; by eapply tile_unit_in_roster).
    unfold handleTileClick in Hrun.
    case_decide; [by injection Hrun as <-|].
    assert ((moved ← handleMoveClick level s tile;
             match moved with
             | Some s' => Some s'
             | None => handleSelectClick level s tile
             end) = Some s' → roster_ok (units s')) as Hrest.
    { destruct (handleMoveClick level s tile) as [[s1|]|] eqn:Hmove;
        cbn [mbind option_bind]; [| |done].
      - intros [= <-]. by eapply handleMoveClick_roster.
      - intros Hsel%handleSelectClick_roster. by rewrite Hsel. }
    cbv zeta in Hrun.
    destruct (snd <$> list_find _ (units s)) as [selectedUnit|]; [|auto].
    destruct (hasMoved s); [|auto].
    injection Hrun as <-. by apply handleAttackClick_roster.
  - destruct Hok as (Hunits & _ & _ & Hturn).
    unfold enemyPhase. case_decide as Hen; [|eauto].
    destruct (enemyBatch_roster level (units s)) as (res & Hres & Hr);
      [|done|].
    { eapply Forall_impl; [exact Hunits|]. apply settled_inGrid. }
    unfold grid. rewrite Hres. cbn [mbind option_bind]. eauto.
  - unfold checkOutcome. repeat (case_decide || case_match); done.
  - unfold clearStun. case_decide; [|done]. simpl.
    apply roster_ok_fmap; [done | done | done | done].
Qed.

Lemma roster_stays_well_formed_witness :
  let level := mountainPass in
  let s := initialBoard mountainPass in
  (∀ cx cy tile, tileAt (grid level s) cx cy = Some tile →
     ∃ s', handleTileClick level s tile = Some s' ∧ roster_ok (units s'))
  ∧ (∃ s', enemyPhase level s = Some s' ∧ roster_ok (units s'))
  ∧ roster_ok (units (checkOutcome s))
  ∧ roster_ok (units (clearStun s)).
Proof.
  intros level s.
  apply (roster_stays_well_formed level s).
  - split_and!.
    + apply (bool_decide_unpack _). vm_compute. exact I.
    + constructor.
    + intros sel [=].
    + done.
  - split_and!; apply (bool_decide_unpack _); vm_compute; exact I.
Defined.

(** X21 (the last enemy).  When the player's direct attack strikes a valid
    target, every enemy of the roster has the target's id and no more HP
    than the attacker's damage, and a living player unit is left, the
    outcome check that follows declares the game won. *)
Theorem slaying_the_last_enemy_wins (level : LevelData) (s : Board)
    (tile : TileData) (selectedUnit target : Unit) :
  gameState s = playing → selectedAction s = attack →
  tile_unit tile = Some target → team target = enemy →
  Exists (isAt tile) (validTargets s) →
  (∀ u, u ∈ units s → team u = enemy →
        id u = id target ∧ hp u ≤ damage selectedUnit) →
  (∃ p, p ∈ units s ∧ team p = player ∧ 0 < hp p ∧ id p ≠ id target) →
  gameState (checkOutcome (handleAttackClick level s tile selectedUnit)) = won.
Proof.
  intros Hplay Hact Htile Hteam Hvalid Hlast (p & Hp & Hpt & Hph & Hpid).
  unfold handleAttackClick. rewrite Htile.
  rewrite (bool_decide_true (Exists _ _)) by done.
  rewrite (bool_decide_true (team target = enemy)) by done.
  cbn [andb]. rewrite Hact.
  set (us := executeAttack selectedUnit target (units s)).
  assert (p ∈ us) as Hpus.
  { unfold us, executeAttack. apply elem_of_alive. split; [done|].
    apply list_elem_of_fmap. exists p. by rewrite decide_False. }
  assert (filter (λ u, team u = enemy) us = []) as Hnone.
  { destruct (filter (λ u, team u = enemy) us) as [|e l] eqn:Hf; [done|].
    assert (e ∈ filter (λ u, team u = enemy) us) as He
      by (rewrite Hf; by left).
    apply list_elem_of_filter in He as [Hte He].
    unfold us, executeAttack in He.
    apply elem_of_alive in He as [Hhp He].
    apply list_elem_of_fmap in He as (u & -> & Hu).
    destruct (decide (id u = id target)) as [Hid | Hid].
    - simpl in *. destruct (Hlast u Hu Hte). lia.
    - by destruct (Hlast u Hu Hte). }
  unfold checkOutcome. cbn [gameState units]. rewrite Hplay.
  rewrite decide_False by (intros Hn; by apply Hn).
  destruct (list_find_elem_of (λ u, team u = player) us p Hpus Hpt)
    as [[i v] ->].
  rewrite Hnone. simpl. done.
Qed.

Lemma slaying_the_last_enemy_wins_witness :
  gameState
    (checkOutcome
       (handleAttackClick forestAmbush ambushLastArcher
          (mkTile (mkPosition 5 1) forest (Some (archer "skel3" (mkPosition 5 1))))
          (hero (mkPosition 5 2))))
  = won.
Proof.
  apply (slaying_the_last_enemy_wins forestAmbush ambushLastArcher
           (mkTile (mkPosition 5 1) forest
                   (Some (archer "skel3" (mkPosition 5 1))))
           (hero (mkPosition 5 2)) (archer "skel3" (mkPosition 5 1))).
  - reflexivity.
  - reflexivity.
  - reflexivity.
  - reflexivity.
  - apply (bool_decide_unpack _). vm_compute. exact I.
  - intros u Hu Ht. simpl in Hu.
    apply elem_of_cons in Hu as [-> | Hu]; [discriminate Ht|].
    apply list_elem_of_singleton in Hu as ->. split; [reflexivity|].
    vm_compute. discriminate.
  - exists (hero (mkPosition 5 2)). split_and!.
    + left.
    + reflexivity.
    + reflexivity.
    + discriminate.
Defined.

(** ** The end of a game *)















(** * The application shell and the overworld *)

(** ** The safe spawn *)

Lemma isPositionSafe_spec (pos : Position) (levels : list LevelEntry) :
  isPositionSafe pos levels = true ↔
  ∀ l, l ∈ levels →
       SAFE_SPAWN_DISTANCE ≤ calculateDistance pos (overworldPosition l).
Proof.
  unfold isPositionSafe. rewrite forallb_forall.
  split; intros H l Hl.
  - apply Z.leb_le, H. by apply list_elem_of_In.
  - apply Z.leb_le, H. by apply list_elem_of_In.
Qed.

Lemma isPositionSafe_LEVELS (pos : Position) :
  isPositionSafe pos LEVELS = true ↔
  5 ≤ Z.abs (x pos - 13) + Z.abs (y pos - 18)
  ∧ 5 ≤ Z.abs (x pos - 15) + Z.abs (y pos - 11)
  ∧ 5 ≤ Z.abs (x pos - 11) + Z.abs (y pos - 4).
Proof.
  unfold isPositionSafe, LEVELS, calculateDistance, SAFE_SPAWN_DISTANCE.
  cbn [forallb overworldPosition x y].
  rewrite !andb_true_iff, !Z.leb_le. tauto.
Qed.

(** The positions pushed for the radius [r] are the square ring of that
    radius. *)
Lemma elem_of_ringPositions (c p : Position) (r : Z) :
  1 ≤ r → p ∈ ringPositions c r ↔ ringOf c p = r.
Proof.
  intros Hr. unfold ringPositions, ringOf.
  rewrite elem_of_app, !list_elem_of_In, !in_flat_map.
  destruct c as [cx cy], p as [px py]. cbn [x y].
  split.
  - intros [(dx & Hdx & Hp) | (dy & Hdy & Hp)].
    + apply list_elem_of_In, elem_of_seqZ in Hdx.
      destruct Hp as [Hp | [Hp | []]]; injection Hp as <- <-; lia.
    + apply list_elem_of_In, elem_of_seqZ in Hdy.
      destruct Hp as [Hp | [Hp | []]]; injection Hp as <- <-; lia.
  - intros Hmax.
    destruct (decide (Z.abs (py - cy) = r)) as [Hy | Hy].
    + left. exists (px - cx). split.
      { apply list_elem_of_In, elem_of_seqZ. lia. }
      destruct (decide (py = cy - r)) as [-> | ?];
        [left | right; left]; f_equal; lia.
    + right. exists (py - cy). split.
      { apply list_elem_of_In, elem_of_seqZ. lia. }
      destruct (decide (px = cx - r)) as [-> | ?];
        [left | right; left]; f_equal; lia.
Qed.

Lemma searchRings_Some (c : Position) (levels : list LevelEntry)
    (radii : list Z) (p : Position) :
  searchRings c levels radii = Some p →
  ∃ i r, radii !! i = Some r
         ∧ p ∈ ringPositions c r
         ∧ isPositionSafe p levels = true
         ∧ ∀ j r' q, (j < i)%nat → radii !! j = Some r' →
                     q ∈ ringPositions c r' → isPositionSafe q levels = false.
Proof.
  induction radii as [|radius radii IH]; [done|]. simpl.
  destruct (list_find _ (ringPositions c radius)) as [[k pos]|] eqn:Hfind.
  - intros [= ->]. apply list_find_Some in Hfind as (Hk & Hsafe & _).
    exists 0%nat, radius. split_and!; [done | | done |].
    + by eapply list_elem_of_lookup_2.
    + intros j r' q Hj. lia.
  - intros (i & r & Hi & Hp & Hsafe & Hbefore)%IH.
    exists (S i), r. split_and!; [done..|].
    intros [|j] r' q Hj Hr' Hq.
    + injection Hr' as <-.
      apply list_find_None in Hfind. rewrite Forall_forall in Hfind.
      apply not_true_is_false. by apply Hfind.
    + apply (Hbefore j r' q); [lia | done..].
Qed.

Lemma searchRings_None (c : Position) (levels : list LevelEntry)
    (radii : list Z) :
  searchRings c levels radii = None →
  ∀ r q, r ∈ radii → q ∈ ringPositions c r → isPositionSafe q levels = false.
Proof.
  induction radii as [|radius radii IH]; intros Hrun r q Hr Hq.
  { by apply elem_of_nil in Hr. }
  simpl in Hrun.
  destruct (list_find _ (ringPositions c radius)) as [[k pos]|] eqn:Hfind;
    [done|].
  apply elem_of_cons in Hr as [-> | Hr]; [|by eapply IH].
  apply list_find_None in Hfind. rewrite Forall_forall in Hfind.
  apply not_true_is_false. by apply Hfind.
Qed.

(** What [findSafePosition] returns, for any list of levels. *)
Lemma findSafePosition_spec (currentPos : Position)
    (levels : list LevelEntry) :
  let found := findSafePosition currentPos levels in
  (1 ≤ ringOf currentPos found ≤ 10
   ∧ isPositionSafe found levels = true
   ∧ ∀ q, 1 ≤ ringOf currentPos q < ringOf currentPos found →
          isPositionSafe q levels = false)
  ∨ (found = mkPosition 5 5
     ∧ ∀ q, 1 ≤ ringOf currentPos q ≤ 10 → isPositionSafe q levels = false).
Proof.
  unfold findSafePosition. cbv zeta.
  destruct (searchRings currentPos levels (seqZ 1 10)) as [p|] eqn:Hrun; simpl.
  - left. apply searchRings_Some in Hrun
      as (i & r & Hi & Hp & Hsafe & Hbefore).
    apply lookup_seqZ in Hi as [-> Hi].
    apply elem_of_ringPositions in Hp; [|lia].
    split_and!; [lia | lia | done |].
    intros q Hq.
    apply (Hbefore (Z.to_nat (ringOf currentPos q - 1)) (ringOf currentPos q) q).
    + lia.
    + apply lookup_seqZ. lia.
    + apply elem_of_ringPositions; [lia | done].
  - right. split; [done|]. intros q Hq.
    apply (searchRings_None _ _ _ Hrun (ringOf currentPos q) q).
    + apply elem_of_seqZ. lia.
    + apply elem_of_ringPositions; [lia | done].
Qed.

(** Around any position, one of the corners of the ring of radius 10 is far
    enough from the three entrances of the shipped levels. *)
Lemma LEVELS_safe_corner (c : Position) :
  ∃ q, ringOf c q = 10 ∧ isPositionSafe q LEVELS = true.
Proof.
  destruct c as [cx cy].
  destruct (decide (cx ≤ 13)) as [Hx | Hx].
  - destruct (decide (cy ≤ 11)) as [Hy | Hy].
    + exists (mkPosition (cx - 10) (cy - 10)). split.
      { unfold ringOf. simpl. lia. }
      apply isPositionSafe_LEVELS. simpl. lia.
    + exists (mkPosition (cx - 10) (cy + 10)). split.
      { unfold ringOf. simpl. lia. }
      apply isPositionSafe_LEVELS. simpl. lia.
  - destruct (decide (cy ≤ 11)) as [Hy | Hy].
    + exists (mkPosition (cx + 10) (cy - 10)). split.
      { unfold ringOf. simpl. lia. }
      apply isPositionSafe_LEVELS. simpl. lia.
    + exists (mkPosition (cx + 10) (cy + 10)). split.
      { unfold ringOf. simpl. lia. }
      apply isPositionSafe_LEVELS. simpl. lia.
Qed.

Lemma findSafePosition_LEVELS (c : Position) :
  1 ≤ ringOf c (findSafePosition c LEVELS) ≤ 10
  ∧ isPositionSafe (findSafePosition c LEVELS) LEVELS = true.
Proof.
  destruct (findSafePosition_spec c LEVELS) as [(Hr & Hs & _) | (_ & Hnone)];
    [done|].
  destruct (LEVELS_safe_corner c) as (q & Hq & Hsafe).
  rewrite Hnone in Hsafe by lia. done.
Qed.

(** A safe position is the entrance of no level. *)
Lemma levelAtPos_safe (levels : list LevelEntry) (unlocked : list Z)
    (heroPos : Position) :
  isPositionSafe heroPos levels = true →
  levelAtPos levels unlocked heroPos = None.
Proof.
  intros Hsafe. unfold levelAtPos.
  destruct (list_find _ levels) as [[i l]|] eqn:Hfind; [|done].
  apply list_find_Some in Hfind as (Hi & (Hx & Hy & _) & _).
  apply list_elem_of_lookup_2 in Hi.
  pose proof (proj1 (isPositionSafe_spec _ _) Hsafe l Hi) as Hd.
  unfold calculateDistance, SAFE_SPAWN_DISTANCE in Hd. lia.
Qed.

Lemma offsetHero_safe (app : App) (prev : Position) (store : LocalStorage) :
  isPositionSafe (offsetHero app prev store).1 LEVELS = true
  ∧ saveItem (offsetHero app prev store).2
    = Some (jsonOf (mkSaveData (unlockedLevels app)
                               (offsetHero app prev store).1
                               (currentLevelId app)))
  ∧ (versionAccepted store →
     versionItem (offsetHero app prev store).2 = Some GAME_VERSION).
Proof.
  assert (∀ data, versionAccepted store →
                  versionItem (saveGame data store) = Some GAME_VERSION) as Hv.
  { intros data [Hno | Hv]; unfold saveGame; [by rewrite Hno|].
    by rewrite Hv. }
  unfold offsetHero. cbv zeta.
  destruct (isPositionSafe (mkPosition (x prev) (y prev + 1)) LEVELS) eqn:Hs;
    cbn [fst snd negb].
  - split_and!; [done | done | apply Hv].
  - split_and!; [apply findSafePosition_LEVELS | done | apply Hv].
Qed.

(** X22 (the search for a safe position).  For any position and any list of
    levels, [findSafePosition] returns a safe position of the nearest square
    ring of radius 1 to 10 around the position that holds one (and never the
    position itself); when none of the ten rings holds a safe position it
    returns (5, 5), whether that cell is safe or not. *)
Theorem safe_position_search (currentPos : Position)
    (levels : list LevelEntry) :
  let found := findSafePosition currentPos levels in
  (1 ≤ ringOf currentPos found ≤ 10
   ∧ isPositionSafe found levels = true
   ∧ ∀ q, 1 ≤ ringOf currentPos q < ringOf currentPos found →
          isPositionSafe q levels = false)
  ∨ (found = mkPosition 5 5
     ∧ ∀ q, 1 ≤ ringOf currentPos q ≤ 10 → isPositionSafe q levels = false).
Proof. apply findSafePosition_spec. Qed.

(** X23 (the shipped levels always leave room).  With the three entrances of
    the shipped levels, [findSafePosition] finds a safe position from any
    position whatever: its result is at least five steps from each entrance
    and within ten columns and rows of the start, so the fallback (5, 5) is
    never taken for lack of a safe cell. *)
Theorem shipped_levels_leave_room (currentPos : Position) :
  let found := findSafePosition currentPos LEVELS in
  1 ≤ ringOf currentPos found ≤ 10
  ∧ ∀ l, l ∈ LEVELS → 5 ≤ calculateDistance found (overworldPosition l).
Proof.
  intros found.
  destruct (findSafePosition_LEVELS currentPos) as [Hr Hs].
  split; [done|]. by apply isPositionSafe_spec.
Qed.

Lemma offsetHero_lands (app app' : App) (store : LocalStorage) :
  currentView app' = overworld →
  overworldPos app' = (offsetHero app (overworldPos app) store).1 →
  localStorage app' = (offsetHero app (overworldPos app) store).2 →
  currentView app' = overworld
  ∧ isPositionSafe (overworldPos app') LEVELS = true
  ∧ enterLevel app' = app'
  ∧ ∃ data, saveItem (localStorage app') = Some (jsonOf data)
            ∧ saved_overworldPos data = overworldPos app'.
Proof.
  intros Hview Hpos Hstore.
  destruct (offsetHero_safe app (overworldPos app) store) as (Hsafe & Hsave & _).
  rewrite <- Hpos in Hsafe, Hsave. rewrite <- Hstore in Hsave.
  split_and!; [done | done | | eauto].
  unfold enterLevel. by rewrite levelAtPos_safe.
Qed.

(** X24 (leaving a level).  Whatever the state, [handleWin], [handleLose]
    and [handleExit] show the overworld with the hero on a safe position, at
    least five steps from every entrance: the level-entry effect of the
    overworld finds no level there, so the hero does not enter a level again
    without moving.  The save they leave records that position. *)
Theorem leaving_a_level_lands_safe (app : App) :
  let landed app' :=
    currentView app' = overworld
    ∧ isPositionSafe (overworldPos app') LEVELS = true
    ∧ enterLevel app' = app'
    ∧ ∃ data, saveItem (localStorage app') = Some (jsonOf data)
              ∧ saved_overworldPos data = overworldPos app' in
  landed (handleWin app) ∧ landed (handleLose app) ∧ landed (handleExit app).
Proof.
  cbv zeta. split; [|split].
  - eapply (offsetHero_lands app); unfold handleWin; cbv zeta; reflexivity.
  - eapply (offsetHero_lands app); unfold handleLose; cbv zeta; reflexivity.
  - eapply (offsetHero_lands app); unfold handleExit; cbv zeta; reflexivity.
Qed.

(** X25 (the save of a win misses the unlock).  When a win on level 1 or 2
    unlocks the next level, the state holds the new level, but the save that
    [handleWin] leaves behind was written last by the updater of the
    position, with the list of unlocked levels and the current level of
    before the win: a reload reads a save without the new level. *)
Theorem win_save_misses_the_unlock (app : App) :
  currentLevelId app = 1 ∨ currentLevelId app = 2 →
  currentLevelId app + 1 ∉ unlockedLevels app →
  (length (unlockedLevels app) < 3)%nat →
  versionAccepted (localStorage app) →
  let app' := handleWin app in
  unlockedLevels app' = unlockedLevels app ++ [currentLevelId app + 1]
  ∧ currentLevelId app' = currentLevelId app + 1
  ∧ ∃ data,
      (loadGame (localStorage app')).1 = Some data
      ∧ saved_unlockedLevels data = unlockedLevels app
      ∧ saved_currentLevelId data = currentLevelId app
      ∧ saved_overworldPos data = overworldPos app'.
Proof.
  intros Hlevel Hnew Hlen Hversion app'.
  assert (unlockedBy
            (snd <$> list_find (λ l, levelId (entryLevel l) = currentLevelId app)
                               LEVELS)
          = Some (currentLevelId app + 1)) as Hby.
  { destruct Hlevel as [-> | ->]; reflexivity. }
  set (store1 := saveGame
                   (mkSaveData (unlockedLevels app ++ [currentLevelId app + 1])
                               (overworldPos app) (currentLevelId app))
                   (localStorage app)).
  assert (versionAccepted store1) as Hv1.
  { right. unfold store1, saveGame.
    destruct Hversion as [Hno | Hv]; [by rewrite Hno | by rewrite Hv]. }
  destruct (offsetHero_safe app (overworldPos app) store1)
    as (_ & Hsave & Hv).
  specialize (Hv Hv1).
  assert (unlockedLevels app' = unlockedLevels app ++ [currentLevelId app + 1]
          ∧ currentLevelId app' = currentLevelId app + 1
          ∧ overworldPos app' = (offsetHero app (overworldPos app) store1).1
          ∧ localStorage app' = (offsetHero app (overworldPos app) store1).2)
    as (Hunl & Hcur & Hpos & Hstore).
  { unfold app', handleWin. cbv zeta. rewrite Hby.
    rewrite decide_True by done. done. }
  split_and!; [done | done |].
  exists (mkSaveData (unlockedLevels app) (overworldPos app')
                     (currentLevelId app)).
  split_and!; [|done..].
  unfold loadGame. cbv zeta. rewrite Hstore, Hv, Hsave.
  rewrite (bool_decide_false (Some GAME_VERSION ≠ Some GAME_VERSION))
    by (intros H; by apply H).
  rewrite andb_false_r. cbn [saved_unlockedLevels].
  rewrite decide_False by lia. by rewrite Hpos.
Qed.

Lemma win_save_misses_the_unlock_witness :
  let app := handleSelectLevel (initialApp emptyStorage) 1 in
  let app' := handleWin app in
  unlockedLevels app' = unlockedLevels app ++ [currentLevelId app + 1]
  ∧ currentLevelId app' = currentLevelId app + 1
  ∧ ∃ data,
      (loadGame (localStorage app')).1 = Some data
      ∧ saved_unlockedLevels data = unlockedLevels app
      ∧ saved_currentLevelId data = currentLevelId app
      ∧ saved_overworldPos data = overworldPos app'.
Proof.
  intros app.
  apply (win_save_misses_the_unlock app).
  - left. reflexivity.
  - apply (bool_decide_unpack _). vm_compute. exact I.
  - simpl. lia.
  - left. reflexivity.
Defined.

Lemma loadGame_saveGame (data : SaveData) (store : LocalStorage) :
  loadGame (saveGame data store)
  = (if present (versionItem store)
        && bool_decide (versionItem store ≠ Some GAME_VERSION)
        || bool_decide (3 ≤ length (saved_unlockedLevels data))%nat
     then (None, mkLocalStorage (Some GAME_VERSION) None)
     else (Some data, saveGame data store)).
Proof.
  unfold loadGame, saveGame. cbv zeta.
  destruct (present (versionItem store)) eqn:Hpresent;
    cbn [negb versionItem saveItem].
  - rewrite Hpresent. cbn [andb].
    destruct (bool_decide (versionItem store ≠ Some GAME_VERSION)); [done|].
    cbn [orb saveItem]. rewrite decide_bool_decide.
    by destruct (bool_decide (3 ≤ _)%nat).
  - cbn [versionItem saveItem andb orb present].
    rewrite (bool_decide_false (Some GAME_VERSION ≠ Some GAME_VERSION))
      by (intros H; by apply H).
    rewrite andb_false_r. rewrite decide_bool_decide.
    by destruct (bool_decide (3 ≤ _)%nat).
Qed.

(** X26 (saving, then loading).  [loadGame] after [saveGame] gives the saved
    data back and leaves the storage as it is, unless the storage held a
    version other than the version of the game, or the save lists three
    unlocked levels or more: then it returns nothing, removes the save and
    writes the version of the game; a second load returns nothing either. *)
Theorem save_then_load (data : SaveData) (store : LocalStorage) :
  let outdated :=
    present (versionItem store)
    && bool_decide (versionItem store ≠ Some GAME_VERSION) in
  let complete := bool_decide (3 ≤ length (saved_unlockedLevels data))%nat in
  let wiped := mkLocalStorage (Some GAME_VERSION) None in
  loadGame (saveGame data store)
  = (if outdated || complete then (None, wiped)
     else (Some data, saveGame data store))
  ∧ loadGame wiped = (None, wiped).
Proof.
  intros outdated complete wiped. split; [|reflexivity].
  apply loadGame_saveGame.
Qed.

(** X27 (a finished game is reset).  Once three levels or more are unlocked,
    the save that a move of the hero writes is thrown away by the next
    mount: the application starts again from its initial state, with level 1
    alone unlocked and the hero at (11, 20). *)
Theorem full_progress_is_reset_on_reload (app : App) (newPos : Position) :
  (3 ≤ length (unlockedLevels app))%nat →
  loadOnMount (initialApp (localStorage (onMove app newPos)))
  = initialApp (mkLocalStorage (Some GAME_VERSION) None).
Proof.
  intros Hlen. unfold loadOnMount, onMove. cbn [localStorage initialApp].
  rewrite loadGame_saveGame. cbn [saved_unlockedLevels].
  rewrite (bool_decide_true (3 ≤ _)%nat) by done.
  rewrite orb_true_r. reflexivity.
Qed.

Lemma full_progress_is_reset_on_reload_witness :
  loadOnMount
    (initialApp
       (localStorage
          (onMove (mkApp overworld [1; 2; 3] 3 (mkPosition 11 9) 0 emptyStorage)
                  (mkPosition 11 10))))
  = initialApp (mkLocalStorage (Some GAME_VERSION) None).
Proof.
  apply (full_progress_is_reset_on_reload
           (mkApp overworld [1; 2; 3] 3 (mkPosition 11 9) 0 emptyStorage)
           (mkPosition 11 10)).
  simpl. lia.
Defined.

(** ** The overworld *)

(** X28 (walking the overworld).  A key press moves the hero by one cell at
    most, along one axis, and never out of the 22 x 22 world when the hero is
    inside it; a repeated key event and a key other than the arrows and
    w, a, s, d move nothing. *)
Theorem key_press_stays_in_world (heroPos : Position) (repeated : bool)
    (keyName : string) :
  inWorld heroPos →
  match handleKeyDown heroPos repeated keyName with
  | Some next =>
      repeated = false
      ∧ keyName ∈ ["ArrowUp"; "w"; "ArrowDown"; "s";
                   "ArrowLeft"; "a"; "ArrowRight"; "d"]
      ∧ inWorld next
      ∧ calculateDistance heroPos next ≤ 1
  | None =>
      repeated = true
      ∨ keyName ∉ ["ArrowUp"; "w"; "ArrowDown"; "s";
                   "ArrowLeft"; "a"; "ArrowRight"; "d"]
  end.
Proof.
  intros [Hx Hy]. unfold handleKeyDown.
  destruct repeated; [by left|].
  unfold inWorld, calculateDistance, WORLD_SIZE in *.
  repeat case_decide.
  - split_and!; [done | set_solver | simpl; lia..].
  - split_and!; [done | set_solver | simpl; lia..].
  - split_and!; [done | set_solver | simpl; lia..].
  - split_and!; [done | set_solver | simpl; lia..].
  - right. set_solver.
Qed.

Lemma key_press_stays_in_world_witness :
  match handleKeyDown (mkPosition 11 21) false "s" with
  | Some next =>
      false = false
      ∧ "s" ∈ ["ArrowUp"; "w"; "ArrowDown"; "s";
               "ArrowLeft"; "a"; "ArrowRight"; "d"]
      ∧ inWorld next
      ∧ calculateDistance (mkPosition 11 21) next ≤ 1
  | None =>
      false = true
      ∨ "s" ∉ ["ArrowUp"; "w"; "ArrowDown"; "s";
               "ArrowLeft"; "a"; "ArrowRight"; "d"]
  end.
Proof.
  apply (key_press_stays_in_world (mkPosition 11 21) false "s").
  unfold inWorld, WORLD_SIZE. simpl. lia.
Defined.

(** ** A session *)

Lemma saveInOrder_saveGame (data : SaveData) (store : LocalStorage) :
  unlockedInOrder (saved_unlockedLevels data) →
  saveInOrder (saveGame data store).
Proof. done. Qed.

Lemma saveInOrder_offsetHero (app : App) (prev : Position)
    (store : LocalStorage) :
  unlockedInOrder (unlockedLevels app) →
  saveInOrder (offsetHero app prev store).2.
Proof.
  intros Horder. unfold saveInOrder.
  by rewrite (proj1 (proj2 (offsetHero_safe app prev store))).
Qed.

Lemma loadOnMount_ok (store : LocalStorage) :
  saveInOrder store →
  progress_ok (loadOnMount (initialApp store))
  ∧ saveInOrder (localStorage (loadOnMount (initialApp store))).
Proof.
  intros Hsave. unfold loadOnMount. cbn [localStorage initialApp].
  assert (progress_ok (initialApp store)) as Hinit
    by (split; [by left | done]).
  assert (saveInOrder (mkLocalStorage (Some GAME_VERSION) None)) as Hwiped
    by done.
  unfold loadGame. cbv zeta.
  destruct (_ && _); [done|].
  pose proof Hsave as Hdata. unfold saveInOrder in Hdata.
  destruct (saveItem store) as [[data|]|] eqn:Hitem; [|done..].
  case_decide; [done|]. cbn [fst snd].
  destruct (negb _); cbn [localStorage unlockedLevels currentView].
  - split; [by split|]. by apply saveInOrder_saveGame.
  - split; [by split|]. done.
Qed.

Lemma appStep_ok (app app' : App) :
  appStep app app' →
  progress_ok app ∧ saveInOrder (localStorage app) →
  progress_ok app' ∧ saveInOrder (localStorage app').
Proof.
  intros Hstep [[Horder Hshown] Hsave].
  destruct Hstep as [app repeated keyName Hview | app Hview | app Hview
                    | app Hview | app Hview | app Hview].
  - unfold keyDown. destruct (handleKeyDown _ _ _); [|done].
    split; [|by apply saveInOrder_saveGame].
    split; [done|]. simpl. by rewrite Hview.
  - unfold enterLevel.
    destruct (levelAtPos _ _ _) as [l|] eqn:Hat; [|done].
    split; [|done]. split; [done|]. intros _. simpl.
    unfold levelAtPos in Hat. apply fmap_Some in Hat as ([i l'] & Hfind & ->).
    by apply list_find_Some in Hfind as (_ & (_ & _ & Hin) & _).
  - specialize (Hshown Hview).
    split; [|by apply saveInOrder_offsetHero].
    split; [|done].
    unfold handleWin. cbv zeta. cbn [unlockedLevels].
    destruct Horder as [Hu | [Hu | Hu]]; rewrite Hu in Hshown |- *.
    + apply list_elem_of_singleton in Hshown as ->. by right; left.
    + apply elem_of_cons in Hshown as [-> | Hshown];
        [by right; left|].
      apply list_elem_of_singleton in Hshown as ->. by right; right.
    + repeat (apply elem_of_cons in Hshown as [-> | Hshown]);
        [by right; right.. | by apply elem_of_nil in Hshown].
  - split; [done|]. by apply saveInOrder_offsetHero.
  - split; [done|]. by apply saveInOrder_offsetHero.
  - split; [|done]. split; [done|]. intros _. by apply Hshown.
Qed.

(** X29 (the progression is sound).  Let the storage be empty or hold a
    save that lists levels unlocked in order.  After the mount and any
    number of key presses, level entries, wins, losses, exits and retries,
    the levels are unlocked in order (1, then 2, then 3), the board is only
    shown for a level that is unlocked, and the save still lists levels
    unlocked in order. *)
Theorem progression_is_sound (store : LocalStorage) (app : App) :
  saveInOrder store →
  rtc appStep (loadOnMount (initialApp store)) app →
  progress_ok app ∧ saveInOrder (localStorage app).
Proof.
  intros Hsave. revert app. apply rtc_ind_r.
  - by apply loadOnMount_ok.
  - intros app1 app2 _ Hstep IH. by eapply appStep_ok.
Qed.

Lemma progression_is_sound_witness :
  let app := handleWin (enterLevel (pressKeys (initialApp emptyStorage)
                                      ["d"; "d"; "w"; "w"])) in
  progress_ok app ∧ saveInOrder (localStorage app).
Proof.
  intros app.
  apply (progression_is_sound emptyStorage app).
  - exact I.
  - eapply rtc_r; [eapply rtc_r; [eapply rtc_r; [eapply rtc_r;
      [eapply rtc_r; [eapply rtc_once|]|]|]|]|].
    + apply (step_key _ false "d"). reflexivity.
    + apply (step_key _ false "d"). reflexivity.
    + apply (step_key _ false "w"). reflexivity.
    + apply (step_key _ false "w"). reflexivity.
    + apply step_enter. reflexivity.
    + apply step_win. reflexivity.
Defined.

(** X30 (the safe spawn can leave the world).  The search for a safe
    position does not look at the border of the 22 x 22 world: there is a
    walk of the hero from a fresh start that stays inside the world and
    whose save, read back by the next mount, puts the hero outside it. *)
Theorem safe_spawn_can_leave_the_world :
  ∃ keys,
    let app := pressKeys (initialApp emptyStorage) keys in
    inWorld (overworldPos app)
    ∧ enterLevel app = app
    ∧ ¬ inWorld (overworldPos (loadOnMount (initialApp (localStorage app)))).
Proof.
  exists ["d"; "d"; "s"]. cbv zeta. split_and!.
  - unfold inWorld, WORLD_SIZE. vm_compute. naive_solver.
  - reflexivity.
  - assert (overworldPos
              (loadOnMount
                 (initialApp
                    (localStorage
                       (pressKeys (initialApp emptyStorage) ["d"; "d"; "s"]))))
            = mkPosition 12 22) as -> by (vm_compute; reflexivity).
    unfold inWorld, WORLD_SIZE. simpl. lia.
Qed.
